(* Shallow embedding of the symbolic engines of the logic / set / trigonometry
   trainer: the propositional-formula engine (src/logic.ts), the set-expression
   evaluator (src/set-logic.ts), the exact trigonometry engine
   (src/trig/trig-core.ts) and the fallacy-rule generator
   (src/trig/trig-fallacies.ts).

   Conventions.
   - A JavaScript string is the list of its UTF-16 code units, each a Z.
     [u] decodes a UTF-8 Rocq string literal into that list, so that
     [u "A ⇒ B"] is the JavaScript string 'A ⇒ B' (length 5).
   - A thrown [Error] is the [Err] side of a result type, carrying the message.
   - A JavaScript number is an IEEE double (PrimFloat) where its rounding
     matters, and an integer (Z) where the code only ever handles integers. *)

From Stdlib Require Import ZArith List Bool Lia String Ascii SpecFloat Permutation.
Import ListNotations.
Open Scope Z_scope.

(* ------------------------------------------------------------------------- *)
(** * JavaScript strings as lists of UTF-16 code units *)
(* ------------------------------------------------------------------------- *)

Module JSString.

Definition jsstr := list Z.

(** UTF-8 decoding of the bytes of a Rocq string literal into UTF-16 code
    units (characters above U+FFFF become surrogate pairs). *)
Fixpoint utf8_units (bs : list Z) : list Z :=
  match bs with
  | [] => []
  | b0 :: t =>
      if b0 <? 128 then b0 :: utf8_units t
      else if b0 <? 224 then
        match t with
        | b1 :: t1 => ((b0 - 192) * 64 + (b1 - 128)) :: utf8_units t1
        | [] => []
        end
      else if b0 <? 240 then
        match t with
        | b1 :: b2 :: t2 =>
            ((b0 - 224) * 4096 + (b1 - 128) * 64 + (b2 - 128)) :: utf8_units t2
        | _ => []
        end
      else
        match t with
        | b1 :: b2 :: b3 :: t3 =>
            let cp := (b0 - 240) * 262144 + (b1 - 128) * 4096
                      + (b2 - 128) * 64 + (b3 - 128) in
            (55296 + (cp - 65536) / 1024) :: (56320 + (cp - 65536) mod 1024)
              :: utf8_units t3
        | _ => []
        end
  end.

Fixpoint string_bytes (s : string) : list Z :=
  match s with
  | EmptyString => []
  | String c s' => Z.of_nat (nat_of_ascii c) :: string_bytes s'
  end.

Definition u (s : string) : jsstr := utf8_units (string_bytes s).

(** [/\s/] of JavaScript regular expressions: WhiteSpace and LineTerminator. *)
Definition is_ws (c : Z) : bool :=
  (c =? 9) || (c =? 10) || (c =? 11) || (c =? 12) || (c =? 13) || (c =? 32)
  || (c =? 160) || (c =? 5760) || ((8192 <=? c) && (c <=? 8202))
  || (c =? 8232) || (c =? 8233) || (c =? 8239) || (c =? 8287)
  || (c =? 12288) || (c =? 65279).

Definition is_upper (c : Z) : bool := (65 <=? c) && (c <=? 90).
Definition is_lower (c : Z) : bool := (97 <=? c) && (c <=? 122).
Definition is_digit (c : Z) : bool := (48 <=? c) && (c <=? 57).
(** [/[a-zA-Z]/] *)
Definition is_letter (c : Z) : bool := is_upper c || is_lower c.

(** [String.prototype.trim]: strips leading and trailing white space. *)
Fixpoint trim_start (s : jsstr) : jsstr :=
  match s with
  | c :: t => if is_ws c then trim_start t else s
  | [] => []
  end.

Definition trim (s : jsstr) : jsstr := rev (trim_start (rev (trim_start s))).

(** [s.slice(i, j)] for 0 <= i <= j. *)
Definition slice (s : jsstr) (i j : nat) : jsstr := firstn (j - i) (skipn i s).

(** [s[i]]: [None] is [undefined]. *)
Definition at_ (s : jsstr) (i : Z) : option Z :=
  if i <? 0 then None else nth_error s (Z.to_nat i).

(** [s.startsWith(p, i)] *)
Fixpoint is_prefix (p s : jsstr) : bool :=
  match p, s with
  | [], _ => true
  | c :: p', d :: s' => (c =? d) && is_prefix p' s'
  | _ :: _, [] => false
  end.

Fixpoint list_eqb (a b : jsstr) : bool :=
  match a, b with
  | [], [] => true
  | x :: a', y :: b' => (x =? y) && list_eqb a' b'
  | _, _ => false
  end.

End JSString.

Import JSString.

(* ------------------------------------------------------------------------- *)
(** * The propositional formula engine (src/logic.ts) *)
(* ------------------------------------------------------------------------- *)

Module Logic.

(** [type BinaryKind = 'and' | 'or' | 'imp' | 'iff'] *)
Inductive BinaryKind := KAnd | KOr | KImp | KIff.

(** [type FormulaNode = VarNode | UnaryNode | BinaryNode] *)
Inductive FormulaNode :=
| FVar (name : jsstr)
| FNot (child : FormulaNode)
| FBin (type : BinaryKind) (left right : FormulaNode).

(** [Record<string, boolean>]: a missing key reads as [undefined]. *)
Definition Assignment := jsstr -> option bool.

(** [evaluateFormula] *)
Fixpoint evaluateFormula (node : FormulaNode) (assignment : Assignment) : bool :=
  match node with
  | FVar name => match assignment name with Some b => b | None => false end
  | FNot child => negb (evaluateFormula child assignment)
  | FBin KAnd l r => evaluateFormula l assignment && evaluateFormula r assignment
  | FBin KOr l r => evaluateFormula l assignment || evaluateFormula r assignment
  | FBin KImp l r => negb (evaluateFormula l assignment) || evaluateFormula r assignment
  | FBin KIff l r => Bool.eqb (evaluateFormula l assignment) (evaluateFormula r assignment)
  end.

(** [containsImplication] *)
Fixpoint containsImplication (node : FormulaNode) : bool :=
  match node with
  | FBin KImp _ _ | FBin KIff _ _ => true
  | FNot child => containsImplication child
  | FBin KAnd l r | FBin KOr l r => containsImplication l || containsImplication r
  | FVar _ => false
  end.

Fixpoint fdepth (node : FormulaNode) : nat :=
  match node with
  | FVar _ => 1
  | FNot c => S (fdepth c)
  | FBin _ l r => S (Nat.max (fdepth l) (fdepth r))
  end.

(** [eliminateImplications].  The ['iff'] case calls the function again on
    the freshly built ['imp'] nodes, which are not subterms of the input, so
    the recursion is bounded by a fuel argument; [elim_fuel_enough] below
    shows that the fuel given by [eliminateImplications] never runs out. *)
Fixpoint elim_fuel (fuel : nat) (node : FormulaNode) : FormulaNode :=
  match fuel with
  | O => node
  | S k =>
      match node with
      | FVar _ => node
      | FNot child => FNot (elim_fuel k child)
      | FBin KAnd l r => FBin KAnd (elim_fuel k l) (elim_fuel k r)
      | FBin KOr l r => FBin KOr (elim_fuel k l) (elim_fuel k r)
      | FBin KImp l r =>
          let left := elim_fuel k l in
          let right := elim_fuel k r in
          FBin KOr (FNot left) right
      | FBin KIff l r =>
          let left := elim_fuel k l in
          let right := elim_fuel k r in
          let leftImp := elim_fuel k (FBin KImp left right) in
          let rightImp := elim_fuel k (FBin KImp right left) in
          FBin KAnd leftImp rightImp
      end
  end.

Definition eliminateImplications (node : FormulaNode) : FormulaNode :=
  elim_fuel (3 * fdepth node) node.

(** The value [eliminateImplications] computes, by structural recursion. *)
Fixpoint elimS (node : FormulaNode) : FormulaNode :=
  match node with
  | FVar _ => node
  | FNot c => FNot (elimS c)
  | FBin KAnd l r => FBin KAnd (elimS l) (elimS r)
  | FBin KOr l r => FBin KOr (elimS l) (elimS r)
  | FBin KImp l r => FBin KOr (FNot (elimS l)) (elimS r)
  | FBin KIff l r =>
      FBin KAnd (FBin KOr (FNot (elimS l)) (elimS r))
                (FBin KOr (FNot (elimS r)) (elimS l))
  end.

(** [pushNegation].  For ['imp'] and ['iff'] nodes it recurses into the
    children of [eliminateImplications node], which are not subterms of
    [node]: fuel again, shown sufficient by [push_fuel_semantics]. *)
Fixpoint push_fuel (fuel : nat) (node : FormulaNode) (negate : bool) : FormulaNode :=
  match fuel with
  | O => node
  | S k =>
      match node with
      | FVar _ => if negate then FNot node else node
      | FNot child => push_fuel k child (negb negate)
      | FBin type _ _ =>
          let cleared :=
            match type with
            | KImp | KIff => eliminateImplications node
            | _ => node
            end in
          match cleared with
          | FBin KAnd cl cr =>
              if negate
              then FBin KOr (push_fuel k cl true) (push_fuel k cr true)
              else FBin KAnd (push_fuel k cl false) (push_fuel k cr false)
          | FBin KOr cl cr =>
              if negate
              then FBin KAnd (push_fuel k cl true) (push_fuel k cr true)
              else FBin KOr (push_fuel k cl false) (push_fuel k cr false)
          | _ => node
          end
      end
  end.

Definition pushNegation (node : FormulaNode) (negate : bool) : FormulaNode :=
  push_fuel (3 * fdepth node) node negate.

(** [negateWithDeMorgan] *)
Definition negateWithDeMorgan (node : FormulaNode) : FormulaNode :=
  pushNegation node true.

(** Code units of the operator symbols. *)
Definition c_not : Z := 172.    (* ¬ *)
Definition c_and : Z := 8743.   (* ∧ *)
Definition c_or : Z := 8744.    (* ∨ *)
Definition c_imp : Z := 8658.   (* ⇒ *)
Definition c_iff : Z := 8660.   (* ⇔ *)
Definition c_lpar : Z := 40.
Definition c_rpar : Z := 41.
Definition c_space : Z := 32.

(** [const precedence = { or: 1, and: 2 }] *)
Definition precedence (k : BinaryKind) : Z :=
  match k with KOr => 1 | _ => 2 end.

(** [formatNode] *)
Fixpoint formatNode (node : FormulaNode) (parentPrecedence : Z) : jsstr :=
  match node with
  | FVar name => name
  | FNot child => c_not :: formatNode child 3
  | FBin ((KAnd | KOr) as type) l r =>
      let current := precedence type in
      let left := formatNode l current in
      let right := formatNode r current in
      let combined :=
        left ++ [c_space; match type with KAnd => c_and | _ => c_or end; c_space]
             ++ right in
      if current <? parentPrecedence then c_lpar :: combined ++ [c_rpar]
      else combined
  | FBin KImp l r =>
      c_lpar :: formatNode l 0 ++ [c_space; c_imp; c_space] ++ formatNode r 0 ++ [c_rpar]
  | FBin KIff l r =>
      c_lpar :: formatNode l 0 ++ [c_space; c_iff; c_space] ++ formatNode r 0 ++ [c_rpar]
  end.

(** [astToString] *)
Definition astToString (node : FormulaNode) : jsstr := formatNode node 0.

End Logic.

(* ------------------------------------------------------------------------- *)
(** * Symbol normalisation with cursor tracking (src/logic.ts) *)
(* ------------------------------------------------------------------------- *)

Module Normalize.

(** [String.prototype.toLowerCase] on the ASCII letters; every other code
    unit is kept (the case-less symbols and digits the exercises use). *)
Definition lower_unit (c : Z) : Z := if is_upper c then c + 32 else c.
Definition toLowerCase (s : jsstr) : jsstr := map lower_unit s.

(** What one iteration of the [while] loop does at index [i]:
    [Subst replacement consumed] is a call of [applyReplacement];
    [Copy] is [normalized += char; i += 1]. *)
Inductive Action := Subst (replacement : jsstr) (consumed : nat) | Copy.

(** [lower.slice(i, i + n) === w] *)
Definition ahead (lower : jsstr) (i n : nat) (w : string) : bool :=
  list_eqb (slice lower i (i + n)) (u w).

(** [/[A-C\)\]]/] and [/[A-CΩ∅U\(]/] *)
Definition prev_set_like (c : Z) : bool := ((65 <=? c) && (c <=? 67)) || (c =? 41) || (c =? 93).
Definition next_set_like (c : Z) : bool :=
  ((65 <=? c) && (c <=? 67)) || (c =? 937) || (c =? 8709) || (c =? 85) || (c =? 40).

(** [raw[prevIdx]] after skipping white space backwards from [i - 1], and
    [raw[nextIdx]] after skipping white space forwards from [i + 1]. *)
Definition prevChar (raw : jsstr) (i : nat) : option Z := hd_error (trim_start (rev (firstn i raw))).
Definition nextChar (raw : jsstr) (i : nat) : option Z := hd_error (trim_start (skipn (S i) raw)).

Definition opt_test (p : Z -> bool) (c : option Z) : bool :=
  match c with Some x => p x | None => false end.

(** [/[A-Za-z0-9\)]/], [/[A-Za-z0-9\(]/], [/\s|\)|\(/] *)
Definition alnum_rpar (c : Z) : bool := is_letter c || is_digit c || (c =? 41).
Definition alnum_lpar (c : Z) : bool := is_letter c || is_digit c || (c =? 40).
Definition ws_or_par (c : Z) : bool := is_ws c || (c =? 41) || (c =? 40).

(** The body of the [while] loop of [normalizeWithCursor], as the action it
    takes at index [i]. *)
Definition norm_action (raw lower : jsstr) (i : nat) : Action :=
  let slice3 := slice raw i (i + 3) in
  let slice2 := slice raw i (i + 2) in
  let ahead4 := slice lower i (i + 4) in
  if ahead lower i 6 "forall" then Subst (u "∀") 6 else
  if ahead lower i 6 "exists" then Subst (u "∃") 6 else
  if ahead lower i 3 "pi" then Subst (u "π") 2 else
  if ahead lower i 4 "sqrt" then Subst (u "√") 4 else
  if ahead lower i 3 "deg" then Subst (u "°") 3 else
  if ahead lower i 2 "in" &&
     (let before := at_ raw (Z.of_nat i - 1) in
      let after := at_ raw (Z.of_nat i + 2) in
      negb (opt_test is_letter before) && negb (opt_test is_letter after))
  then Subst (u "∈") 2 else
  if list_eqb slice3 (u "<->") then Subst (u "⇔") 3 else
  if list_eqb slice2 (u "->") then Subst (u "⇒") 2 else
  if list_eqb ahead4 (u "cup ") || list_eqb ahead4 (u "cup") || list_eqb ahead4 (u "cap ") then
    Subst (if is_prefix (u "cap") ahead4 then u "∩" else u "∪") (List.length (trim ahead4))
  else
  if ahead lower i 6 "union" then Subst (u "∪") 5 else
  if ahead lower i 5 "delta" then Subst (u "Δ") 5 else
  if ahead lower i 5 "empty" then Subst (u "∅") 5 else
  if ahead lower i 5 "omega" then Subst (u "Ω") 5 else
  if ahead lower i 3 "inf" then Subst (u "∞") 3 else
  if ahead lower i 5 "infty" then Subst (u "∞") 5 else
  if ahead lower i 8 "intersect" then Subst (u "∩") 8 else
  match nth_error raw i with
  | None => Copy
  | Some char =>
      if char =? 33 then Subst (u "¬") 1             (* '!' *)
      else if char =? 38 then Subst (u "∧") 1        (* '&' *)
      else if char =? 124 then Subst (u "∨") 1       (* '|' *)
      else if char =? 92 then Subst (u "∖") 1        (* '\' *)
      else if char =? 45 then                        (* '-' *)
        if opt_test (Z.eqb 62) (at_ raw (Z.of_nat i + 1)) then Copy
        else if opt_test prev_set_like (prevChar raw i)
                && opt_test next_set_like (nextChar raw i)
        then Subst (u "∖") 1 else Copy
      else if char =? 39 then Subst (u "^c") 1       (* ''' *)
      else
        let next := at_ raw (Z.of_nat i + 1) in
        let prev := at_ raw (Z.of_nat i - 1) in
        if (char =? 85) && opt_test alnum_rpar prev && opt_test alnum_lpar next
        then Subst (u "∪") 1
        else if (char =? 85) && (match next with None => true | Some n => ws_or_par n end)
        then Subst (u "Ω") 1
        else Copy
  end.

(** The mutable locals of [normalizeWithCursor]. *)
Record NState := { normalized : jsstr; newCursor : Z; idx : nat }.

(** One iteration; [cursor] is the original cursor argument. *)
Definition step (raw lower : jsstr) (cursor : Z) (st : NState) : NState :=
  match norm_action raw lower (idx st) with
  | Subst replacement consumed =>
      (* applyReplacement *)
      {| normalized := normalized st ++ replacement;
         newCursor := if Z.of_nat (idx st) <? cursor
                      then newCursor st + (Z.of_nat (List.length replacement) - Z.of_nat consumed)
                      else newCursor st;
         idx := idx st + consumed |}
  | Copy =>
      {| normalized := normalized st ++ (match nth_error raw (idx st) with
                                         | Some c => [c] | None => [] end);
         newCursor := newCursor st;
         idx := idx st + 1 |}
  end.

(** [while (i < raw.length)]; every iteration advances [i], so [List.length raw]
    iterations suffice (see [run_covers]). *)
Fixpoint run (raw lower : jsstr) (cursor : Z) (fuel : nat) (st : NState) : NState :=
  match fuel with
  | O => st
  | S k => if (idx st <? List.length raw)%nat then run raw lower cursor k (step raw lower cursor st) else st
  end.

Record NormalizationResult := { value : jsstr; cursor : Z }.

(** [normalizeWithCursor] *)
Definition normalizeWithCursor (raw : jsstr) (cursor : Z) : NormalizationResult :=
  let lower := toLowerCase raw in
  let st := run raw lower cursor (List.length raw) {| normalized := []; newCursor := cursor; idx := 0 |} in
  {| value := normalized st;
     cursor := Z.max 0 (Z.min (Z.of_nat (List.length (normalized st))) (newCursor st)) |}.

(** [normalizeSymbols] *)
Definition normalizeSymbols (raw : jsstr) : jsstr :=
  value (normalizeWithCursor raw (Z.of_nat (List.length raw))).

(** The substitution sites visited by the loop: the index at which each
    iteration starts, with the action taken there. *)
Definition consumed_by (a : Action) : nat :=
  match a with Subst _ c => c | Copy => 1 end.

Fixpoint trace (raw lower : jsstr) (fuel i : nat) : list (nat * Action) :=
  match fuel with
  | O => []
  | S k =>
      if (i <? List.length raw)%nat
      then let a := norm_action raw lower i in (i, a) :: trace raw lower k (i + consumed_by a)
      else []
  end.

(** The text appended by an iteration. *)
Definition emitted (raw : jsstr) (site : nat * Action) : jsstr :=
  match snd site with
  | Subst r _ => r
  | Copy => match nth_error raw (fst site) with Some c => [c] | None => [] end
  end.

(** The cursor shift [r - c] a substitution contributes when its site lies
    before the original cursor. *)
Definition shift (cursor : Z) (site : nat * Action) : Z :=
  match site with
  | (i, Subst r c) => if Z.of_nat i <? cursor then Z.of_nat (List.length r) - Z.of_nat c else 0
  | (_, Copy) => 0
  end.

(** The sites follow each other: each one starts where the previous one's
    consumed text ends, and the last one ends at or after [List.length raw]. *)
Fixpoint consecutive (len start : nat) (tr : list (nat * Action)) : bool :=
  match tr with
  | [] => (len <=? start)%nat
  | (i, a) :: t => (i =? start)%nat && consecutive len (start + consumed_by a) t
  end.

End Normalize.

(* ------------------------------------------------------------------------- *)
(** * The recursive-descent formula parser (src/logic.ts) *)
(* ------------------------------------------------------------------------- *)

Module Parser.
Import Logic.

(** [FormulaParser] keeps an index into its input; here the state is the
    suffix [input.slice(index)], so [input[index]] is the head of the state,
    [index < input.length] is a non-empty state and [skipWhitespace] is
    [trim_start]. *)

(** The methods of [FormulaParser]; a [while] loop of a method is the goal
    [G...Loop lhs], with [lhs] the tree built so far (the local [left]). *)
Inductive Goal :=
| GIff | GIffLoop (lhs : FormulaNode)
| GImp | GImpLoop (lhs : FormulaNode)
| GOr | GOrLoop (lhs : FormulaNode)
| GAnd | GAndLoop (lhs : FormulaNode)
| GNot | GPrimary.

(** A method returns a node and the new state, or throws; [RNoFuel] is the
    exhausted recursion bound (never reached, see [parse_fuel_enough]). *)
Inductive Res := ROk (node : FormulaNode) (rest : jsstr) | RErr (message : jsstr) | RNoFuel.

Definition bindR (r : Res) (k : FormulaNode -> jsstr -> Res) : Res :=
  match r with
  | ROk node rest => k node rest
  | RErr m => RErr m
  | RNoFuel => RNoFuel
  end.

Notation "'let!' ( x , s ) := r 'in' b" := (bindR r (fun x s => b))
  (at level 200, x name, s name, r at level 100, b at level 200).

(** [match(symbol)]: skip white space; on [startsWith(symbol)] consume it
    and skip white space again. *)
Definition match_ (symbol s : jsstr) : bool * jsstr :=
  let s1 := trim_start s in
  if is_prefix symbol s1 then (true, trim_start (skipn (List.length symbol) s1))
  else (false, s1).

Definition msg_incomplete : jsstr := u "Formel ist unvollständig".
Definition msg_paren : jsstr := u "Schließende Klammer fehlt".
(** [`Unerwartetes Symbol "${char}"`]; 34 is the double quote. *)
Definition msg_symbol (char : Z) : jsstr := u "Unerwartetes Symbol " ++ [34; char; 34].
Definition msg_trailing : jsstr := u "Unerwartete Eingabe nach Formel".

Fixpoint parse (fuel : nat) (g : Goal) (s : jsstr) : Res :=
  match fuel with
  | O => RNoFuel
  | S k =>
      match g with
      (* parseIff *)
      | GIff => let! (lhs, s1) := parse k GImp s in parse k (GIffLoop lhs) s1
      | GIffLoop lhs =>
          let (m, s1) := match_ [c_iff] s in
          if m then let! (right, s2) := parse k GImp s1 in
                    parse k (GIffLoop (FBin KIff lhs right)) s2
          else ROk lhs s1
      (* parseImp *)
      | GImp => let! (lhs, s1) := parse k GOr s in parse k (GImpLoop lhs) s1
      | GImpLoop lhs =>
          let (m, s1) := match_ [c_imp] s in
          if m then let! (right, s2) := parse k GOr s1 in
                    parse k (GImpLoop (FBin KImp lhs right)) s2
          else ROk lhs s1
      (* parseOr *)
      | GOr => let! (lhs, s1) := parse k GAnd s in parse k (GOrLoop lhs) s1
      | GOrLoop lhs =>
          let (m, s1) := match_ [c_or] s in
          if m then let! (right, s2) := parse k GAnd s1 in
                    parse k (GOrLoop (FBin KOr lhs right)) s2
          else ROk lhs s1
      (* parseAnd *)
      | GAnd => let! (lhs, s1) := parse k GNot s in parse k (GAndLoop lhs) s1
      | GAndLoop lhs =>
          let (m, s1) := match_ [c_and] s in
          if m then let! (right, s2) := parse k GNot s1 in
                    parse k (GAndLoop (FBin KAnd lhs right)) s2
          else ROk lhs s1
      (* parseNot *)
      | GNot =>
          let (m, s1) := match_ [c_not] s in
          if m then let! (child, s2) := parse k GNot s1 in ROk (FNot child) s2
          else parse k GPrimary s1
      (* parsePrimary *)
      | GPrimary =>
          match trim_start s with
          | [] => RErr msg_incomplete
          | char :: t =>
              if char =? c_lpar then
                let! (expr, s2) := parse k GIff t in
                let (m, s3) := match_ [c_rpar] s2 in
                if m then ROk expr s3 else RErr msg_paren
              else if is_upper char then ROk (FVar [char]) t
              else RErr (msg_symbol char)
          end
      end
  end.

(** What [parseFormula] returns, or the [Error] it throws. *)
Inductive Result := Ok (node : FormulaNode) | Err (message : jsstr).

(** The recursion bound given to [parse]: eight levels per input code unit
    and one for each method of the chain [parseIff] .. [parsePrimary]. *)
Definition parse_fuel (input : jsstr) : nat := 8 * (List.length input + 1).

(** [new FormulaParser(input).parse()] *)
Definition FormulaParser_parse (input : jsstr) : Result :=
  match parse (parse_fuel input) GIff input with
  | ROk node s1 =>
      match trim_start s1 with
      | [] => Ok node
      | _ :: _ => Err msg_trailing
      end
  | RErr m => Err m
  | RNoFuel => Err []
  end.

(** [parseFormula] *)
Definition parseFormula (input : jsstr) : Result :=
  let normalized := Normalize.normalizeSymbols (trim input) in
  FormulaParser_parse normalized.

(** Weights of the goals, for the bound on the recursion depth. *)
Definition weight (g : Goal) : nat :=
  match g with
  | GIff => 6 | GImp => 5 | GOr => 4 | GAnd => 3 | GNot => 2 | GPrimary => 1
  | GIffLoop _ | GImpLoop _ | GOrLoop _ | GAndLoop _ => 1
  end.

Definition is_loop (g : Goal) : bool :=
  match g with
  | GIffLoop _ | GImpLoop _ | GOrLoop _ | GAndLoop _ => true
  | _ => false
  end.

(** A method that returns consumes input (a loop possibly none), and it never
    runs out of fuel. *)
Definition measure_ok (g : Goal) (s : jsstr) (r : Res) : Prop :=
  match r with
  | RNoFuel => False
  | ROk _ s' => (List.length s' + (if is_loop g then 0 else 1) <= List.length s)%nat
  | RErr _ => True
  end.

End Parser.

(* ------------------------------------------------------------------------- *)
(** * Vocabulary for printing then re-parsing formulas *)
(* ------------------------------------------------------------------------- *)

Module RoundTrip.
Import Logic Parser.

(** Every variable is one upper-case ASCII letter other than [U] (which the
    normaliser rewrites to [Ω]). *)
Fixpoint letter_vars (f : FormulaNode) : bool :=
  match f with
  | FVar [c] => is_upper c && negb (c =? 85)
  | FVar _ => false
  | FNot c => letter_vars c
  | FBin _ l r => letter_vars l && letter_vars r
  end.

(** The operands of a run of [∧] (resp. [∨]) printed without parentheses. *)
Fixpoint and_chunks (f : FormulaNode) : list FormulaNode :=
  match f with
  | FBin KAnd l r => and_chunks l ++ and_chunks r
  | _ => [f]
  end.

Fixpoint or_chunks (f : FormulaNode) : list FormulaNode :=
  match f with
  | FBin KOr l r => or_chunks l ++ or_chunks r
  | _ => [f]
  end.

Definition sep (op : Z) : jsstr := [c_space; op; c_space].

(** After white space, [s] does not start with one of [syms]. *)
Definition follow (syms : list Z) (s : jsstr) : bool :=
  match trim_start s with
  | c :: _ => negb (existsb (Z.eqb c) syms)
  | [] => true
  end.

(** The characters that make the normaliser act on their own. *)
Definition bad_char (c : Z) : bool :=
  (c =? 33) || (c =? 38) || (c =? 124) || (c =? 92) || (c =? 45) || (c =? 39)
  || (c =? 60) || (c =? 85).

(** No character of [bad_char] and no two adjacent ASCII letters. *)
Fixpoint quiet (s : jsstr) : bool :=
  match s with
  | [] => true
  | c :: t =>
      negb (bad_char c)
      && match t with d :: _ => negb (is_letter c && is_letter d) | [] => true end
      && quiet t
  end.

Definition two_letters (w : jsstr) : bool :=
  match w with a :: b :: _ => is_letter a && is_letter b | _ => false end.

Definition bad_head (w : jsstr) : bool :=
  match w with a :: _ => bad_char a | [] => false end.

(** A method's result, when it returns, has the semantics [sem] and leaves
    the same input as [rest] up to leading white space. *)
Definition Good (sem : Assignment -> bool) (rest : jsstr) (r : Res) : Prop :=
  match r with
  | RNoFuel => True
  | ROk t r' => (forall a, evaluateFormula t a = sem a) /\ trim_start r' = trim_start rest
  | RErr _ => False
  end.


(** What each method makes of a printed formula followed by [rest], for the
    parse bound [n]: [parseNot] reads a formula printed as an operand of [¬],
    the [∧]/[∨] loops read further operands, [parseAnd] a formula printed at
    the precedence of [∧], and [parseOr], [parseImp], [parseIff] one printed
    at the top, each provided [rest] does not continue the operator run. *)
Definition printed_ok (n : nat) : Prop :=
  (forall f rest, letter_vars f = true ->
     Good (evaluateFormula f) rest (parse n GNot (formatNode f 3 ++ rest))) /\
  (forall acc cs rest, forallb letter_vars cs = true -> follow [c_and] rest = true ->
     Good (fun a => evaluateFormula acc a && forallb (fun c => evaluateFormula c a) cs) rest
          (parse n (GAndLoop acc)
             (List.concat (map (fun c => sep c_and ++ formatNode c 3) cs) ++ rest))) /\
  (forall f rest, letter_vars f = true -> follow [c_and] rest = true ->
     Good (evaluateFormula f) rest (parse n GAnd (formatNode f 2 ++ rest))) /\
  (forall acc cs rest, forallb letter_vars cs = true -> follow [c_and; c_or] rest = true ->
     Good (fun a => evaluateFormula acc a || existsb (fun c => evaluateFormula c a) cs) rest
          (parse n (GOrLoop acc)
             (List.concat (map (fun c => sep c_or ++ formatNode c 2) cs) ++ rest))) /\
  (forall f rest, letter_vars f = true -> follow [c_and; c_or] rest = true ->
     Good (evaluateFormula f) rest (parse n GOr (formatNode f 1 ++ rest))) /\
  (forall f rest, letter_vars f = true -> follow [c_and; c_or; c_imp] rest = true ->
     Good (evaluateFormula f) rest (parse n GImp (formatNode f 1 ++ rest))) /\
  (forall f rest, letter_vars f = true -> follow [c_and; c_or; c_imp; c_iff] rest = true ->
     Good (evaluateFormula f) rest (parse n GIff (formatNode f 1 ++ rest))).

End RoundTrip.

(* ------------------------------------------------------------------------- *)
(** * Set expressions (src/set-logic.ts) *)
(* ------------------------------------------------------------------------- *)

Module SetLogic.

Inductive SetVarName := VA | VB | VC.

(** The character code of the one-letter name, which is what the default
    [Array.prototype.sort] compares. *)
Definition var_code (v : SetVarName) : Z :=
  match v with VA => 65 | VB => 66 | VC => 67 end.

Definition var_eqb (v w : SetVarName) : bool := Z.eqb (var_code v) (var_code w).

(** [SetNode]: the tagged union of the source, one constructor per [type]. *)
Inductive SetNode :=
| SVar (name : SetVarName)
| SConst (value : bool)
| SNot (child : SetNode)
| SUnion (lhs rhs : SetNode)
| SInter (lhs rhs : SetNode)
| SDiff (lhs rhs : SetNode)
| SSym (lhs rhs : SetNode).

(** [Record<'A' | 'B' | 'C', boolean>]; every assignment the code builds
    has all three keys, so [?? false] never fires. *)
Record SetAssignment := { asgA : bool; asgB : bool; asgC : bool }.

Definition get (a : SetAssignment) (v : SetVarName) : bool :=
  match v with VA => asgA a | VB => asgB a | VC => asgC a end.

Definition set (a : SetAssignment) (v : SetVarName) (b : bool) : SetAssignment :=
  match v with
  | VA => {| asgA := b; asgB := asgB a; asgC := asgC a |}
  | VB => {| asgA := asgA a; asgB := b; asgC := asgC a |}
  | VC => {| asgA := asgA a; asgB := asgB a; asgC := b |}
  end.

Fixpoint evalSetExpr (node : SetNode) (assignment : SetAssignment) : bool :=
  match node with
  | SVar name => get assignment name
  | SConst value => value
  | SNot child => negb (evalSetExpr child assignment)
  | SUnion l r => evalSetExpr l assignment || evalSetExpr r assignment
  | SInter l r => evalSetExpr l assignment && evalSetExpr r assignment
  | SDiff l r => evalSetExpr l assignment && negb (evalSetExpr r assignment)
  | SSym l r =>
      let l := evalSetExpr l assignment in
      let r := evalSetExpr r assignment in
      (l || r) && negb (l && r)
  end.

(** A JavaScript [Set] as the list of its elements in insertion order. *)
Definition set_add (v : SetVarName) (vars : list SetVarName) : list SetVarName :=
  if existsb (var_eqb v) vars then vars else vars ++ [v].

Fixpoint collectSetVars (node : SetNode) (vars : list SetVarName) : list SetVarName :=
  match node with
  | SVar name => set_add name vars
  | SConst _ => vars
  | SNot child => collectSetVars child vars
  | SUnion l r | SInter l r | SDiff l r | SSym l r =>
      collectSetVars r (collectSetVars l vars)
  end.

(** [new Set([...xs, ...ys])]. *)
Definition set_of_list (xs : list SetVarName) : list SetVarName :=
  fold_left (fun acc v => set_add v acc) xs [].

(** [Array.prototype.sort] with the default comparison: by code unit. *)
Fixpoint insert_sorted (v : SetVarName) (xs : list SetVarName) : list SetVarName :=
  match xs with
  | [] => [v]
  | w :: ws => if var_code v <=? var_code w then v :: w :: ws else w :: insert_sorted v ws
  end.

Definition sort (xs : list SetVarName) : list SetVarName :=
  fold_right insert_sorted [] xs.

(** JavaScript's [<<]: the shift count is taken mod 32 and the result is a
    signed 32-bit integer. *)
Definition to_int32 (z : Z) : Z :=
  let m := z mod 2 ^ 32 in if m >=? 2 ^ 31 then m - 2 ^ 32 else m.

Definition shl32 (x n : Z) : Z := to_int32 (Z.shiftl x (n mod 32)).

Record SetTruthRow := { row_assignment : SetAssignment; row_value : bool }.

Definition all_false : SetAssignment := {| asgA := false; asgB := false; asgC := false |}.

Definition row_assignment_of (used : list SetVarName) (i : Z) : SetAssignment :=
  let len := Z.of_nat (List.length used) in
  fst (fold_left
         (fun '(a, idx) v =>
            (set a v (negb (Z.eqb (Z.land i (shl32 1 (len - idx - 1))) 0)), idx + 1))
         used (all_false, 0)).

Definition truthTableSet (node : SetNode) (used : list SetVarName) : list SetTruthRow :=
  let total := Z.max 1 (shl32 1 (Z.of_nat (List.length used))) in
  map (fun i => let assignment := row_assignment_of used i in
                {| row_assignment := assignment; row_value := evalSetExpr node assignment |})
      (map Z.of_nat (seq 0 (Z.to_nat total))).

(** The variables of both sides, deduplicated and sorted. *)
Definition both_vars (left right : SetNode) : list SetVarName :=
  sort (set_of_list (collectSetVars left [] ++ collectSetVars right [])).

Definition areSetExprEquivalent (left right : SetNode) : bool :=
  let vars := both_vars left right in
  let rowsLeft := truthTableSet left vars in
  forallb (fun row => Bool.eqb (evalSetExpr right (row_assignment row)) (row_value row)) rowsLeft.

Definition isSubset (left right : SetNode) : bool :=
  let vars := both_vars left right in
  forallb (fun row => negb (row_value row) || evalSetExpr right (row_assignment row))
          (truthTableSet left vars).

Definition isDisjoint (left right : SetNode) : bool :=
  let vars := both_vars left right in
  forallb (fun row => negb (row_value row && evalSetExpr right (row_assignment row)))
          (truthTableSet left vars).

End SetLogic.


(* ------------------------------------------------------------------------- *)
(** * JavaScript numbers: IEEE binary64 *)
(* ------------------------------------------------------------------------- *)

Module JSNumber.

(** A JavaScript number is a binary64 value; [spec_float] with [prec = 53]
    and [emax = 1024] rounds every operation to nearest, ties to even. *)
Definition double := spec_float.
Definition prec : Z := 53.
Definition emax : Z := 1024.

Definition dadd : double -> double -> double := SFadd prec emax.
Definition dsub : double -> double -> double := SFsub prec emax.
Definition dmul : double -> double -> double := SFmul prec emax.
Definition ddiv : double -> double -> double := SFdiv prec emax.
Definition dsqrt : double -> double := SFsqrt prec emax.
Definition dneg : double -> double := SFopp.
(** [Math.abs] *)
Definition dabs : double -> double := SFabs.
(** [===] on numbers: NaN is unequal to everything, +0 equals -0. *)
Definition deqb : double -> double -> bool := SFeqb.
Definition dltb : double -> double -> bool := SFltb.

Definition NaN : double := S754_nan.
Definition Infinity : double := S754_infinity false.

Definition is_nan (x : double) : bool :=
  match x with S754_nan => true | _ => false end.

(** [Number.isFinite] on a number. *)
Definition is_finite (x : double) : bool :=
  match x with S754_zero _ | S754_finite _ _ _ => true | _ => false end.

(** The double nearest to [(-1)^sx * m * 2^e]. *)
Definition round_signed (sx : bool) (m e : Z) : double :=
  match m with
  | Zpos p => binary_round prec emax sx p e
  | _ => S754_zero sx
  end.

Definition of_Z (z : Z) : double := binary_normalize prec emax z 0 false.

(** ToBoolean of a number: false exactly for +0, -0 and NaN. *)
Definition truthy (x : double) : bool :=
  match x with S754_zero _ | S754_nan => false | _ => true end.

(** [x % y]: the remainder of the truncating division, which is exact and
    has the sign of [x]. *)
Definition dmod (x y : double) : double :=
  match x, y with
  | S754_nan, _ | _, S754_nan => S754_nan
  | S754_infinity _, _ => S754_nan
  | _, S754_zero _ => S754_nan
  | _, S754_infinity _ => x
  | S754_zero _, _ => x
  | S754_finite sx mx ex, S754_finite _ my ey =>
      let e := Z.min ex ey in
      let r := Z.modulo (Z.shiftl (Zpos mx) (ex - e)) (Z.shiftl (Zpos my) (ey - e)) in
      round_signed sx r e
  end.

(** The double nearest to [(-1)^sx * m * 10^e] for [m >= 0]. Beyond the
    two bounds the value is above the largest double or below half the
    smallest one. *)
Definition decimal_to_double (sx : bool) (m e : Z) : double :=
  if m =? 0 then S754_zero sx
  else if 309 <? e then S754_infinity sx
  else if e + Z.log2 m + 340 <? 0 then S754_zero sx
  else if 0 <=? e then round_signed sx (m * 10 ^ e) 0
  else
    let '(q, e', l) := SFdiv_core_binary prec emax m 0 (10 ^ (- e)) 0 in
    binary_round_aux prec emax sx q e' l.

(** ** [Number(string)]: StringToNumber *)

Fixpoint span_digits (s : jsstr) : list Z * jsstr :=
  match s with
  | c :: t => if is_digit c then let '(ds, r) := span_digits t in (c :: ds, r) else ([], s)
  | [] => ([], [])
  end.

Definition digits_value (ds : list Z) : Z := fold_left (fun acc c => acc * 10 + (c - 48)) ds 0.

Definition hex_value (c : Z) : option Z :=
  if is_digit c then Some (c - 48)
  else if (97 <=? c) && (c <=? 102) then Some (c - 87)
  else if (65 <=? c) && (c <=? 70) then Some (c - 55)
  else None.

Fixpoint radix_value (radix acc : Z) (s : jsstr) : option Z :=
  match s with
  | [] => Some acc
  | c :: t =>
      match hex_value c with
      | Some d => if d <? radix then radix_value radix (acc * radix + d) t else None
      | None => None
      end
  end.

(** NonDecimalIntegerLiteral: [0x..], [0o..], [0b..] (no sign). *)
Definition non_decimal (s : jsstr) : option Z :=
  match s with
  | 48 :: k :: ((_ :: _) as ds) =>
      if (k =? 120) || (k =? 88) then radix_value 16 0 ds
      else if (k =? 111) || (k =? 79) then radix_value 8 0 ds
      else if (k =? 98) || (k =? 66) then radix_value 2 0 ds
      else None
  | _ => None
  end.

Inductive DecValue := DInfinity | DFinite (m e : Z).

(** ExponentPart, or nothing: the exponent it denotes. *)
Definition exponent_part (s : jsstr) : option Z :=
  match s with
  | [] => Some 0
  | c :: t =>
      if (c =? 101) || (c =? 69) then
        let '(sg, t') := match t with
                         | 43 :: r => (1, r)
                         | 45 :: r => (-1, r)
                         | _ => (1, t)
                         end in
        match span_digits t' with
        | ((_ :: _) as ds, []) => Some (sg * digits_value ds)
        | _ => None
        end
      else None
  end.

(** StrUnsignedDecimalLiteral *)
Definition unsigned_decimal (s : jsstr) : option DecValue :=
  if list_eqb s (u "Infinity") then Some DInfinity
  else
    let '(int, r1) := span_digits s in
    let '(frac, dot, r2) :=
      match r1 with
      | 46 :: r => let '(f, r') := span_digits r in (f, true, r')
      | _ => ([], false, r1)
      end in
    match int, frac with
    | [], [] => None
    | _, _ =>
        match exponent_part r2 with
        | Some ex => Some (DFinite (digits_value (int ++ frac)) (ex - Z.of_nat (List.length frac)))
        | None => None
        end
    end.

Definition StringToNumber (input : jsstr) : double :=
  let t := trim input in
  match t with
  | [] => S754_zero false
  | _ =>
      match non_decimal t with
      | Some z => of_Z z
      | None =>
          let '(sx, body) := match t with
                             | 43 :: r => (false, r)
                             | 45 :: r => (true, r)
                             | _ => (false, t)
                             end in
          match unsigned_decimal body with
          | Some DInfinity => S754_infinity sx
          | Some (DFinite m e) => decimal_to_double sx m e
          | None => NaN
          end
      end
  end.

(** The literal [m e e] of the source, e.g. [lit 1 (-9)] is [1e-9]. *)
Definition lit (m e : Z) : double := decimal_to_double (m <? 0) (Z.abs m) e.

(** ** [Number::toString(x)] in radix 10 *)

(** The decimal digits of [z >= 0]; the fuel covers every number below
    10^400, beyond all digit strings and exponents of a double. *)
Fixpoint z_digits_aux (fuel : nat) (z : Z) (acc : jsstr) : jsstr :=
  match fuel with
  | O => acc
  | S f => if z <? 10 then (48 + z) :: acc
           else z_digits_aux f (z / 10) ((48 + z mod 10) :: acc)
  end.

Definition z_digits (z : Z) : jsstr := z_digits_aux 400 z [].

(** The smallest [i >= i0] with [b <= a * 10^i]. *)
Fixpoint find_scale (fuel : nat) (a b i : Z) : Z :=
  match fuel with
  | O => i
  | S f => if b <=? a * 10 ^ i then i else find_scale f a b (i + 1)
  end.

(** [floor(log10(a / b))] for [a, b > 0]. *)
Definition floor_log10 (a b : Z) : Z :=
  if b <=? a then Z.of_nat (List.length (z_digits (a / b))) - 1
  else - find_scale 400 a b 1.

(** The floor and the ceiling of [a / (b * 10^t)]. *)
Definition scaled_floor_ceil (a b t : Z) : Z * Z :=
  let '(p, q) := if 0 <=? t then (a, b * 10 ^ t) else (a * 10 ^ (- t), b) in
  (p / q, if p mod q =? 0 then p / q else p / q + 1).

(** [|s * 10^t - a / b|] as a numerator and a positive denominator. *)
Definition scaled_dist (a b s t : Z) : Z * Z :=
  if 0 <=? t then (Z.abs (s * 10 ^ t * b - a), b)
  else (Z.abs (s * b - a * 10 ^ (- t)), b * 10 ^ (- t)).

(** Candidate [(s, t)] is closer to [a / b] than [(s', t')], an even [s]
    winning a tie. *)
Definition closer (a b : Z) (c c' : Z * Z) : bool :=
  let '(d, q) := scaled_dist a b (fst c) (snd c) in
  let '(d', q') := scaled_dist a b (fst c') (snd c') in
  (d * q' <? d' * q) || ((d * q' =? d' * q) && Z.even (fst c) && negb (Z.even (fst c'))).

(** For [x = m * 2^e > 0] and [k] digits: the pairs [(s, n - k)] with
    [10^(k-1) <= s < 10^k] and [s * 10^(n-k)] rounding to [x]. Only the two
    integers around [x / 10^(n-k)] can round to [x] and be closest to it,
    and [n] is one of [floor(log10 x) + 1] and the next power. *)
Definition candidates (m e k : Z) : list (Z * Z) :=
  let x := round_signed false m e in
  let '(a, b) := if 0 <=? e then (m * 2 ^ e, 1) else (m, 2 ^ (- e)) in
  let j := floor_log10 a b in
  filter (fun c => (10 ^ (k - 1) <=? fst c) && (fst c <? 10 ^ k)
                   && SFeqb (decimal_to_double false (fst c) (snd c)) x)
    (flat_map (fun n => let t := n - k in
                        let '(f, cl) := scaled_floor_ceil a b t in [(f, t); (cl, t)])
              [j; j + 1; j + 2]).

Definition closest (a b : Z) (cs : list (Z * Z)) : option (Z * Z) :=
  fold_left (fun best c => match best with
                           | None => Some c
                           | Some c' => if closer a b c c' then Some c else best
                           end) cs None.

(** Step 5 of Number::toString: the least [k], then the [s] whose
    [s * 10^(n-k)] is closest to [x] (the choice the specification
    recommends and the engines make); [k <= 17] always succeeds. *)
Fixpoint shortest_from (m e : Z) (ks : list Z) : option (Z * Z * Z) :=
  match ks with
  | [] => None
  | k :: ks' =>
      let '(a, b) := if 0 <=? e then (m * 2 ^ e, 1) else (m, 2 ^ (- e)) in
      match closest a b (candidates m e k) with
      | Some (s, t) => Some (k, t + k, s)
      | None => shortest_from m e ks'
      end
  end.

(** Steps 6 to 10: the layout of the digits [ds] of [s]. *)
Definition layout (k n : Z) (ds : jsstr) : jsstr :=
  if (k <=? n) && (n <=? 21) then ds ++ repeat 48 (Z.to_nat (n - k))
  else if (0 <? n) && (n <=? 21) then firstn (Z.to_nat n) ds ++ [46] ++ skipn (Z.to_nat n) ds
  else if (-6 <? n) && (n <=? 0) then [48; 46] ++ repeat 48 (Z.to_nat (- n)) ++ ds
  else
    let es := (if n - 1 <? 0 then 45 else 43) :: z_digits (Z.abs (n - 1)) in
    match ds with
    | [d] => [d; 101] ++ es
    | d :: rest => [d; 46] ++ rest ++ [101] ++ es
    | [] => es
    end.

Definition NumberToString (x : double) : jsstr :=
  match x with
  | S754_nan => u "NaN"
  | S754_zero _ => u "0"
  | S754_infinity false => u "Infinity"
  | S754_infinity true => u "-Infinity"
  | S754_finite sx m e =>
      (if sx then [45] else [])
      ++ match shortest_from (Zpos m) e (map Z.of_nat (seq 1 17)) with
         | Some (k, n, s) => layout k n (z_digits s)
         | None => []
         end
  end.

End JSNumber.

(* ------------------------------------------------------------------------- *)
(** * The exact trigonometry core (src/trig/trig-core.ts) *)
(* ------------------------------------------------------------------------- *)

Module TrigCore.
Import JSNumber.

(** What a call does: returns a value, throws an [Error] with a message, or
    loops. [Hang] is the outcome of a [while] loop that has not stopped
    within its fuel. *)
Inductive Outcome (A : Type) := Ret (a : A) | Throw (message : jsstr) | Hang.
Arguments Ret {A} a.
Arguments Throw {A} message.
Arguments Hang {A}.

Definition obind {A B} (m : Outcome A) (k : A -> Outcome B) : Outcome B :=
  match m with Ret a => k a | Throw msg => Throw msg | Hang => Hang end.

Notation "'let+' x ':=' m 'in' b" := (obind m (fun x => b))
  (at level 200, x name, m at level 100, b at level 200).

(** The number operations [normRational] and [normalizeAngle] use. The
    functions are written once over this interface and read at two number
    types: binary64 ([double], the JavaScript semantics) and Z (the integer
    inputs, on which every operation below is exact as long as the values
    stay below 2^53). [gcd_fuel a b] bounds the rounds of the Euclidean loop
    of [gcd a b]. *)
Class JSNum (T : Type) := {
  js_of_Z : Z -> T;
  js_add : T -> T -> T;
  js_mul : T -> T -> T;
  js_div : T -> T -> T;
  js_mod : T -> T -> T;
  js_abs : T -> T;
  js_eqb : T -> T -> bool;
  js_ltb : T -> T -> bool;
  js_truthy : T -> bool;
  gcd_fuel : T -> T -> nat
}.

(** A finite double is an integer multiple of 2^-1074 below 2^1024, so the
    Euclidean loop on finite doubles stops after at most about 3100 rounds
    (Lamé); 5000 rounds are given. *)
#[export] Instance JSNum_double : JSNum double := {
  js_of_Z := of_Z;
  js_add := dadd;
  js_mul := dmul;
  js_div := ddiv;
  js_mod := dmod;
  js_abs := dabs;
  js_eqb := deqb;
  js_ltb := dltb;
  js_truthy := truthy;
  gcd_fuel := fun _ _ => 5000%nat
}.

(** On integers [/] is only applied to exact quotients, [%] is the
    truncating remainder, and the loop makes at most |b| + 1 rounds. *)
#[export] Instance JSNum_Z : JSNum Z := {
  js_of_Z := fun z => z;
  js_add := Z.add;
  js_mul := Z.mul;
  js_div := Z.div;
  js_mod := Z.rem;
  js_abs := Z.abs;
  js_eqb := Z.eqb;
  js_ltb := Z.ltb;
  js_truthy := fun z => negb (z =? 0);
  gcd_fuel := fun _ b => S (Z.to_nat (Z.abs b))
}.

Section Generic.
Context {T : Type} `{JSNum T}.

Record Rational := mkRational { rat_n : T; rat_d : T }.

Inductive Angle := Deg (value : T) | Rad (p q : T).

(** [while (y !== 0) { const t = y; y = x % y; x = t; } return x || 1;] *)
Fixpoint gcd_loop (fuel : nat) (x y : T) : Outcome T :=
  match fuel with
  | O => Hang
  | S k =>
      if negb (js_eqb y (js_of_Z 0)) then gcd_loop k y (js_mod x y)
      else Ret (if js_truthy x then x else js_of_Z 1)
  end.

Definition gcd (a b : T) : Outcome T := gcd_loop (gcd_fuel a b) (js_abs a) (js_abs b).

Definition normRational (r : Rational) : Outcome Rational :=
  if js_eqb (rat_d r) (js_of_Z 0) then Throw (u "Denominator 0")
  else
    let sign := if js_ltb (rat_d r) (js_of_Z 0) then js_of_Z (-1) else js_of_Z 1 in
    let n := js_mul (rat_n r) sign in
    let d := js_abs (rat_d r) in
    let+ g := gcd n d in
    Ret {| rat_n := js_div n g; rat_d := js_div d g |}.

Definition normalizeAngle (ang : Angle) : Outcome Angle :=
  match ang with
  | Deg value =>
      let val := js_mod value (js_of_Z 360) in
      let val := if js_ltb val (js_of_Z 0) then js_add val (js_of_Z 360) else val in
      Ret (Deg val)
  | Rad p q =>
      let twoPi := js_of_Z 2 in
      let+ frac := normRational {| rat_n := p; rat_d := q |} in
      let n := js_mod (rat_n frac) (js_mul (rat_d frac) twoPi) in
      let n := if js_ltb n (js_of_Z 0) then js_add n (js_mul (rat_d frac) twoPi) else n in
      Ret (Rad n (rat_d frac))
  end.

End Generic.

Arguments Rational T : clear implicits.
Arguments Angle T : clear implicits.

(** [ExactValue]; [sign] is 1 or -1 and the [n] of [sqrt] is 2 or 3. *)
Inductive ExactValue :=
| EZero
| EOne (sign : Z)
| EHalf (sign : Z)
| ESqrt (n : Z) (sign : Z) (overTwo : bool)
| ERational (r : Rational double)
| EUndef.

Definition tanFromExact (sin cos : ExactValue) : ExactValue :=
  match cos with
  | EZero => EUndef
  | _ =>
      match sin with
      | EZero => EZero
      | _ =>
          match sin, cos with
          | EHalf s, EHalf _ => EOne s
          | ESqrt n s true, EHalf _ => ESqrt n s false
          | EHalf s, ESqrt n _ true => ESqrt n (if s =? 1 then 1 else -1) false
          | _, _ => EUndef
          end
      end
  end.

(** [Math.SQRT1_2] and [Math.sqrt(3)], correctly rounded. *)
Definition SQRT1_2 : double := dsqrt (lit 5 (-1)).
Definition SQRT3 : double := dsqrt (of_Z 3).

Definition near (x y : double) : bool := dltb (dabs (dsub x y)) (lit 1 (-9)).

Definition valueForSpecial (baseVal : double) (sign : Z) : Outcome ExactValue :=
  if dltb (dabs baseVal) (lit 1 (-9)) then Ret EZero
  else if near baseVal (of_Z 1) then Ret (EOne sign)
  else if near baseVal (lit 5 (-1)) then Ret (EHalf sign)
  else if near baseVal SQRT1_2 then Ret (ESqrt 2 sign true)
  else if near baseVal (ddiv SQRT3 (of_Z 2)) then Ret (ESqrt 3 sign true)
  else if near baseVal (ddiv SQRT3 (of_Z 3)) then Ret (ESqrt 3 sign false)
  else
    let+ r := normRational {| rat_n := dmul (of_Z sign) baseVal; rat_d := of_Z 1 |} in
    Ret (ERational r).

(** ** Parsing *)

(** [s.split(c)] for a one-unit separator [c]. *)
Fixpoint split_on (c : Z) (s : jsstr) : list jsstr :=
  match s with
  | [] => [[]]
  | x :: t =>
      if x =? c then [] :: split_on c t
      else match split_on c t with
           | p :: ps => (x :: p) :: ps
           | [] => [[x]]
           end
  end.

(** [s.replace(c, '')] for a one-unit string [c]: drops the first [c]. *)
Fixpoint replace_first (c : Z) (s : jsstr) : jsstr :=
  match s with
  | [] => []
  | x :: t => if x =? c then t else x :: replace_first c t
  end.

Definition ends_with (c : Z) (s : jsstr) : bool :=
  match rev s with x :: _ => x =? c | [] => false end.

Definition c_degree : Z := 176.
Definition c_pi : Z := 960.

(** [piParts[0]] and [piParts[1]] are [lhs] and [rhs] ([left] names a
    constructor of [sumbool]). *)
Definition parseAngle (input : jsstr) : Outcome (option (Angle double)) :=
  let trimmed := trim input in
  match trimmed with
  | [] => Ret None
  | _ =>
      if ends_with c_degree trimmed then
        let val := StringToNumber (replace_first c_degree trimmed) in
        if negb (is_finite val) then Ret None else Ret (Some (Deg val))
      else if list_eqb trimmed [c_pi] then Ret (Some (Rad (of_Z 1) (of_Z 1)))
      else
        match split_on c_pi trimmed with
        | [lhs; rhs] =>
            let factor := match lhs with
                          | [] => of_Z 1
                          | _ => if list_eqb lhs [43] then of_Z 1 else StringToNumber lhs
                          end in
            if is_nan factor then Ret None
            else
              let q := match rhs with
                       | 47 :: r => StringToNumber r
                       | _ => of_Z 1
                       end in
              if negb (is_finite q) || deqb q (of_Z 0) then Ret None
              else
                let+ frac := normRational {| rat_n := factor; rat_d := q |} in
                Ret (Some (Rad (rat_n frac) (rat_d frac)))
        | _ =>
            let num := StringToNumber trimmed in
            if is_finite num then Ret (Some (Rad num (of_Z 1))) else Ret None
        end
  end.

(** The letter [c] of the pattern, matched case-insensitively. *)
Definition ci (c : Z) (x : Z) : bool := (x =? c) || (x =? c - 32).

(** [t.match(/^(-?)sqrt\((\d+)\)(\/2)?$/i)]: the sign group, the digits and
    whether [/2] is present. *)
Definition match_sqrt (t : jsstr) : option (bool * jsstr * bool) :=
  let '(neg, r) := match t with 45 :: r => (true, r) | _ => (false, t) end in
  match r with
  | s :: q :: r' :: t' :: 40 :: rest =>
      if ci 115 s && ci 113 q && ci 114 r' && ci 116 t' then
        match span_digits rest with
        | ((_ :: _) as ds, [41]) => Some (neg, ds, false)
        | ((_ :: _) as ds, [41; 47; 50]) => Some (neg, ds, true)
        | _ => None
        end
      else None
  | _ => None
  end.

Definition parseExactValue (input : jsstr) : Outcome (option ExactValue) :=
  let t := filter (fun c => negb (is_ws c)) (trim input) in
  match t with
  | [] => Ret None
  | _ =>
      if list_eqb t (u "0") then Ret (Some EZero)
      else if list_eqb t (u "1") then Ret (Some (EOne 1))
      else if list_eqb t (u "-1") then Ret (Some (EOne (-1)))
      else if list_eqb t (u "1/2") then Ret (Some (EHalf 1))
      else if list_eqb t (u "-1/2") then Ret (Some (EHalf (-1)))
      else if list_eqb t (u "undef") then Ret (Some EUndef)
      else
        match match_sqrt t with
        | Some (neg, ds, overTwo) =>
            let sign := if neg then -1 else 1 in
            let n := StringToNumber ds in
            if negb (deqb n (of_Z 2)) && negb (deqb n (of_Z 3)) then Ret None
            else Ret (Some (ESqrt (if deqb n (of_Z 2) then 2 else 3) sign overTwo))
        | None =>
            if existsb (Z.eqb 47) t then
              match split_on 47 t with
              | a :: b :: _ =>
                  let n := StringToNumber a in
                  let d := StringToNumber b in
                  if negb (is_finite n) || negb (is_finite d) || deqb d (of_Z 0) then Ret None
                  else let+ r := normRational {| rat_n := n; rat_d := d |} in
                       Ret (Some (ERational r))
              | _ => Ret None
              end
            else
              let num := StringToNumber t in
              if negb (is_nan num) then
                let+ r := normRational {| rat_n := num; rat_d := of_Z 1 |} in
                Ret (Some (ERational r))
              else Ret None
        end
  end.

(** [formatExact]; a template literal [`${x}`] is [Number::toString]. *)
Definition sign_prefix (sign : Z) : jsstr := if sign =? -1 then u "-" else [].

Definition formatExact (val : ExactValue) : Outcome jsstr :=
  match val with
  | EZero => Ret (u "0")
  | EOne sign => Ret (if sign =? -1 then u "-1" else u "1")
  | EHalf sign => Ret (if sign =? -1 then u "-1/2" else u "1/2")
  | ESqrt n sign overTwo =>
      if overTwo then Ret (sign_prefix sign ++ u "sqrt(" ++ NumberToString (of_Z n) ++ u ")/2")
      else Ret (sign_prefix sign ++ u "sqrt(" ++ NumberToString (of_Z n) ++ u ")")
  | ERational r =>
      let+ r := normRational r in
      if deqb (rat_d r) (of_Z 1) then Ret (NumberToString (rat_n r))
      else Ret (NumberToString (rat_n r) ++ u "/" ++ NumberToString (rat_d r))
  | EUndef => Ret (u "undef")
  end.

(** ** The special angles and [sinCosTanExact] *)

(** [Math.PI] *)
Definition Math_PI : double := lit 3141592653589793 (-15).

(** [Math.floor] *)
Definition dfloor (x : double) : double :=
  match x with
  | S754_finite sx m e =>
      if 0 <=? e then x
      else let z := (if sx then - Zpos m else Zpos m) / 2 ^ (- e) in
           if z =? 0 then S754_zero sx else of_Z z
  | _ => x
  end.

(** [Math.round]: the nearest integer, a tie going up; -0.5 <= x < 0 gives
    -0. *)
Definition dround (x : double) : double :=
  match x with
  | S754_finite sx m e =>
      if 0 <=? e then x
      else let z := (2 * (if sx then - Zpos m else Zpos m) + 2 ^ (- e)) / 2 ^ (1 - e) in
           if z =? 0 then S754_zero sx else of_Z z
  | _ => x
  end.

Definition specials : list double :=
  [ddiv (of_Z 1) (of_Z 6); ddiv (of_Z 1) (of_Z 4); ddiv (of_Z 1) (of_Z 3);
   ddiv (of_Z 1) (of_Z 2); of_Z 1].

Fixpoint first_special (value : double) (l : list double) : option (double * double) :=
  match l with
  | [] => None
  | s :: rest =>
      let ratio := ddiv value s in
      if dltb (dabs (dsub ratio (dround ratio))) (lit 1 (-9)) then Some (s, dround ratio)
      else first_special value rest
  end.

(** [isSpecialMultiple(p, q)]: [{base, m}] or [null]. *)
Definition isSpecialMultiple (p q : double) : option (double * double) :=
  first_special (ddiv p q) specials.

(** [Math.sin], [Math.cos] and [Math.tan] are implementation-approximated:
    they are parameters of the engine. *)
Section Engine.
Variables Math_sin Math_cos Math_tan : double -> double.

(** [exactSinCos]; a [deg] result of [normalizeAngle] (it never gives one
    for a [rad]) has no [p], so [p / q] would be NaN and the result [null]. *)
Definition exactSinCos (ang : Angle double) : Outcome (option (ExactValue * ExactValue)) :=
  let rad := match ang with Rad _ _ => ang | Deg value => Rad value (of_Z 180) end in
  let+ norm := normalizeAngle rad in
  match norm with
  | Deg _ => Ret None
  | Rad p q =>
      match isSpecialMultiple p q with
      | None => Ret None
      | Some (base, m) =>
          let stepsPerTurn := dround (ddiv (of_Z 2) base) in
          let modStep := dmod (dadd (dmod m stepsPerTurn) stepsPerTurn) stepsPerTurn in
          let angle := dmul (dmul modStep base) Math_PI in
          let quadrant :=
            dmod (dfloor (ddiv (dadd angle (lit 1 (-12))) (ddiv Math_PI (of_Z 2)))) (of_Z 4) in
          let sinSign := if deqb quadrant (of_Z 2) || deqb quadrant (of_Z 3) then -1 else 1 in
          let cosSign := if deqb quadrant (of_Z 1) || deqb quadrant (of_Z 2) then -1 else 1 in
          let baseAngle := dmul (dmul modStep base) Math_PI in
          let baseSin := Math_sin baseAngle in
          let baseCos := Math_cos baseAngle in
          let+ sinVal := valueForSpecial (dabs baseSin) sinSign in
          let+ cosVal := valueForSpecial (dabs baseCos) cosSign in
          if deqb base (of_Z 1) && deqb (dmod modStep (of_Z 2)) (of_Z 0) then
            Ret (Some (EZero, EOne (if deqb (dmod modStep (of_Z 4)) (of_Z 0) then 1 else -1)))
          else if deqb base (ddiv (of_Z 1) (of_Z 2))
                  && (deqb modStep (of_Z 1) || deqb modStep (of_Z 3)) then
            Ret (Some (EOne (if deqb modStep (of_Z 1) then 1 else -1), EZero))
          else Ret (Some (sinVal, cosVal))
      end
  end.

Definition sinCosTanExact (ang : Angle double) : Outcome (ExactValue * ExactValue * ExactValue) :=
  let+ special := exactSinCos ang in
  match special with
  | Some (sin, cos) => Ret (sin, cos, tanFromExact sin cos)
  | None =>
      let radVal := match ang with
                    | Rad p q => dmul (ddiv p q) Math_PI
                    | Deg value => ddiv (dmul value Math_PI) (of_Z 180)
                    end in
      let s := Math_sin radVal in
      let c := Math_cos radVal in
      let t := Math_tan radVal in
      let approx (v : double) := ERational {| rat_n := v; rat_d := of_Z 1 |} in
      let tanVal := if dltb (dabs c) (lit 1 (-9)) then EUndef else approx t in
      Ret (approx s, approx c, tanVal)
  end.

End Engine.

End TrigCore.

(* ------------------------------------------------------------------------- *)
(** * Rational answers of the task engine (src/set-logic.ts) *)
(* ------------------------------------------------------------------------- *)

Module SetRational.
Import JSNumber TrigCore.

(** [normalizeRational]; its [gcd] is the same loop as trig-core's. *)
Definition normalizeRational (value : Rational double) : Outcome (Rational double) :=
  if deqb (rat_d value) (of_Z 0) then Throw (u "Nenner darf nicht 0 sein.")
  else
    let sign := if dltb (rat_d value) (of_Z 0) then of_Z (-1) else of_Z 1 in
    let n := dmul (rat_n value) sign in
    let d := dabs (rat_d value) in
    let+ g := gcd n d in
    Ret {| rat_n := ddiv n g; rat_d := ddiv d g |}.

Fixpoint span_ws (s : jsstr) : list Z * jsstr :=
  match s with
  | c :: t => if is_ws c then let '(w, r) := span_ws t in (c :: w, r) else ([], s)
  | [] => ([], [])
  end.

(** [trimmed.match(/^(-?\d+)\s+(\d+)\/(\d+)$/)]: the three groups. *)
Definition match_mixed (t : jsstr) : option (jsstr * jsstr * jsstr) :=
  let '(sg, r) := match t with 45 :: r => ([45], r) | _ => ([], t) end in
  match span_digits r with
  | ((_ :: _) as w, r1) =>
      match span_ws r1 with
      | (_ :: _, r2) =>
          match span_digits r2 with
          | ((_ :: _) as nm, 47 :: r3) =>
              match span_digits r3 with
              | ((_ :: _) as dn, []) => Some (sg ++ w, nm, dn)
              | _ => None
              end
          | _ => None
          end
      | _ => None
      end
  | _ => None
  end.

Definition parseRational (input : jsstr) : Outcome (option (Rational double)) :=
  let trimmed := trim input in
  match trimmed with
  | [] => Ret None
  | _ =>
      match match_mixed trimmed with
      | Some (g1, g2, g3) =>
          let whole := StringToNumber g1 in
          let num := StringToNumber g2 in
          let den := StringToNumber g3 in
          if negb (is_finite whole) || negb (is_finite num) || negb (is_finite den)
             || deqb den (of_Z 0) then Ret None
          else
            let sign := if dltb whole (of_Z 0) then of_Z (-1) else of_Z 1 in
            let+ improper := normalizeRational
              {| rat_n := dmul sign (dadd (dmul (dabs whole) den) num); rat_d := den |} in
            Ret (Some improper)
      | None =>
          if existsb (Z.eqb 47) trimmed then
            match map trim (split_on 47 trimmed) with
            | a :: b :: _ =>
                let n := StringToNumber a in
                let d := StringToNumber b in
                if negb (is_finite n) || negb (is_finite d) || deqb d (of_Z 0) then Ret None
                else let+ r := normalizeRational {| rat_n := n; rat_d := d |} in Ret (Some r)
            | _ => Ret None
            end
          else
            let num := StringToNumber trimmed in
            if negb (is_finite num) then Ret None
            else let+ r := normalizeRational {| rat_n := num; rat_d := of_Z 1 |} in Ret (Some r)
      end
  end.

End SetRational.

(* ------------------------------------------------------------------------- *)
(** * The fallacy-rule generator (src/trig/trig-fallacies.ts) *)
(* ------------------------------------------------------------------------- *)

Module Fallacies.
Import JSNumber.

Inductive FallacyLabel := Always | Sometimes | False_.

Record FallacyRule := {
  statement : jsstr;
  label : FallacyLabel;
  explanation : jsstr;
  condition : option jsstr
}.

Inductive FallacyOption := OptionA | OptionB | OptionC.

(** [option] is written [option_]: [option] is the type of optional values. *)
Record FallacyTask := { rule : FallacyRule; feedback : jsstr; option_ : FallacyOption }.

Inductive Difficulty := Easy | Medium | Hard.

(** [AngleSample]: [{ value, label }]. *)
Record AngleSample := { sample_value : double; sample_label : jsstr }.

(** The functions of the JavaScript engine the generator calls whose results
    ECMAScript leaves to the implementation ([Math.sin], [Math.cos],
    [Math.tan], [Math.sqrt], [**]) and [Number.prototype.toFixed(3)]. They
    are functions: the same argument gives the same number. *)
Record Runtime := {
  Math_sin : double -> double;
  Math_cos : double -> double;
  Math_tan : double -> double;
  Math_sqrt : double -> double;
  pow : double -> double -> double;
  toFixed3 : double -> jsstr
}.

(** [Math.PI] *)
Definition PI : double := StringToNumber (u "3.141592653589793").

(** ** The store of closure cells

    [rngLCG(seed)] returns a closure over a fresh [let s]: a new cell of the
    store, holding a 32-bit integer. A computation reads and writes the
    store and either returns a value or throws (a [TypeError] on reading a
    property of [undefined]). *)
Definition store := list Z.
Definition M (A : Type) := store -> option A * store.

Definition ret {A} (a : A) : M A := fun h => (Some a, h).
Definition throw {A} : M A := fun h => (None, h).
Definition bind {A B} (m : M A) (k : A -> M B) : M B :=
  fun h => match m h with (Some a, h') => k a h' | (None, h') => (None, h') end.

Notation "'let*' x ':=' m 'in' b" := (bind m (fun x => b))
  (at level 200, x name, m at level 100, b at level 200).

Fixpoint upd (h : store) (l : nat) (z : Z) : store :=
  match h, l with
  | [], _ => []
  | _ :: t, O => z :: t
  | y :: t, S l' => y :: upd t l' z
  end.

(** [rngLCG(seed)]: [let s = seed >>> 0] is a new cell; the closure is its
    address. *)
Definition rngLCG (seed : Z) : M nat :=
  fun h => (Some (List.length h), h ++ [seed mod 2 ^ 32]).

(** One call of the closure: [s = (1664525 * s + 1013904223) % 2 ** 32;
    return s / 2 ** 32]. The products stay below 2^53, so the double
    arithmetic is exact; the returned number [s / 2^32] is kept as [s]. *)
Definition rng (l : nat) : M Z :=
  fun h => match nth_error h l with
           | Some s => let s' := (1664525 * s + 1013904223) mod 2 ^ 32 in (Some s', upd h l s')
           | None => (None, h)
           end.

(** [arr[Math.floor(rng() * arr.length)]]: [s / 2^32 * length] is exact, so
    the index is [s * length / 2^32] rounded down; [None] is [undefined]. *)
Definition randomChoice {A} (arr : list A) (l : nat) : M (option A) :=
  let* s := rng l in
  ret (nth_error arr (Z.to_nat (s * Z.of_nat (List.length arr) / 2 ^ 32))).

(** Reading a property of the chosen element. *)
Definition get {A} (x : option A) : M A :=
  match x with Some a => ret a | None => throw end.

Definition ruleBank : list FallacyRule := [
  {| statement := u "sin(a+b)=sin a cos b + cos a sin b"; label := Always;
     explanation := u "Additionstheorem Sinus."; condition := None |};
  {| statement := u "sin(a+b)=sin a + sin b"; label := False_;
     explanation := u "Fehlt Kreuzterm; nur für Spezialfälle."; condition := None |};
  {| statement := u "cos(a+b)=cos a cos b − sin a sin b"; label := Always;
     explanation := u "Additionstheorem Cosinus."; condition := None |};
  {| statement := u "cos(a+b)=cos a + cos b"; label := False_;
     explanation := u "Fehlt Kreuzterm; stimmt nur selten."; condition := None |};
  {| statement := u "tan(a+b)=(tan a + tan b)/(1 − tan a tan b)"; label := Sometimes;
     explanation := u "Additionstheorem Tangens."; condition := Some (u "Definiert nur wenn tan a tan b ≠ 1 und cos a, cos b ≠ 0.") |};
  {| statement := u "tan(a+b)=tan a + tan b"; label := False_;
     explanation := u "Additionstheorem falsch vereinfacht."; condition := None |};
  {| statement := u "sin^2 x + cos^2 x = 1"; label := Always;
     explanation := u "Pythagoras auf dem Einheitskreis."; condition := None |};
  {| statement := u "cos^2 x = 1 − sin x"; label := False_;
     explanation := u "Richtig wäre 1 − sin^2 x."; condition := None |};
  {| statement := u "cos^2 x = 1 − sin^2 x"; label := Always;
     explanation := u "Umformung von sin²+cos²=1."; condition := None |};
  {| statement := u "1 + tan^2 x = 1/cos^2 x"; label := Sometimes;
     explanation := u "Pythagoras geteilt durch cos²."; condition := Some (u "Nur wenn cos x ≠ 0.") |};
  {| statement := u "sin(-x) = -sin x"; label := Always;
     explanation := u "Sinus ist ungerade."; condition := None |};
  {| statement := u "cos(-x) = -cos x"; label := False_;
     explanation := u "Cosinus ist gerade: cos(-x)=cos x."; condition := None |};
  {| statement := u "tan(x+π) = tan x"; label := Sometimes;
     explanation := u "Periode π für Tangens."; condition := Some (u "Nur wenn tan definiert (cos x ≠ 0).") |};
  {| statement := u "sin(x+π) = sin x"; label := False_;
     explanation := u "Richtig: sin(x+π) = -sin x."; condition := None |};
  {| statement := u "sin(2x)=2 sin x cos x"; label := Always;
     explanation := u "Doppelwinkel Sinus."; condition := None |};
  {| statement := u "cos(2x)=1-2 sin^2 x"; label := Always;
     explanation := u "Doppelwinkel Cosinus."; condition := None |};
  {| statement := u "cos(2x)=1−sin x"; label := False_;
     explanation := u "Fehlt Quadrat."; condition := None |};
  {| statement := u "sin^2 x = sin x"; label := Sometimes;
     explanation := u "Quadrat verändert Wert außer bei 0/1."; condition := Some (u "Nur für sin x ∈ {0,1}.") |};
  {| statement := u "√(sin^2 x) = sin x"; label := False_;
     explanation := u "Richtig: |sin x|."; condition := None |}].

Definition labelToOption (l : FallacyLabel) : FallacyOption :=
  match l with Always => OptionA | Sometimes => OptionB | False_ => OptionC end.

Fixpoint join (sep : jsstr) (parts : list jsstr) : jsstr :=
  match parts with
  | [] => []
  | [p] => p
  | p :: ps => p ++ sep ++ join sep ps
  end.

Section Generator.
Context (rt : Runtime).

Let sin := Math_sin rt.
Let cos := Math_cos rt.
Let tan := Math_tan rt.
Let sq (x : double) : double := pow rt x (of_Z 2).

Definition angleSamples : list AngleSample := [
  {| sample_value := of_Z 0; sample_label := u "0" |};
  {| sample_value := ddiv PI (of_Z 6); sample_label := u "π/6" |};
  {| sample_value := ddiv PI (of_Z 4); sample_label := u "π/4" |};
  {| sample_value := ddiv PI (of_Z 3); sample_label := u "π/3" |};
  {| sample_value := ddiv PI (of_Z 2); sample_label := u "π/2" |}].

Definition nonSingularAngles : list AngleSample :=
  filter (fun a => dltb (lit 1 (-6)) (dabs (cos (sample_value a)))) angleSamples.

Definition formatVal (n : double) : jsstr :=
  if is_finite n then toFixed3 rt n else u "undef".

Definition formatExample (lhs rhs : double) : jsstr :=
  u "LHS≈" ++ formatVal lhs ++ u ", RHS≈" ++ formatVal rhs.

(** Two angles [a], [b] drawn from [nonSingularAngles], in this order. *)
Definition draw2 (l : nat) : M (AngleSample * AngleSample) :=
  let* a := randomChoice nonSingularAngles l in
  let* b := randomChoice nonSingularAngles l in
  let* a := get a in
  let* b := get b in
  ret (a, b).

Definition draw1 (arr : list AngleSample) (l : nat) : M AngleSample :=
  let* x := randomChoice arr l in get x.

Definition ab_text (a b : AngleSample) : jsstr :=
  u "a=" ++ sample_label a ++ u ", b=" ++ sample_label b.

(** [exampleForRule]: the [switch] on the statement; [None] is
    [undefined]. *)
Definition exampleForRule (r : FallacyRule) (l : nat) : M (option jsstr) :=
  let st := statement r in
  if list_eqb st (u "sin(a+b)=sin a cos b + cos a sin b") then
    let* ab := draw2 l in let (a, b) := ab in
    let lhs := sin (dadd (sample_value a) (sample_value b)) in
    let rhs := dadd (dmul (sin (sample_value a)) (cos (sample_value b)))
                    (dmul (cos (sample_value a)) (sin (sample_value b))) in
    ret (Some (u "Check: " ++ ab_text a b ++ u " → " ++ formatExample lhs rhs))
  else if list_eqb st (u "sin(a+b)=sin a + sin b") then
    let* ab := draw2 l in let (a, b) := ab in
    let lhs := sin (dadd (sample_value a) (sample_value b)) in
    let rhs := dadd (sin (sample_value a)) (sin (sample_value b)) in
    ret (Some (u "Gegenbeispiel " ++ ab_text a b ++ u ": " ++ formatExample lhs rhs))
  else if list_eqb st (u "cos(a+b)=cos a cos b − sin a sin b") then
    let* ab := draw2 l in let (a, b) := ab in
    let lhs := cos (dadd (sample_value a) (sample_value b)) in
    let rhs := dsub (dmul (cos (sample_value a)) (cos (sample_value b)))
                    (dmul (sin (sample_value a)) (sin (sample_value b))) in
    ret (Some (u "Check: " ++ ab_text a b ++ u " → " ++ formatExample lhs rhs))
  else if list_eqb st (u "cos(a+b)=cos a + cos b") then
    let* ab := draw2 l in let (a, b) := ab in
    let lhs := cos (dadd (sample_value a) (sample_value b)) in
    let rhs := dadd (cos (sample_value a)) (cos (sample_value b)) in
    ret (Some (u "Gegenbeispiel " ++ ab_text a b ++ u ": " ++ formatExample lhs rhs))
  else if list_eqb st (u "tan(a+b)=(tan a + tan b)/(1 − tan a tan b)") then
    let* ab := draw2 l in let (goodA, goodB) := ab in
    let good := u "gilt z.B. bei " ++ ab_text goodA goodB in
    ret (Some (good ++ u "; Gegenbeispiel a=π/4, b=π/4: tan(a)·tan(b)=1 → Nenner 0 (nicht definiert)"))
  else if list_eqb st (u "tan(a+b)=tan a + tan b") then
    let* ab := draw2 l in let (a, b) := ab in
    let lhs := tan (dadd (sample_value a) (sample_value b)) in
    let rhs := dadd (tan (sample_value a)) (tan (sample_value b)) in
    ret (Some (u "Gegenbeispiel " ++ ab_text a b ++ u ": " ++ formatExample lhs rhs))
  else if list_eqb st (u "sin^2 x + cos^2 x = 1") then
    let* x := draw1 nonSingularAngles l in
    let lhs := dadd (sq (sin (sample_value x))) (sq (cos (sample_value x))) in
    ret (Some (u "Check x=" ++ sample_label x ++ u ": " ++ formatExample lhs (of_Z 1)))
  else if list_eqb st (u "cos^2 x = 1 − sin x") then
    let* x := draw1 nonSingularAngles l in
    let lhs := sq (cos (sample_value x)) in
    let rhs := dsub (of_Z 1) (sin (sample_value x)) in
    ret (Some (u "Gegenbeispiel x=" ++ sample_label x ++ u ": " ++ formatExample lhs rhs))
  else if list_eqb st (u "cos^2 x = 1 − sin^2 x") then
    let* x := draw1 nonSingularAngles l in
    let lhs := sq (cos (sample_value x)) in
    let rhs := dsub (of_Z 1) (sq (sin (sample_value x))) in
    ret (Some (u "Check x=" ++ sample_label x ++ u ": " ++ formatExample lhs rhs))
  else if list_eqb st (u "1 + tan^2 x = 1/cos^2 x") then
    let* good := draw1 nonSingularAngles l in
    let lhsBad := dadd (of_Z 1) (sq (tan (ddiv PI (of_Z 2)))) in
    ret (Some (u "Bedingung cos x ≠ 0. Beispiel x=" ++ sample_label good
               ++ u " funktioniert; x=π/2 → cos x=0, RHS nicht definiert ("
               ++ formatExample lhsBad Infinity ++ u ")"))
  else if list_eqb st (u "sin(-x) = -sin x") then
    let* x := draw1 nonSingularAngles l in
    let lhs := sin (dneg (sample_value x)) in
    let rhs := dneg (sin (sample_value x)) in
    ret (Some (u "Check x=" ++ sample_label x ++ u ": " ++ formatExample lhs rhs))
  else if list_eqb st (u "cos(-x) = -cos x") then
    let* x := draw1 nonSingularAngles l in
    let lhs := cos (dneg (sample_value x)) in
    let rhs := dneg (cos (sample_value x)) in
    ret (Some (u "Gegenbeispiel x=" ++ sample_label x ++ u ": " ++ formatExample lhs rhs))
  else if list_eqb st (u "tan(x+π) = tan x") then
    let* ok := draw1 nonSingularAngles l in
    let bad := ddiv PI (of_Z 2) in
    let lhs := tan (dadd bad PI) in
    let rhs := tan bad in
    ret (Some (u "Gilt wenn tan definiert, z.B. x=" ++ sample_label ok
               ++ u ". Bei x=π/2 ist tan(x) undef → " ++ formatExample lhs rhs))
  else if list_eqb st (u "sin(x+π) = sin x") then
    let* x := draw1 nonSingularAngles l in
    let lhs := sin (dadd (sample_value x) PI) in
    let rhs := sin (sample_value x) in
    ret (Some (u "Gegenbeispiel x=" ++ sample_label x ++ u ": " ++ formatExample lhs rhs))
  else if list_eqb st (u "sin(2x)=2 sin x cos x") then
    let* x := draw1 nonSingularAngles l in
    let lhs := sin (dmul (of_Z 2) (sample_value x)) in
    let rhs := dmul (dmul (of_Z 2) (sin (sample_value x))) (cos (sample_value x)) in
    ret (Some (u "Check x=" ++ sample_label x ++ u ": " ++ formatExample lhs rhs))
  else if list_eqb st (u "cos(2x)=1-2 sin^2 x") then
    let* x := draw1 nonSingularAngles l in
    let lhs := cos (dmul (of_Z 2) (sample_value x)) in
    let rhs := dsub (of_Z 1) (dmul (of_Z 2) (sq (sin (sample_value x)))) in
    ret (Some (u "Check x=" ++ sample_label x ++ u ": " ++ formatExample lhs rhs))
  else if list_eqb st (u "cos(2x)=1−sin x") then
    let* x := draw1 nonSingularAngles l in
    let lhs := cos (dmul (of_Z 2) (sample_value x)) in
    let rhs := dsub (of_Z 1) (sin (sample_value x)) in
    ret (Some (u "Gegenbeispiel x=" ++ sample_label x ++ u ": " ++ formatExample lhs rhs))
  else if list_eqb st (u "sin^2 x = sin x") then
    let* bad := draw1 (filter (fun a => dltb (lit 1 (-6)) (dabs (sin (sample_value a)))
                                       && dltb (lit 1 (-6)) (dabs (dsub (sin (sample_value a)) (of_Z 1))))
                              nonSingularAngles) l in
    let lhs := sq (sin (sample_value bad)) in
    let rhs := sin (sample_value bad) in
    ret (Some (u "Gilt nur bei sin x ∈ {0,1}, z.B. x=0. Gegenbeispiel x=" ++ sample_label bad
               ++ u ": " ++ formatExample lhs rhs))
  else if list_eqb st (u "√(sin^2 x) = sin x") then
    let* x := draw1 (filter (fun a => negb (deqb (sample_value a) (of_Z 0))) nonSingularAngles) l in
    let lhs := Math_sqrt rt (sq (sin (sample_value x))) in
    let rhs := sin (sample_value x) in
    ret (Some (u "Gegenbeispiel x=" ++ sample_label x ++ u ": " ++ formatExample lhs rhs
               ++ u " (Vorzeichenverlust)"))
  else ret None.

Definition weight (d : Difficulty) (r : FallacyRule) : nat :=
  match label r with
  | Sometimes => match d with Hard => 3 | Medium => 2 | Easy => 1 end
  | _ => 1
  end.

(** [seed] is an integer; [seed || 1] replaces 0 by 1. *)
Definition generateFallacyRule (seed : Z) (difficulty : Difficulty) : M FallacyTask :=
  let* l := rngLCG (if seed =? 0 then 1 else seed) in
  let weighted := flat_map (fun r => repeat r (weight difficulty r)) ruleBank in
  let* r := randomChoice weighted l in
  let* r := get r in
  let* detail := exampleForRule r l in
  let parts := [explanation r]
               ++ match condition r with Some c => [u "Bedingung: " ++ c] | None => [] end
               ++ match detail with Some ((_ :: _) as d) => [d] | _ => [] end in
  ret {| rule := r; feedback := join (u " · ") parts; option_ := labelToOption (label r) |}.

End Generator.

End Fallacies.

(* ------------------------------------------------------------------------- *)
(** * Printing then parsing an exact value *)
(* ------------------------------------------------------------------------- *)

Module ExactRoundTrip.
Import JSNumber TrigCore.

(** [parseExactValue(formatExact(v))] *)
Definition roundtrip (v : ExactValue) : Outcome (option ExactValue) :=
  let+ t := formatExact v in parseExactValue t.

(** The values of the [ExactValue] type other than [rational]: [sign] is 1
    or -1 and [n] is 2 or 3. *)
Definition closed_form (v : ExactValue) : bool :=
  let unit_sign s := (s =? 1) || (s =? -1) in
  match v with
  | EZero | EUndef => true
  | EOne s | EHalf s => unit_sign s
  | ESqrt n s _ => ((n =? 2) || (n =? 3)) && unit_sign s
  | ERational _ => false
  end.

End ExactRoundTrip.

(* ------------------------------------------------------------------------- *)
(** * Venn-diagram region masks (src/set-logic.ts) *)
(* ------------------------------------------------------------------------- *)

Module SetRegions.
Import SetLogic.

(** [assignmentsForSets]: for [i] from 0 below [1 << sets.length], a copy of
    the all-false base with each listed set given the bit of [i] that its
    position selects; this is the assignment [truthTableSet] builds. *)
Definition assignmentsForSets (sets : list SetVarName) : list SetAssignment :=
  let total := shl32 1 (Z.of_nat (List.length sets)) in
  map (row_assignment_of sets) (map Z.of_nat (seq 0 (Z.to_nat total))).

(** One step of the [forEach] in [computeRegionMaskFromExpr]: the pair of the
    mask and the index; [mask |= 1 << idx] is a 32-bit [|]. *)
Definition mask_step (node : SetNode) (st : Z * Z) (assignment : SetAssignment) : Z * Z :=
  let '(mask, idx) := st in
  (if evalSetExpr node assignment then to_int32 (Z.lor mask (shl32 1 idx)) else mask,
   idx + 1).

Definition computeRegionMaskFromExpr (node : SetNode) (sets : list SetVarName) : Z :=
  fst (fold_left (mask_step node) (assignmentsForSets sets) (0, 0)).

(** The number whose bit [idx] is the value of [node] under the [idx]-th
    assignment of [asgs]; the mask the loop accumulates. *)
Fixpoint mask_sum (node : SetNode) (asgs : list SetAssignment) : Z :=
  match asgs with
  | [] => 0
  | a :: rest => Z.b2z (evalSetExpr node a) + 2 * mask_sum node rest
  end.

End SetRegions.

(* ------------------------------------------------------------------------- *)
(** * The seeded generator of the math tasks (src/set-logic.ts) *)
(* ------------------------------------------------------------------------- *)

Module MathRng.

Definition LCG_A : Z := 1664525.
Definition LCG_C : Z := 1013904223.
Definition LCG_M : Z := 2 ^ 32.

(** [createRng(seed)] returns closures over [let state = seed >>> 0]; the
    closures are written here as functions of that state, each returning its
    result and the new state. The seed is an integer. *)
Definition createRng (seed : Z) : Z := seed mod 2 ^ 32.

(** [next]: [LCG_A * state] stays below 2^53, so the double arithmetic is
    exact and [%] on these non-negative integers is [mod]. *)
Definition next (state : Z) : Z * Z :=
  let state := (LCG_A * state + LCG_C) mod LCG_M in (state, state).

(** [int(min, max)]: [Math.floor(rand() * (max - min + 1)) + min] with
    [rand() = next() / LCG_M]. For integers [min], [max] with
    [max - min + 1 <= 2^21] and [|min|, |max| <= 2^52] every step is exact,
    and the value is the floor of [s * (max - min + 1) / 2^32] plus [min]. *)
Definition int (min max : Z) (state : Z) : Z * Z :=
  let '(s, state) := next state in
  (s * (max - min + 1) / LCG_M + min, state).

(** [choice(list)]: [list[int(0, list.length - 1)]]; a negative index or one
    past the end reads [undefined] ([None]). *)
Definition choice {A} (list : list A) (state : Z) : option A * Z :=
  let '(i, state) := int 0 (Z.of_nat (List.length list) - 1) state in
  (if i <? 0 then None else nth_error list (Z.to_nat i), state).

(** The [nextSeed] getter. *)
Definition nextSeed (state : Z) : Z := state.

End MathRng.

(* ------------------------------------------------------------------------- *)
(** * Rational arithmetic of the calculation tasks (src/set-logic.ts) *)
(* ------------------------------------------------------------------------- *)

Module SetArith.
Import JSNumber TrigCore.

(** [rationalOps.sub] also needs [-], which the [JSNum] interface leaves
    out. *)
Class JSNumSub (T : Type) := { js_sub : T -> T -> T }.
#[export] Instance JSNumSub_double : JSNumSub double := { js_sub := dsub }.
#[export] Instance JSNumSub_Z : JSNumSub Z := { js_sub := Z.sub }.

Section Ops.
Context {T : Type} `{JSNum T} `{JSNumSub T}.

(** [normalizeRational] of set-logic.ts over the number interface; at
    [double] it is [SetRational.normalizeRational]. *)
Definition normalizeRational (value : Rational T) : Outcome (Rational T) :=
  if js_eqb (rat_d value) (js_of_Z 0) then Throw (u "Nenner darf nicht 0 sein.")
  else
    let sign := if js_ltb (rat_d value) (js_of_Z 0) then js_of_Z (-1) else js_of_Z 1 in
    let n := js_mul (rat_n value) sign in
    let d := js_abs (rat_d value) in
    let+ g := gcd n d in
    Ret {| rat_n := js_div n g; rat_d := js_div d g |}.

(** [rationalOps.add] *)
Definition rationalOps_add (a b : Rational T) : Outcome (Rational T) :=
  normalizeRational {| rat_n := js_add (js_mul (rat_n a) (rat_d b)) (js_mul (rat_n b) (rat_d a));
                       rat_d := js_mul (rat_d a) (rat_d b) |}.

(** [rationalOps.sub] *)
Definition rationalOps_sub (a b : Rational T) : Outcome (Rational T) :=
  normalizeRational {| rat_n := js_sub (js_mul (rat_n a) (rat_d b)) (js_mul (rat_n b) (rat_d a));
                       rat_d := js_mul (rat_d a) (rat_d b) |}.

(** [rationalOps.mul] *)
Definition rationalOps_mul (a b : Rational T) : Outcome (Rational T) :=
  normalizeRational {| rat_n := js_mul (rat_n a) (rat_n b);
                       rat_d := js_mul (rat_d a) (rat_d b) |}.

(** [rationalOps.div] *)
Definition rationalOps_div (a b : Rational T) : Outcome (Rational T) :=
  if js_eqb (rat_n b) (js_of_Z 0) then Throw (u "Division durch 0")
  else normalizeRational {| rat_n := js_mul (rat_n a) (rat_d b);
                            rat_d := js_mul (rat_d a) (rat_n b) |}.

End Ops.

End SetArith.

(* ------------------------------------------------------------------------- *)
(** * Square-root simplification (src/set-logic.ts) *)
(* ------------------------------------------------------------------------- *)

Module SqrtForms.
Import TrigCore.

(** [type SqrtForm = { k: number; m: number }]: the value k·√m. *)
Record SqrtForm := { sq_k : Z; sq_m : Z }.

(** [simplifySqrt] on an integer [value]; below 2^53 every operation of the
    source ([*], [<=], [%], [/=], [*=]) is exact on integers, and [%] is the
    truncating remainder. The two [while] loops are bounded by fuel: [Hang]
    would be a loop that has not stopped. *)

(** [while (m % (d * d) === 0) { m /= d * d; k *= d; }] *)
Fixpoint strip_square (fuel : nat) (m k d : Z) : Outcome (Z * Z) :=
  match fuel with
  | O => Hang
  | S f =>
      if Z.rem m (d * d) =? 0 then strip_square f (m / (d * d)) (k * d) d
      else Ret (m, k)
  end.

(** [while (d * d <= m) { ...; d += 1; }] *)
Fixpoint sqrt_loop (fuel : nat) (m k d : Z) : Outcome SqrtForm :=
  match fuel with
  | O => Hang
  | S f =>
      if d * d <=? m then
        let+ mk := strip_square (S (Z.to_nat m)) m k d in
        sqrt_loop f (fst mk) (snd mk) (d + 1)
      else Ret {| sq_k := k; sq_m := m |}
  end.

Definition simplifySqrt (value : Z) : Outcome SqrtForm :=
  sqrt_loop (S (Z.to_nat value)) value 1 2.

End SqrtForms.

(* ------------------------------------------------------------------------- *)
(** * Checking a degree/radian conversion answer (trig tasks) *)
(* ------------------------------------------------------------------------- *)

Module TrigCheck.
Import JSNumber TrigCore.

(** The [trigDegRad] branch of [checkTrigAnswer(task, userInput)]: the
    [correct] field it returns, from [task.solution] and the input. *)
Definition checkTrigAnswer_degRad (solution userInput : jsstr) : Outcome bool :=
  let+ userAng := parseAngle userInput in
  match userAng with
  | None => Ret false
  | Some normUser =>
      let+ expected :=
        if ends_with c_degree solution then parseAngle solution
        else parseAngle (replace_first c_degree solution) in
      match expected with
      | None => Ret false
      | Some normExpected =>
          match normUser, normExpected with
          | Deg uv, Deg ev => Ret (dltb (dabs (dsub uv ev)) (lit 1 (-9)))
          | Rad up uq, Rad ep eq => Ret (deqb (dmul up eq) (dmul ep uq))
          | _, _ => Ret false
          end
      end
  end.

End TrigCheck.

(* ------------------------------------------------------------------------- *)
(** * Truth-table comparison of formulas (src/logic.ts) *)
(* ------------------------------------------------------------------------- *)

Module LogicTable.
Import Logic.

(** [into.add(name)] on a JavaScript [Set<string>], kept in insertion order. *)
Definition str_add (v : jsstr) (vars : list jsstr) : list jsstr :=
  if existsb (list_eqb v) vars then vars else vars ++ [v].

(** [collectVariables] *)
Fixpoint collectVariables (node : FormulaNode) (into : list jsstr) : list jsstr :=
  match node with
  | FVar name => str_add name into
  | FNot child => collectVariables child into
  | FBin _ l r => collectVariables r (collectVariables l into)
  end.

(** [new Set([...xs])] *)
Definition str_set_of_list (xs : list jsstr) : list jsstr :=
  fold_left (fun acc v => str_add v acc) xs [].

(** The default comparison of [Array.prototype.sort]: strings ordered by
    their UTF-16 code units. *)
Fixpoint str_ltb (a b : jsstr) : bool :=
  match a, b with
  | [], [] => false
  | [], _ :: _ => true
  | _ :: _, [] => false
  | x :: a', y :: b' => (x <? y) || ((x =? y) && str_ltb a' b')
  end.

Fixpoint insert_str (v : jsstr) (xs : list jsstr) : list jsstr :=
  match xs with
  | [] => [v]
  | w :: ws => if str_ltb w v then w :: insert_str v ws else v :: w :: ws
  end.

Definition sort_str (xs : list jsstr) : list jsstr := fold_right insert_str [] xs.

(** [Array.from(new Set([...collectVariables(left), ...collectVariables(right)])).sort()] *)
Definition truth_vars (left right : FormulaNode) : list jsstr :=
  sort_str (str_set_of_list (collectVariables left [] ++ collectVariables right [])).

(** [assignment[name] ?? false], the read [evaluateFormula] makes. *)
Definition lookup_var (assignment : Assignment) (name : jsstr) : bool :=
  match assignment name with Some b => b | None => false end.

(** [type TruthRow] *)
Record TruthRow := {
  tr_assignment : Assignment;
  tr_left : bool;
  tr_right : bool;
  tr_matches : bool }.

(** One step of [variables.forEach((variable, index) => { assignment[variable] = ... })]. *)
Definition assign_step (len i : Z) (st : Assignment * Z) (variable : jsstr) : Assignment * Z :=
  let '(assignment, index) := st in
  ((fun name => if list_eqb name variable
                then Some (negb (Z.land i (SetLogic.shl32 1 (len - index - 1)) =? 0))
                else assignment name),
   index + 1).

(** The [assignment] built for row [i], starting from [{}]. *)
Definition row_assignment (variables : list jsstr) (i : Z) : Assignment :=
  fst (fold_left (assign_step (Z.of_nat (List.length variables)) i) variables
                 ((fun _ => None), 0)).

Definition truth_row (left right : FormulaNode) (variables : list jsstr) (i : Z) : TruthRow :=
  let assignment := row_assignment variables i in
  let leftValue := evaluateFormula left assignment in
  let rightValue := evaluateFormula right assignment in
  {| tr_assignment := assignment; tr_left := leftValue; tr_right := rightValue;
     tr_matches := Bool.eqb leftValue rightValue |}.

(** [truthTableEquality]: the pair [(equal, table)]. *)
Definition truthTableEquality (left right : FormulaNode) : bool * list TruthRow :=
  let variables := truth_vars left right in
  let total := Z.max 1 (SetLogic.shl32 1 (Z.of_nat (List.length variables))) in
  let rows := map (truth_row left right variables) (map Z.of_nat (seq 0 (Z.to_nat total))) in
  (forallb tr_matches rows, rows).

End LogicTable.

(* ------------------------------------------------------------------------- *)
(** * Biconditional elimination, truth tables and equivalence (logic.ts) *)
(* ------------------------------------------------------------------------- *)

Module LogicEquiv.
Import Logic Parser LogicTable.

(** [containsIff] *)
Fixpoint containsIff (node : FormulaNode) : bool :=
  match node with
  | FBin KIff _ _ => true
  | FNot child => containsIff child
  | FBin _ l r => containsIff l || containsIff r
  | FVar _ => false
  end.

(** [eliminateIffOnly] *)
Fixpoint eliminateIffOnly (node : FormulaNode) : FormulaNode :=
  match node with
  | FVar _ => node
  | FNot child => FNot (eliminateIffOnly child)
  | FBin KIff l r =>
      let left := eliminateIffOnly l in
      let right := eliminateIffOnly r in
      FBin KAnd (FBin KImp left right) (FBin KImp right left)
  | FBin k l r => FBin k (eliminateIffOnly l) (eliminateIffOnly r)
  end.

(** [generateAssignments] *)
Definition generateAssignments (variables : list jsstr) : list Assignment :=
  let total := Z.max 1 (SetLogic.shl32 1 (Z.of_nat (List.length variables))) in
  map (row_assignment variables) (map Z.of_nat (seq 0 (Z.to_nat total))).

(** A value, or the [Error] thrown while computing it. *)
Inductive Thrown (A : Type) := Value (a : A) | Error (message : jsstr).
Arguments Value {A} a.
Arguments Error {A} message.

(** The argument type [FormulaNode | string]. *)
Inductive FormulaInput := AsNode (node : FormulaNode) | AsString (text : jsstr).

(** [toAst] *)
Definition toAst (formula : FormulaInput) : Result :=
  match formula with
  | AsNode node => Ok node
  | AsString text => parseFormula text
  end.

(** [truthTable]: the sorted variables and the rows [(assignment, result)]. *)
Definition truthTable (formula : FormulaInput)
  : Thrown (list jsstr * list (Assignment * bool)) :=
  match toAst formula with
  | Err m => Error m
  | Ok ast =>
      let variables := sort_str (collectVariables ast []) in
      Value (variables,
             map (fun assignment => (assignment, evaluateFormula ast assignment))
                 (generateAssignments variables))
  end.

(** [areEquivalent] *)
Definition areEquivalent (left right : FormulaInput) : Thrown bool :=
  match toAst left with
  | Err m => Error m
  | Ok leftAst =>
      match toAst right with
      | Err m => Error m
      | Ok rightAst =>
          let variables := truth_vars leftAst rightAst in
          Value (forallb (fun assignment =>
                   Bool.eqb (evaluateFormula leftAst assignment)
                            (evaluateFormula rightAst assignment))
                 (generateAssignments variables))
      end
  end.

End LogicEquiv.

(* ------------------------------------------------------------------------- *)
(** * Degree helpers of the trigonometry tasks, and Venn regions *)
(* ------------------------------------------------------------------------- *)

Module TrigTaskMath.
Import JSNumber TrigCore.

Section Generic.
Context {T : Type} `{JSNum T}.

(** [simplifyDegree] *)
Definition simplifyDegree (deg : T) : T :=
  let d := js_mod deg (js_of_Z 360) in
  if js_ltb d (js_of_Z 0) then js_add d (js_of_Z 360) else d.

(** The result [{ p, q }] of [degToRad]. *)
Record RadForm := { rf_p : T; rf_q : T }.

(** [degToRad]; its local [gcd] has the same text as the [gcd] of the
    trigonometry core, modelled by [TrigCore.gcd]. *)
Definition degToRad (deg : T) : Outcome RadForm :=
  let num := deg in
  let den := js_of_Z 180 in
  let+ g := gcd num den in
  Ret {| rf_p := js_div num g; rf_q := js_div den g |}.

End Generic.
Arguments RadForm T : clear implicits.

End TrigTaskMath.

Module Regions.

(** [type Region] *)
Inductive Region := Aonly | Bonly | AB | outside.

Definition region_eqb (r s : Region) : bool :=
  match r, s with
  | Aonly, Aonly | Bonly, Bonly | AB, AB | outside, outside => true
  | _, _ => false
  end.

(** [new Set(a)], in insertion order. *)
Definition region_set (a : list Region) : list Region :=
  fold_left (fun acc r => if existsb (region_eqb r) acc then acc else acc ++ [r]) a [].

(** [regionsEqual] *)
Definition regionsEqual (a b : list Region) : bool :=
  if negb (Nat.eqb (List.length a) (List.length b)) then false
  else
    let sa := region_set a in
    forallb (fun r => existsb (region_eqb r) sa) b.

End Regions.

(* ------------------------------------------------------------------------- *)
(** * The set-expression parser (src/set-logic.ts) *)
(* ------------------------------------------------------------------------- *)

(** [normalizeSymbols] of src/logic.ts, which src/set-logic.ts imports: it
    only rewrites [<->], [->], [!], [&] and [|]. The string is read as the
    suffix [raw.slice(i)]; every iteration consumes at least one unit, so
    [List.length raw] iterations suffice. *)
Module BasicNormalize.

Fixpoint norm_loop (fuel : nat) (s : jsstr) : jsstr :=
  match fuel with
  | O => []
  | S k =>
      match s with
      | [] => []
      | char :: t =>
          if is_prefix (u "<->") s then u "⇔" ++ norm_loop k (skipn 3 s)
          else if is_prefix (u "->") s then u "⇒" ++ norm_loop k (skipn 2 s)
          else if char =? 33 then u "¬" ++ norm_loop k t      (* '!' *)
          else if char =? 38 then u "∧" ++ norm_loop k t      (* '&' *)
          else if char =? 124 then u "∨" ++ norm_loop k t     (* '|' *)
          else char :: norm_loop k t
      end
  end.

(** [normalizeSymbols] *)
Definition normalizeSymbols (raw : jsstr) : jsstr := norm_loop (List.length raw) raw.

End BasicNormalize.

Module SetParser.
Import SetLogic.

(** As for [FormulaParser], the state is the suffix [input.slice(index)]
    and [skipWs] is [trim_start]. A [while] loop of a method is the goal
    [G...Loop] with the tree built so far. *)
Inductive Goal :=
| GUnion | GUnionLoop (lhs : SetNode)
| GDiff | GDiffLoop (lhs : SetNode)
| GInter | GInterLoop (lhs : SetNode)
| GSuffix | GSuffixLoop (node : SetNode)
| GPrimary.

(** A node and the new state, a thrown message, or the recursion bound
    exhausted. *)
Inductive Res := SOk (node : SetNode) (rest : jsstr) | SErr (message : jsstr) | SNoFuel.

Definition bindS (r : Res) (k : SetNode -> jsstr -> Res) : Res :=
  match r with
  | SOk node rest => k node rest
  | SErr m => SErr m
  | SNoFuel => SNoFuel
  end.

Notation "'let?' ( x , s ) := r 'in' b" := (bindS r (fun x s => b))
  (at level 200, x name, s name, r at level 100, b at level 200).

(** [match(symbol)] *)
Definition match_ (symbol s : jsstr) : bool * jsstr :=
  let s1 := trim_start s in
  if is_prefix symbol s1 then (true, trim_start (skipn (List.length symbol) s1))
  else (false, s1).

(** [peek(symbol)] *)
Definition peek (symbol s : jsstr) : bool * jsstr :=
  let s1 := trim_start s in (is_prefix symbol s1, s1).

Definition msg_incomplete : jsstr := u "Formel unvollständig".
Definition msg_paren : jsstr := u "Schließende Klammer fehlt".
Definition msg_symbol (char : Z) : jsstr := u "Unerwartetes Symbol " ++ [34; char; 34].
Definition msg_trailing : jsstr := u "Unerwartete Eingabe nach Mengenformel".

(** [char.toUpperCase()] on a letter. *)
Definition upper_unit (c : Z) : Z := if is_lower c then c - 32 else c.

Fixpoint parse (fuel : nat) (g : Goal) (s : jsstr) : Res :=
  match fuel with
  | O => SNoFuel
  | S k =>
      match g with
      (* parseUnion *)
      | GUnion => let? (lhs, s1) := parse k GDiff s in parse k (GUnionLoop lhs) s1
      | GUnionLoop lhs =>
          let (m1, s1) := match_ (u "∪") s in
          if m1 then let? (right, s2) := parse k GDiff s1 in
                     parse k (GUnionLoop (SUnion lhs right)) s2
          else
            let (m2, s2) := match_ (u "Δ") s1 in
            if m2 then let? (right, s3) := parse k GDiff s2 in
                       parse k (GUnionLoop (SSym lhs right)) s3
            else SOk lhs s2
      (* parseDiff *)
      | GDiff => let? (lhs, s1) := parse k GInter s in parse k (GDiffLoop lhs) s1
      | GDiffLoop lhs =>
          let (m1, s1) := match_ (u "∖") s in
          let (m, s2) := if m1 then (true, s1) else match_ [92] s1 in
          if m then let? (right, s3) := parse k GInter s2 in
                    parse k (GDiffLoop (SDiff lhs right)) s3
          else SOk lhs s2
      (* parseInter *)
      | GInter => let? (lhs, s1) := parse k GSuffix s in parse k (GInterLoop lhs) s1
      | GInterLoop lhs =>
          let (m, s1) := match_ (u "∩") s in
          if m then let? (right, s2) := parse k GSuffix s1 in
                    parse k (GInterLoop (SInter lhs right)) s2
          else SOk lhs s1
      (* parseSuffix *)
      | GSuffix => let? (node, s1) := parse k GPrimary s in parse k (GSuffixLoop node) s1
      | GSuffixLoop node =>
          let (m, s1) := peek (u "^c") s in
          if m then parse k (GSuffixLoop (SNot node)) (skipn 2 s1)
          else SOk node s1
      (* parsePrimary *)
      | GPrimary =>
          match trim_start s with
          | [] => SErr msg_incomplete
          | char :: t =>
              if char =? 40 then                                   (* '(' *)
                let? (expr, s2) := parse k GUnion t in
                let (m, s3) := match_ [41] s2 in
                if m then SOk expr s3 else SErr msg_paren
              else if char =? 8709 then SOk (SConst false) t       (* '∅' *)
              else if char =? 937 then SOk (SConst true) t         (* 'Ω' *)
              else if is_letter char then
                let name := upper_unit char in
                if name =? 85 then SOk (SConst true) t             (* 'U' *)
                else if name =? 65 then SOk (SVar VA) t
                else if name =? 66 then SOk (SVar VB) t
                else if name =? 67 then SOk (SVar VC) t
                else SErr (msg_symbol char)
              else SErr (msg_symbol char)
          end
      end
  end.

(** What [parseSetExpression] returns or throws; [PNoFuel] is the
    recursion bound exhausted. *)
Inductive Parsed (A : Type) := POk (a : A) | PErr (message : jsstr) | PNoFuel.
Arguments POk {A} a.
Arguments PErr {A} message.
Arguments PNoFuel {A}.

Definition parse_fuel (input : jsstr) : nat := 10 * (List.length input + 1).

(** [new SetParser(input).parse()] *)
Definition SetParser_parse (input : jsstr) : Parsed SetNode :=
  match parse (parse_fuel input) GUnion input with
  | SOk node s1 =>
      match trim_start s1 with
      | [] => POk node
      | _ :: _ => PErr msg_trailing
      end
  | SErr m => PErr m
  | SNoFuel => PNoFuel
  end.

(** [parseSetExpression] *)
Definition parseSetExpression (input : jsstr) : Parsed SetNode :=
  SetParser_parse (BasicNormalize.normalizeSymbols (trim input)).

(** The assignments of the four regions of the two-set diagram. *)
Definition combos : list (Regions.Region * SetAssignment) :=
  [(Regions.AB, {| asgA := true; asgB := true; asgC := false |});
   (Regions.Aonly, {| asgA := true; asgB := false; asgC := false |});
   (Regions.Bonly, {| asgA := false; asgB := true; asgC := false |});
   (Regions.outside, {| asgA := false; asgB := false; asgC := false |})].

(** [regionsForExpression] *)
Definition regionsForExpression (input : jsstr) : Parsed (list Regions.Region) :=
  match parseSetExpression input with
  | POk ast => POk (map fst (filter (fun combo => evalSetExpr ast (snd combo)) combos))
  | PErr m => PErr m
  | PNoFuel => PNoFuel
  end.

End SetParser.

(* ========================================================================= *)
(** * Proofs *)
(* ========================================================================= *)

Module StringFacts.
Lemma list_eqb_eq a b : list_eqb a b = true <-> a = b.
Proof.
  revert b; induction a as [|x a IH]; intros [|y b]; simpl; split; intros H;
    try discriminate; try reflexivity.
  - apply andb_true_iff in H as [H1 H2]. apply Z.eqb_eq in H1.
    apply IH in H2. subst. reflexivity.
  - injection H as -> ->. apply andb_true_iff. split; [apply Z.eqb_refl|].
    apply IH. reflexivity.
Qed.
End StringFacts.

Module LogicFacts.
Import Logic.

Lemma elimS_free x : containsImplication (elimS x) = false.
Proof.
  induction x as [n|c IH|[] l IHl r IHr]; simpl;
    rewrite ?IH, ?IHl, ?IHr; reflexivity.
Qed.

Lemma elimS_eval x a : evaluateFormula (elimS x) a = evaluateFormula x a.
Proof.
  induction x as [n|c IH|[] l IHl r IHr]; simpl; rewrite ?IH, ?IHl, ?IHr;
    try reflexivity.
  destruct (evaluateFormula l a), (evaluateFormula r a); reflexivity.
Qed.

Lemma fdepth_pos x : (1 <= fdepth x)%nat.
Proof. destruct x; simpl; lia. Qed.

Lemma fdepth_elimS x : (fdepth (elimS x) <= 3 * fdepth x)%nat.
Proof.
  induction x as [n|c IH|[] l IHl r IHr]; cbn [fdepth elimS] in *; try lia;
    repeat match goal with
    | |- context [Nat.max ?a ?b] =>
        destruct (Nat.max_spec a b) as [[? ->]|[? ->]]
    end; lia.
Qed.

Lemma elim_fuel_free n y :
  containsImplication y = false -> (fdepth y <= n)%nat -> elim_fuel n y = y.
Proof.
  revert y; induction n as [|k IH]; intros y Hy Hd.
  - pose proof (fdepth_pos y); lia.
  - destruct y as [nm|c|[] l r]; simpl in *; try discriminate; try reflexivity.
    + rewrite IH; auto; lia.
    + apply orb_false_iff in Hy as [Hl Hr].
      rewrite !IH; auto; lia.
    + apply orb_false_iff in Hy as [Hl Hr].
      rewrite !IH; auto; lia.
Qed.

(** The fuel of [eliminateImplications] is enough: it computes [elimS]. *)
Lemma elim_fuel_enough n x :
  (3 * fdepth x <= n)%nat -> elim_fuel n x = elimS x.
Proof.
  revert x; induction n as [|k IH]; intros x Hd.
  - pose proof (fdepth_pos x); lia.
  - destruct x as [nm|c|[] l r]; simpl in Hd.
    + reflexivity.
    + cbn [elim_fuel elimS]. rewrite IH; [reflexivity|lia].
    + cbn [elim_fuel elimS]. rewrite !IH; [reflexivity|lia|lia].
    + cbn [elim_fuel elimS]. rewrite !IH; [reflexivity|lia|lia].
    + cbn [elim_fuel elimS]. rewrite !IH; [reflexivity|lia|lia].
    + cbn [elim_fuel elimS]. rewrite (IH l), (IH r) by lia.
      destruct k as [|k']; [lia|].
      pose proof (fdepth_elimS l). pose proof (fdepth_elimS r).
      cbn [elim_fuel].
      rewrite !(elim_fuel_free k'); try apply elimS_free; try lia.
      reflexivity.
Qed.

Lemma eliminateImplications_elimS x : eliminateImplications x = elimS x.
Proof. apply elim_fuel_enough. lia. Qed.

(** On a formula without ⇒/⇔, [pushNegation] with enough fuel negates
    exactly when asked to and produces no ⇒/⇔. *)
Lemma push_fuel_free n y b a :
  containsImplication y = false -> (fdepth y <= n)%nat ->
  containsImplication (push_fuel n y b) = false /\
  evaluateFormula (push_fuel n y b) a = xorb b (evaluateFormula y a).
Proof.
  revert y b; induction n as [|k IH]; intros y b Hy Hd.
  - pose proof (fdepth_pos y); lia.
  - destruct y as [nm|c|[] l r]; simpl in Hy, Hd; try discriminate.
    + destruct b; simpl; auto.
    + cbn [push_fuel]. destruct (IH c (negb b)) as [H1 H2]; auto; try lia.
      rewrite H2. split; auto. simpl. destruct b, (evaluateFormula c a); reflexivity.
    + apply orb_false_iff in Hy as [Hl Hr].
      destruct (IH l b) as [Hl1 Hl2]; auto; try lia.
      destruct (IH r b) as [Hr1 Hr2]; auto; try lia.
      cbn [push_fuel]. destruct b; simpl; rewrite ?Hl1, ?Hr1, ?Hl2, ?Hr2;
        simpl; split; auto;
        destruct (evaluateFormula l a), (evaluateFormula r a); reflexivity.
    + apply orb_false_iff in Hy as [Hl Hr].
      destruct (IH l b) as [Hl1 Hl2]; auto; try lia.
      destruct (IH r b) as [Hr1 Hr2]; auto; try lia.
      cbn [push_fuel]. destruct b; simpl; rewrite ?Hl1, ?Hr1, ?Hl2, ?Hr2;
        simpl; split; auto;
        destruct (evaluateFormula l a), (evaluateFormula r a); reflexivity.
Qed.

Lemma push_fuel_semantics n x b a :
  (3 * fdepth x <= n)%nat ->
  containsImplication (push_fuel n x b) = false /\
  evaluateFormula (push_fuel n x b) a = xorb b (evaluateFormula x a).
Proof.
  revert x b; induction n as [|k IH]; intros x b Hd.
  - pose proof (fdepth_pos x); lia.
  - destruct x as [nm|c|t l r].
    + destruct b; simpl; auto.
    + simpl in Hd. cbn [push_fuel]. destruct (IH c (negb b)) as [H1 H2]; try lia.
      rewrite H2. split; auto. simpl. destruct b, (evaluateFormula c a); reflexivity.
    + simpl in Hd. pose proof (fdepth_elimS l). pose proof (fdepth_elimS r).
      pose proof (elimS_free l). pose proof (elimS_free r).
      destruct t; cbn [push_fuel]; rewrite ?eliminateImplications_elimS;
        cbn [elimS].
      * destruct (IH l b) as [Hl1 Hl2]; try lia.
        destruct (IH r b) as [Hr1 Hr2]; try lia.
        destruct b; simpl; rewrite ?Hl1, ?Hr1, ?Hl2, ?Hr2;
          simpl; split; auto;
          destruct (evaluateFormula l a), (evaluateFormula r a); reflexivity.
      * destruct (IH l b) as [Hl1 Hl2]; try lia.
        destruct (IH r b) as [Hr1 Hr2]; try lia.
        destruct b; simpl; rewrite ?Hl1, ?Hr1, ?Hl2, ?Hr2;
          simpl; split; auto;
          destruct (evaluateFormula l a), (evaluateFormula r a); reflexivity.
      * assert (HL : containsImplication (FNot (elimS l)) = false) by assumption.
        destruct (push_fuel_free k (FNot (elimS l)) b a HL) as [Hl1 Hl2];
          [cbn [fdepth]; lia|].
        destruct (push_fuel_free k (elimS r) b a) as [Hr1 Hr2]; auto; [lia|].
        rewrite elimS_eval in Hr2. simpl in Hl2. rewrite elimS_eval in Hl2.
        destruct b; simpl; rewrite ?Hl1, ?Hr1, ?Hl2, ?Hr2; simpl; split; auto;
          destruct (evaluateFormula l a), (evaluateFormula r a); reflexivity.
      * set (L := FBin KOr (FNot (elimS l)) (elimS r)).
        set (R := FBin KOr (FNot (elimS r)) (elimS l)).
        assert (HL : containsImplication L = false) by (subst L; simpl; rewrite !elimS_free; reflexivity).
        assert (HR : containsImplication R = false) by (subst R; simpl; rewrite !elimS_free; reflexivity).
        destruct (push_fuel_free k L b a HL) as [Hl1 Hl2]; [subst L; cbn [fdepth]; lia|].
        destruct (push_fuel_free k R b a HR) as [Hr1 Hr2]; [subst R; cbn [fdepth]; lia|].
        subst L R. simpl in Hl2, Hr2. rewrite !elimS_eval in Hl2, Hr2.
        destruct b; simpl; rewrite ?Hl1, ?Hr1, ?Hl2, ?Hr2; simpl; split; auto;
          destruct (evaluateFormula l a), (evaluateFormula r a); reflexivity.
Qed.

(** C1: [eliminateImplications f] contains no ⇒/⇔ node and evaluates like
    [f] under every assignment. *)
Theorem eliminateImplications_correct (f : FormulaNode) :
  containsImplication (eliminateImplications f) = false /\
  forall assignment : Assignment,
    evaluateFormula (eliminateImplications f) assignment = evaluateFormula f assignment.
Proof.
  rewrite eliminateImplications_elimS. split.
  - apply elimS_free.
  - intros a. apply elimS_eval.
Qed.

(** C2: [negateWithDeMorgan f] evaluates to the negation of [f] under every
    assignment and contains no ⇒/⇔ node. *)
Theorem negateWithDeMorgan_correct (f : FormulaNode) :
  containsImplication (negateWithDeMorgan f) = false /\
  forall assignment : Assignment,
    evaluateFormula (negateWithDeMorgan f) assignment = negb (evaluateFormula f assignment).
Proof.
  unfold negateWithDeMorgan, pushNegation. split.
  - destruct (push_fuel_semantics (3 * fdepth f) f true (fun _ => None)) as [H _];
      [lia|exact H].
  - intros a. destruct (push_fuel_semantics (3 * fdepth f) f true a) as [_ H];
      [lia|]. rewrite H. reflexivity.
Qed.

End LogicFacts.

Module NormalizeFacts.
Import Normalize.

Lemma run_trace raw lower cur fuel st :
  normalized (run raw lower cur fuel st)
    = normalized st ++ List.concat (map (emitted raw) (trace raw lower fuel (idx st))) /\
  newCursor (run raw lower cur fuel st)
    = newCursor st + fold_right Z.add 0 (map (shift cur) (trace raw lower fuel (idx st))).
Proof.
  revert st; induction fuel as [|k IH]; intros st; simpl.
  - rewrite app_nil_r. split; [reflexivity|lia].
  - destruct (idx st <? List.length raw)%nat; simpl.
    + destruct (IH (step raw lower cur st)) as [H1 H2]. rewrite H1, H2.
      unfold step, emitted, shift; simpl.
      destruct (norm_action raw lower (idx st)); simpl;
        rewrite ?app_assoc; split; try reflexivity; try lia.
      destruct (Z.of_nat (idx st) <? cur); lia.
    + rewrite app_nil_r. split; [reflexivity|lia].
Qed.

Lemma norm_action_consumed raw lower i : (1 <= consumed_by (norm_action raw lower i))%nat.
Proof.
  unfold norm_action. cbv zeta.
  repeat match goal with
  | |- context [if ?b then _ else _] => destruct b eqn:?
  | |- context [match ?x with Some _ => _ | None => _ end] => destruct x
  end; simpl; try lia.
  all: repeat match goal with
  | H : (_ || _) = true |- _ => apply orb_true_iff in H as [H|H]
  | H : list_eqb _ _ = true |- _ => apply StringFacts.list_eqb_eq in H; rewrite H
  end; vm_compute; lia.
Qed.

Lemma trace_consecutive raw lower fuel i :
  (List.length raw <= i + fuel)%nat ->
  consecutive (List.length raw) i (trace raw lower fuel i) = true.
Proof.
  revert i; induction fuel as [|k IH]; intros i H; simpl.
  - apply Nat.leb_le; lia.
  - destruct (i <? List.length raw)%nat eqn:E; simpl.
    + rewrite Nat.eqb_refl. simpl. apply IH.
      pose proof (norm_action_consumed raw lower i). lia.
    + apply Nat.ltb_ge in E. apply Nat.leb_le; lia.
Qed.

(** C5: the loop of [normalizeWithCursor] visits consecutive sites covering
    the whole input; the value is the concatenation of what each site emits,
    and the returned cursor is the original cursor shifted by [r - c] for
    every substitution (replacement length [r], consumed length [c]) whose
    site starts before the original cursor, clamped into
    [[0, length value]].  In particular [normalizeWithCursor("A -> B", 4)]
    is [{value: "A ⇒ B", cursor: 3}]. *)
Theorem normalizeWithCursor_shift (raw : jsstr) (c0 : Z) :
  let tr := trace raw (toLowerCase raw) (List.length raw) 0 in
  consecutive (List.length raw) 0 tr = true /\
  value (normalizeWithCursor raw c0) = List.concat (map (emitted raw) tr) /\
  cursor (normalizeWithCursor raw c0)
    = Z.max 0 (Z.min (Z.of_nat (List.length (value (normalizeWithCursor raw c0))))
                     (c0 + fold_right Z.add 0 (map (shift c0) tr))) /\
  normalizeWithCursor (u "A -> B") 4 = {| value := u "A ⇒ B"; cursor := 3 |}.
Proof.
  cbv zeta. split; [|split; [|split]].
  - apply trace_consecutive. lia.
  - unfold normalizeWithCursor; simpl.
    destruct (run_trace raw (toLowerCase raw) c0 (List.length raw)
                {| normalized := []; newCursor := c0; idx := 0 |}) as [H1 _].
    rewrite H1. reflexivity.
  - unfold normalizeWithCursor; simpl.
    destruct (run_trace raw (toLowerCase raw) c0 (List.length raw)
                {| normalized := []; newCursor := c0; idx := 0 |}) as [_ H2].
    rewrite H2. reflexivity.
  - vm_compute. reflexivity.
Qed.

End NormalizeFacts.

Module ParserFacts.
Import Logic Parser.

Lemma trim_start_len s : (List.length (trim_start s) <= List.length s)%nat.
Proof. induction s as [|c t IH]; simpl; [lia|]. destruct (is_ws c); simpl; lia. Qed.

Lemma is_prefix_len p s : is_prefix p s = true -> (List.length p <= List.length s)%nat.
Proof.
  revert s; induction p as [|c p IH]; intros [|d s] H; simpl in *; try lia; try discriminate.
  apply andb_true_iff in H as [_ H]. apply IH in H. lia.
Qed.

Lemma match_len sym s :
  (List.length (snd (match_ sym s)) + (if fst (match_ sym s) then List.length sym else 0)
     <= List.length s)%nat.
Proof.
  unfold match_. pose proof (trim_start_len s).
  destruct (is_prefix sym (trim_start s)) eqn:E; simpl; [|lia].
  apply is_prefix_len in E.
  pose proof (trim_start_len (skipn (List.length sym) (trim_start s))).
  rewrite length_skipn in H0. lia.
Qed.

Ltac sub_call IH g' s' :=
  let Hm := fresh "Hm" in
  pose proof (IH g' s' ltac:(simpl; lia)) as Hm;
  destruct (parse _ g' s') as [?nd ?r | ?msg |]; simpl in Hm |- *;
  [ | exact I | contradiction ].

Ltac do_match sym s :=
  let E := fresh "E" in
  pose proof (match_len sym s);
  destruct (match_ sym s) as [[] ?s1] eqn:E; simpl in *.

(** The recursion bound is never exhausted. *)
Lemma parse_measure n g s :
  (8 * List.length s + weight g <= n)%nat -> measure_ok g s (parse n g s).
Proof.
  revert g s; induction n as [|k IH]; intros g s H.
  - destruct g; simpl in H; lia.
  - destruct g as [ | lhs | | lhs | | lhs | | lhs | | ]; cbn [parse weight is_loop] in *.
    + sub_call IH GImp s. sub_call IH (GIffLoop nd) r. lia.
    + do_match [c_iff] s.
      * sub_call IH GImp s1. sub_call IH (GIffLoop (FBin KIff lhs nd)) r. lia.
      * lia.
    + sub_call IH GOr s. sub_call IH (GImpLoop nd) r. lia.
    + do_match [c_imp] s.
      * sub_call IH GOr s1. sub_call IH (GImpLoop (FBin KImp lhs nd)) r. lia.
      * lia.
    + sub_call IH GAnd s. sub_call IH (GOrLoop nd) r. lia.
    + do_match [c_or] s.
      * sub_call IH GAnd s1. sub_call IH (GOrLoop (FBin KOr lhs nd)) r. lia.
      * lia.
    + sub_call IH GNot s. sub_call IH (GAndLoop nd) r. lia.
    + do_match [c_and] s.
      * sub_call IH GNot s1. sub_call IH (GAndLoop (FBin KAnd lhs nd)) r. lia.
      * lia.
    + do_match [c_not] s.
      * sub_call IH GNot s1. lia.
      * sub_call IH GPrimary s1. lia.
    + pose proof (trim_start_len s).
      destruct (trim_start s) as [|c t]; simpl in *; [exact I|].
      destruct (c =? c_lpar).
      * sub_call IH GIff t. do_match [c_rpar] r; simpl; [lia|exact I].
      * destruct (is_upper c); simpl; [lia|exact I].
Qed.

Lemma parse_fuel_enough s : parse (parse_fuel s) GIff s <> RNoFuel.
Proof.
  intros E. pose proof (parse_measure (parse_fuel s) GIff s) as H.
  rewrite E in H. simpl in H. apply H. unfold parse_fuel. lia.
Qed.

End ParserFacts.

Module RoundTripFacts.
Import Logic Parser RoundTrip.

Lemma upper_not_ws c : is_upper c = true -> is_ws c = false.
Proof.
  unfold is_upper, is_ws. intros H. apply andb_prop in H as [H1 H2].
  apply Z.leb_le in H1. apply Z.leb_le in H2.
  repeat match goal with
  | |- context [Z.eqb ?a ?b] => replace (Z.eqb a b) with false by (symmetry; apply Z.eqb_neq; lia)
  end.
  replace (8192 <=? c) with false by (symmetry; apply Z.leb_gt; lia). reflexivity.
Qed.

Lemma fmt_head f p :
  letter_vars f = true -> exists c t, formatNode f p = c :: t /\ is_ws c = false.
Proof.
  revert p; induction f as [name|ch IH|[] l IHl r IHr]; intros p H; simpl in H.
  - destruct name as [|c [|d t]]; try discriminate.
    apply andb_prop in H as [H _]. exists c, []. split; [reflexivity|].
    apply upper_not_ws; exact H.
  - exists c_not, (formatNode ch 3). split; reflexivity.
  - apply andb_prop in H as [Hl _]. cbn [formatNode].
    destruct (precedence KAnd <? p).
    + eexists _, _; split; reflexivity.
    + destruct (IHl (precedence KAnd) Hl) as (c & t & E & W).
      rewrite E. eexists _, _; split; [reflexivity|exact W].
  - apply andb_prop in H as [Hl _]. cbn [formatNode].
    destruct (precedence KOr <? p).
    + eexists _, _; split; reflexivity.
    + destruct (IHl (precedence KOr) Hl) as (c & t & E & W).
      rewrite E. eexists _, _; split; [reflexivity|exact W].
  - eexists _, _; split; reflexivity.
  - eexists _, _; split; reflexivity.
Qed.

Lemma fmt_last f p :
  letter_vars f = true -> exists c t, formatNode f p = t ++ [c] /\ is_ws c = false.
Proof.
  revert p; induction f as [name|ch IH|[] l IHl r IHr]; intros p H; simpl in H.
  - destruct name as [|c [|d t]]; try discriminate.
    apply andb_prop in H as [H _]. exists c, []. split; [reflexivity|].
    apply upper_not_ws; exact H.
  - destruct (IH 3 H) as (c & t & E & W). exists c, (c_not :: t).
    cbn [formatNode]. rewrite E. split; [reflexivity|exact W].
  - apply andb_prop in H as [_ Hr]. cbn [formatNode].
    destruct (precedence KAnd <? p).
    + exists c_rpar, (c_lpar :: formatNode l (precedence KAnd) ++ [c_space; c_and; c_space]
                        ++ formatNode r (precedence KAnd)).
      split; [simpl; rewrite <- !app_assoc; reflexivity|reflexivity].
    + destruct (IHr (precedence KAnd) Hr) as (c & t & E & W).
      rewrite E. exists c, (formatNode l (precedence KAnd) ++ [c_space; c_and; c_space] ++ t).
      split; [rewrite <- !app_assoc; reflexivity|exact W].
  - apply andb_prop in H as [_ Hr]. cbn [formatNode].
    destruct (precedence KOr <? p).
    + exists c_rpar, (c_lpar :: formatNode l (precedence KOr) ++ [c_space; c_or; c_space]
                        ++ formatNode r (precedence KOr)).
      split; [simpl; rewrite <- !app_assoc; reflexivity|reflexivity].
    + destruct (IHr (precedence KOr) Hr) as (c & t & E & W).
      rewrite E. exists c, (formatNode l (precedence KOr) ++ [c_space; c_or; c_space] ++ t).
      split; [rewrite <- !app_assoc; reflexivity|exact W].
  - exists c_rpar, (c_lpar :: formatNode l 0 ++ [c_space; c_imp; c_space] ++ formatNode r 0).
    split; [simpl; rewrite <- !app_assoc; reflexivity|reflexivity].
  - exists c_rpar, (c_lpar :: formatNode l 0 ++ [c_space; c_iff; c_space] ++ formatNode r 0).
    split; [simpl; rewrite <- !app_assoc; reflexivity|reflexivity].
Qed.

Lemma trim_start_fmt f p x :
  letter_vars f = true -> trim_start (formatNode f p ++ x) = formatNode f p ++ x.
Proof.
  intros H. destruct (fmt_head f p H) as (c & t & E & W). rewrite E. simpl. rewrite W. reflexivity.
Qed.

Lemma fmt_0_1 f : formatNode f 0 = formatNode f 1.
Proof. destruct f as [|c|[] l r]; reflexivity. Qed.

Lemma and_chunks_fmt f :
  exists c1 cs, and_chunks f = c1 :: cs /\
    formatNode f 2 = formatNode c1 3 ++ List.concat (map (fun c => sep c_and ++ formatNode c 3) cs).
Proof.
  induction f as [name|ch IH|[] l IHl r IHr];
    try (eexists _, []; split; [reflexivity|simpl; rewrite app_nil_r; reflexivity]).
  destruct IHl as (c1 & cs & E1 & F1). destruct IHr as (d1 & ds & E2 & F2).
  exists c1, (cs ++ d1 :: ds). cbn [and_chunks]. rewrite E1, E2. split; [reflexivity|].
  change (formatNode (FBin KAnd l r) 2)
    with (formatNode l 2 ++ [c_space; c_and; c_space] ++ formatNode r 2).
  rewrite F1, F2, map_app, concat_app. simpl. rewrite <- !app_assoc. reflexivity.
Qed.

Lemma or_chunks_fmt f :
  exists c1 cs, or_chunks f = c1 :: cs /\
    formatNode f 1 = formatNode c1 2 ++ List.concat (map (fun c => sep c_or ++ formatNode c 2) cs).
Proof.
  induction f as [name|ch IH|[] l IHl r IHr];
    try (eexists _, []; split; [reflexivity|simpl; rewrite app_nil_r; reflexivity]).
  destruct IHl as (c1 & cs & E1 & F1). destruct IHr as (d1 & ds & E2 & F2).
  exists c1, (cs ++ d1 :: ds). cbn [or_chunks]. rewrite E1, E2. split; [reflexivity|].
  change (formatNode (FBin KOr l r) 1)
    with (formatNode l 1 ++ [c_space; c_or; c_space] ++ formatNode r 1).
  rewrite F1, F2, map_app, concat_app. simpl. rewrite <- !app_assoc. reflexivity.
Qed.

Lemma and_chunks_eval f a :
  evaluateFormula f a = forallb (fun c => evaluateFormula c a) (and_chunks f).
Proof.
  induction f as [name|ch IH|[] l IHl r IHr]; simpl; rewrite ?andb_true_r; try reflexivity.
  rewrite forallb_app, IHl, IHr. reflexivity.
Qed.

Lemma or_chunks_eval f a :
  evaluateFormula f a = existsb (fun c => evaluateFormula c a) (or_chunks f).
Proof.
  induction f as [name|ch IH|[] l IHl r IHr]; simpl; rewrite ?orb_false_r; try reflexivity.
  rewrite existsb_app, IHl, IHr. reflexivity.
Qed.

Lemma and_chunks_vars f : letter_vars f = true -> forallb letter_vars (and_chunks f) = true.
Proof.
  induction f as [name|ch IH|[] l IHl r IHr]; simpl; intros H; rewrite ?H; try reflexivity.
  apply andb_prop in H as [H1 H2]. rewrite forallb_app, IHl, IHr; auto.
Qed.

Lemma or_chunks_vars f : letter_vars f = true -> forallb letter_vars (or_chunks f) = true.
Proof.
  induction f as [name|ch IH|[] l IHl r IHr]; simpl; intros H; rewrite ?H; try reflexivity.
  apply andb_prop in H as [H1 H2]. rewrite forallb_app, IHl, IHr; auto.
Qed.

Lemma trim_start_idem s : trim_start (trim_start s) = trim_start s.
Proof.
  induction s as [|c t IH]; simpl; [reflexivity|].
  destruct (is_ws c) eqn:E; [exact IH|simpl; rewrite E; reflexivity].
Qed.

Lemma match_trim sym s : match_ sym (trim_start s) = match_ sym s.
Proof. unfold match_. rewrite trim_start_idem. reflexivity. Qed.

(** Every method starts by skipping white space. *)
Lemma parse_trim n g s : parse n g (trim_start s) = parse n g s.
Proof.
  revert g s; induction n as [|k IH]; intros g s; [reflexivity|].
  destruct g; cbn [parse]; rewrite ?IH, ?match_trim, ?trim_start_idem; reflexivity.
Qed.

Lemma parse_trim_eq n g a b : trim_start a = trim_start b -> parse n g a = parse n g b.
Proof. intros E. rewrite <- (parse_trim n g a), E, parse_trim. reflexivity. Qed.

Lemma match_false sym s : follow [sym] s = true -> match_ [sym] s = (false, trim_start s).
Proof.
  unfold follow, match_. destruct (trim_start s) as [|c t]; simpl; [reflexivity|].
  rewrite orb_false_r, Z.eqb_sym. intros H. apply negb_true_iff in H. rewrite H. reflexivity.
Qed.

Lemma match_sep op f p x :
  is_ws op = false -> letter_vars f = true ->
  match_ [op] (sep op ++ formatNode f p ++ x) = (true, formatNode f p ++ x).
Proof.
  intros W H. unfold match_, sep. simpl. rewrite W. simpl. rewrite Z.eqb_refl. simpl.
  rewrite trim_start_fmt by exact H. reflexivity.
Qed.

Lemma good_bind sem1 rest1 r k sem rest :
  Good sem1 rest1 r ->
  (forall t r', (forall a, evaluateFormula t a = sem1 a) -> trim_start r' = trim_start rest1 ->
                Good sem rest (k t r')) ->
  Good sem rest (bindR r k).
Proof. destruct r as [t r'| |]; simpl; auto. intros [H1 H2] K. apply K; auto. Qed.

Lemma good_ext sem1 sem2 rest r :
  (forall a, sem1 a = sem2 a) -> Good sem1 rest r -> Good sem2 rest r.
Proof.
  destruct r as [t r'| |]; simpl; auto. intros E [H1 H2]. split; auto.
  intros a. rewrite H1. apply E.
Qed.

Lemma good_rest sem rest1 rest2 r :
  trim_start rest1 = trim_start rest2 -> Good sem rest1 r -> Good sem rest2 r.
Proof. destruct r as [t r'| |]; simpl; auto. intros E [H1 H2]. split; congruence. Qed.

Lemma follow_weaken syms1 syms2 s :
  (forall c, In c syms1 -> In c syms2) -> follow syms2 s = true -> follow syms1 s = true.
Proof.
  unfold follow. destruct (trim_start s) as [|c t]; [reflexivity|].
  intros I H. apply negb_true_iff in H. apply negb_true_iff.
  destruct (existsb (Z.eqb c) syms1) eqn:E; [|reflexivity].
  apply existsb_exists in E as (d & Hd & Ed). apply Z.eqb_eq in Ed. subst d.
  assert (existsb (Z.eqb c) syms2 = true) as F.
  { apply existsb_exists. exists c. split; [apply I; exact Hd|apply Z.eqb_refl]. }
  congruence.
Qed.

Lemma follow_sep syms op x :
  existsb (Z.eqb op) syms = false -> is_ws op = false -> follow syms (sep op ++ x) = true.
Proof. intros E W. unfold follow, sep. simpl. rewrite W, E. reflexivity. Qed.

Lemma follow_trim syms s : follow syms (trim_start s) = follow syms s.
Proof. unfold follow. rewrite trim_start_idem. reflexivity. Qed.

Lemma match_op_fmt op f p x :
  is_ws op = false -> letter_vars f = true ->
  match_ [op] (op :: formatNode f p ++ x) = (true, formatNode f p ++ x).
Proof.
  intros W H. unfold match_. simpl. rewrite W. simpl. rewrite Z.eqb_refl. simpl.
  rewrite trim_start_fmt by exact H. reflexivity.
Qed.

Lemma follow_J_or cs rest :
  follow [c_and; c_or] rest = true ->
  follow [c_and] (List.concat (map (fun c => sep c_or ++ formatNode c 2) cs) ++ rest) = true.
Proof.
  intros H. destruct cs as [|c cs]; simpl.
  - eapply follow_weaken; [|exact H]. intros d Hd; simpl in *; tauto.
  - reflexivity.
Qed.

Lemma fmt3_imp l r rest :
  formatNode (FBin KImp l r) 3 ++ rest
  = c_lpar :: (formatNode l 1 ++ sep c_imp ++ formatNode r 1) ++ c_rpar :: rest.
Proof. cbn [formatNode]. rewrite !fmt_0_1. repeat progress (simpl; rewrite <- ?app_assoc). reflexivity. Qed.

Lemma fmt3_iff l r rest :
  formatNode (FBin KIff l r) 3 ++ rest
  = c_lpar :: (formatNode l 1 ++ sep c_iff ++ formatNode r 1) ++ c_rpar :: rest.
Proof. cbn [formatNode]. rewrite !fmt_0_1. repeat progress (simpl; rewrite <- ?app_assoc). reflexivity. Qed.

Lemma fmt3_andor k l r rest :
  (k = KAnd \/ k = KOr) ->
  formatNode (FBin k l r) 3 ++ rest
  = c_lpar :: formatNode (FBin k l r) 1 ++ c_rpar :: rest.
Proof. intros [-> | ->]; repeat progress (simpl; rewrite <- ?app_assoc); reflexivity. Qed.

(** [parsePrimary] on a parenthesised formula. *)
Lemma primary_paren k inner sem rest :
  Good sem (c_rpar :: rest) (parse k GIff (inner ++ c_rpar :: rest)) ->
  Good sem rest (parse (S k) GPrimary (c_lpar :: inner ++ c_rpar :: rest)).
Proof.
  intros H. cbn [parse]. simpl trim_start. cbv beta iota zeta.
  replace (c_lpar =? c_lpar) with true by reflexivity.
  apply (good_bind _ _ _ _ _ _ H). intros t r' Ht Hr.
  rewrite <- match_trim, Hr. simpl. split; [exact Ht|apply trim_start_idem].
Qed.

Lemma not_paren k inner sem rest :
  Good sem (c_rpar :: rest) (parse k GIff (inner ++ c_rpar :: rest)) ->
  Good sem rest (parse (S (S k)) GNot (c_lpar :: inner ++ c_rpar :: rest)).
Proof.
  intros H. cbn [parse]. rewrite match_false by reflexivity. cbv beta iota zeta.
  simpl trim_start. apply primary_paren. exact H.
Qed.

Lemma follow_rpar syms :
  existsb (Z.eqb c_rpar) syms = false -> forall rest, follow syms (c_rpar :: rest) = true.
Proof. intros E rest. unfold follow. simpl. rewrite E. reflexivity. Qed.

Ltac incl_tac := let d := fresh in let Hd := fresh in intros d Hd; simpl in *; tauto.

(** The step of the induction: the bound [S k], knowing every smaller one. *)
Lemma printed_ok_step k :
  (forall m, (m <= k)%nat -> printed_ok m) -> printed_ok (S k).
Proof.
  intros IH.
  destruct (IH k (le_n k)) as (NotC & AndLoopC & AndC & OrLoopC & OrC & ImpC & IffC).
  split; [|split; [|split; [|split; [|split; [|split]]]]].
  - (* parseNot *)
    intros f rest Hf. destruct f as [name|ch|[] l r].
    + destruct name as [|c [|d t]]; try discriminate. simpl in Hf.
      apply andb_prop in Hf as [Hu Hn].
      assert (W : is_ws c = false) by (apply upper_not_ws; exact Hu).
      cbn [parse]. rewrite match_false.
      2:{ unfold follow. simpl. rewrite W. simpl.
          unfold is_upper in Hu. apply andb_prop in Hu as [H1 H2].
          apply Z.leb_le in H1. apply Z.leb_le in H2.
          replace (c =? c_not) with false by (symmetry; apply Z.eqb_neq; unfold c_not; lia).
          reflexivity. }
      cbv beta iota zeta. simpl trim_start. rewrite W.
      destruct k as [|k']; [exact I|]. cbn [parse]. simpl trim_start. rewrite W.
      cbv beta iota zeta.
      unfold is_upper in Hu. apply andb_prop in Hu as [H1 H2].
      apply Z.leb_le in H1. apply Z.leb_le in H2.
      replace (c =? c_lpar) with false by (symmetry; apply Z.eqb_neq; unfold c_lpar; lia).
      unfold is_upper. replace (65 <=? c) with true by (symmetry; apply Z.leb_le; lia).
      replace (c <=? 90) with true by (symmetry; apply Z.leb_le; lia).
      simpl. split; reflexivity.
    + simpl in Hf. cbn [formatNode]. cbn [parse]. simpl app.
      rewrite match_op_fmt by (reflexivity || exact Hf). cbv beta iota zeta.
      apply (good_bind _ _ _ _ _ _ (NotC ch rest Hf)). intros t r' Ht Hr.
      simpl. split; [intros a; rewrite Ht; reflexivity|exact Hr].
    + rewrite fmt3_andor by auto. destruct k as [|k1]; [exact I|].
      apply not_paren. destruct (IH k1 ltac:(lia)) as (_ & _ & _ & _ & _ & _ & IffC1).
      apply IffC1; [exact Hf|apply follow_rpar; reflexivity].
    + rewrite fmt3_andor by auto. destruct k as [|k1]; [exact I|].
      apply not_paren. destruct (IH k1 ltac:(lia)) as (_ & _ & _ & _ & _ & _ & IffC1).
      apply IffC1; [exact Hf|apply follow_rpar; reflexivity].
    + simpl in Hf. apply andb_prop in Hf as [Hl Hr].
      rewrite fmt3_imp. destruct k as [|k1]; [exact I|].
      apply not_paren. rewrite <- !app_assoc.
      destruct k1 as [|k3]; [exact I|]. cbn [parse].
      apply good_bind with (sem1 := evaluateFormula (FBin KImp l r)) (rest1 := c_rpar :: rest).
      * destruct k3 as [|k4]; [exact I|]. cbn [parse].
        destruct (IH k4 ltac:(lia)) as (_ & _ & _ & _ & OrC4 & _ & _).
        apply good_bind with (sem1 := evaluateFormula l)
                             (rest1 := sep c_imp ++ formatNode r 1 ++ c_rpar :: rest).
        { apply OrC4; [exact Hl|apply follow_sep; reflexivity]. }
        intros t1 r1 Ht1 Hr1. rewrite (parse_trim_eq _ _ _ _ Hr1).
        destruct k4 as [|k5]; [exact I|]. cbn [parse].
        rewrite match_sep by (reflexivity || exact Hr). cbv beta iota zeta.
        destruct (IH k5 ltac:(lia)) as (_ & _ & _ & _ & OrC5 & _ & _).
        apply good_bind with (sem1 := evaluateFormula r) (rest1 := c_rpar :: rest).
        { apply OrC5; [exact Hr|apply follow_rpar; reflexivity]. }
        intros t2 r2 Ht2 Hr2. rewrite (parse_trim_eq _ _ _ _ Hr2).
        destruct k5 as [|k6]; [exact I|]. cbn [parse].
        rewrite match_false by reflexivity. cbv beta iota zeta.
        simpl. split; [intros a; rewrite Ht1, Ht2; reflexivity|reflexivity].
      * intros t r' Ht Hr'. rewrite (parse_trim_eq _ _ _ _ Hr').
        destruct k3 as [|k4]; [exact I|]. cbn [parse].
        rewrite match_false by reflexivity. cbv beta iota zeta.
        simpl. split; [exact Ht|reflexivity].
    + simpl in Hf. apply andb_prop in Hf as [Hl Hr].
      rewrite fmt3_iff. destruct k as [|k1]; [exact I|].
      apply not_paren. rewrite <- !app_assoc.
      destruct k1 as [|k3]; [exact I|]. cbn [parse].
      destruct (IH k3 ltac:(lia)) as (_ & _ & _ & _ & _ & ImpC3 & _).
      apply good_bind with (sem1 := evaluateFormula l)
                           (rest1 := sep c_iff ++ formatNode r 1 ++ c_rpar :: rest).
      { apply ImpC3; [exact Hl|apply follow_sep; reflexivity]. }
      intros t1 r1 Ht1 Hr1. rewrite (parse_trim_eq _ _ _ _ Hr1).
      destruct k3 as [|k4]; [exact I|]. cbn [parse].
      rewrite match_sep by (reflexivity || exact Hr). cbv beta iota zeta.
      destruct (IH k4 ltac:(lia)) as (_ & _ & _ & _ & _ & ImpC4 & _).
      apply good_bind with (sem1 := evaluateFormula r) (rest1 := c_rpar :: rest).
      { apply ImpC4; [exact Hr|apply follow_rpar; reflexivity]. }
      intros t2 r2 Ht2 Hr2. rewrite (parse_trim_eq _ _ _ _ Hr2).
      destruct k4 as [|k5]; [exact I|]. cbn [parse].
      rewrite match_false by reflexivity. cbv beta iota zeta.
      simpl. split; [intros a; rewrite Ht1, Ht2; reflexivity|reflexivity].
  - (* the loop of parseAnd *)
    intros acc cs rest Hcs Hfol. destruct cs as [|c cs'].
    + cbn [map List.concat app]. cbn [parse]. rewrite match_false by exact Hfol.
      cbv beta iota zeta. simpl. split; [intros a; rewrite andb_true_r; reflexivity|].
      apply trim_start_idem.
    + simpl in Hcs. apply andb_prop in Hcs as [Hc Hcs'].
      cbn [map List.concat]. rewrite <- !app_assoc. cbn [parse].
      rewrite match_sep by (reflexivity || exact Hc). cbv beta iota zeta.
      apply (good_bind _ _ _ _ _ _ (NotC c _ Hc)). intros t r' Ht Hr.
      rewrite (parse_trim_eq _ _ _ _ Hr).
      eapply good_ext; [|apply (AndLoopC (FBin KAnd acc t) cs' rest Hcs' Hfol)].
      intros a. simpl. rewrite Ht, andb_assoc. reflexivity.
  - (* parseAnd *)
    intros f rest Hf Hfol. destruct (and_chunks_fmt f) as (c1 & cs & E & F).
    pose proof (and_chunks_vars f Hf) as Hv. rewrite E in Hv. simpl in Hv.
    apply andb_prop in Hv as [Hc1 Hcs].
    rewrite F, <- app_assoc. cbn [parse].
    apply (good_bind _ _ _ _ _ _ (NotC c1 _ Hc1)). intros t r' Ht Hr.
    rewrite (parse_trim_eq _ _ _ _ Hr).
    eapply good_ext; [|apply (AndLoopC t cs rest Hcs Hfol)].
    intros a. rewrite (and_chunks_eval f a), E. simpl. rewrite Ht. reflexivity.
  - (* the loop of parseOr *)
    intros acc cs rest Hcs Hfol. destruct cs as [|c cs'].
    + cbn [map List.concat app]. cbn [parse].
      rewrite match_false by (eapply follow_weaken; [|exact Hfol]; incl_tac).
      cbv beta iota zeta. simpl. split; [intros a; rewrite orb_false_r; reflexivity|].
      apply trim_start_idem.
    + simpl in Hcs. apply andb_prop in Hcs as [Hc Hcs'].
      cbn [map List.concat]. rewrite <- !app_assoc. cbn [parse].
      rewrite match_sep by (reflexivity || exact Hc). cbv beta iota zeta.
      apply (good_bind _ _ _ _ _ _ (AndC c _ Hc (follow_J_or cs' rest Hfol))).
      intros t r' Ht Hr.
      rewrite (parse_trim_eq _ _ _ _ Hr).
      eapply good_ext; [|apply (OrLoopC (FBin KOr acc t) cs' rest Hcs' Hfol)].
      intros a. simpl. rewrite Ht, orb_assoc. reflexivity.
  - (* parseOr *)
    intros f rest Hf Hfol. destruct (or_chunks_fmt f) as (c1 & cs & E & F).
    pose proof (or_chunks_vars f Hf) as Hv. rewrite E in Hv. simpl in Hv.
    apply andb_prop in Hv as [Hc1 Hcs].
    rewrite F, <- app_assoc. cbn [parse].
    apply (good_bind _ _ _ _ _ _ (AndC c1 _ Hc1 (follow_J_or cs rest Hfol))).
    intros t r' Ht Hr.
    rewrite (parse_trim_eq _ _ _ _ Hr).
    eapply good_ext; [|apply (OrLoopC t cs rest Hcs Hfol)].
    intros a. rewrite (or_chunks_eval f a), E. simpl. rewrite Ht. reflexivity.
  - (* parseImp *)
    intros f rest Hf Hfol. cbn [parse].
    assert (Hfol' : follow [c_and; c_or] rest = true)
      by (eapply follow_weaken; [|exact Hfol]; incl_tac).
    apply (good_bind _ _ _ _ _ _ (OrC f rest Hf Hfol')). intros t r' Ht Hr.
    rewrite (parse_trim_eq _ _ _ _ Hr).
    destruct k as [|k']; [exact I|]. cbn [parse].
    rewrite match_false by (eapply follow_weaken; [|exact Hfol]; incl_tac).
    cbv beta iota zeta. simpl. split; [exact Ht|apply trim_start_idem].
  - (* parseIff *)
    intros f rest Hf Hfol. cbn [parse].
    assert (Hfol' : follow [c_and; c_or; c_imp] rest = true)
      by (eapply follow_weaken; [|exact Hfol]; incl_tac).
    apply (good_bind _ _ _ _ _ _ (ImpC f rest Hf Hfol')). intros t r' Ht Hr.
    rewrite (parse_trim_eq _ _ _ _ Hr).
    destruct k as [|k']; [exact I|]. cbn [parse].
    rewrite match_false by (eapply follow_weaken; [|exact Hfol]; incl_tac).
    cbv beta iota zeta. simpl. split; [exact Ht|apply trim_start_idem].
Qed.

Lemma printed_ok_all n : printed_ok n.
Proof.
  assert (H : forall n m, (m <= n)%nat -> printed_ok m).
  { induction n0 as [|k IH]; intros m Hm.
    - replace m with 0%nat by lia.
      repeat split; intros; exact I.
    - destruct (Nat.eq_dec m (S k)) as [->|Hne].
      + apply printed_ok_step. exact IH.
      + apply IH. lia. }
  exact (H n n (le_n n)).
Qed.


(** ** The printed string is left alone by [trim] and [normalizeSymbols] *)

Lemma quiet_cons_nl c s :
  bad_char c = false -> is_letter c = false -> quiet s = true -> quiet (c :: s) = true.
Proof.
  intros B L Q. simpl. rewrite B, L, Q. destruct s; reflexivity.
Qed.

Lemma quiet_app_nl a c s :
  quiet a = true -> quiet (c :: s) = true -> is_letter c = false -> quiet (a ++ c :: s) = true.
Proof.
  induction a as [|x a IH]; intros Qa Qs L; [exact Qs|].
  simpl in Qa |- *. apply andb_prop in Qa as [Qa Qt]. apply andb_prop in Qa as [Bx Ax].
  rewrite Bx, IH by assumption. destruct a as [|y a]; simpl.
  - rewrite L, andb_false_r. reflexivity.
  - simpl in Ax. rewrite Ax. reflexivity.
Qed.

Lemma quiet_fmt f p : letter_vars f = true -> quiet (formatNode f p) = true.
Proof.
  revert p; induction f as [name|ch IH|[] l IHl r IHr]; intros p H; simpl in H.
  - destruct name as [|c [|d t]]; try discriminate. apply andb_prop in H as [Hu Hn].
    simpl. rewrite andb_true_r. apply negb_true_iff in Hn. apply Z.eqb_neq in Hn.
    unfold is_upper in Hu. apply andb_prop in Hu as [H1 H2].
    apply Z.leb_le in H1. apply Z.leb_le in H2.
    unfold bad_char.
    repeat match goal with
    | |- context [Z.eqb c ?b] => replace (Z.eqb c b) with false by (symmetry; apply Z.eqb_neq; lia)
    end. reflexivity.
  - cbn [formatNode]. apply quiet_cons_nl; [reflexivity|reflexivity|apply IH; exact H].
  - apply andb_prop in H as [Hl Hr]. cbn [formatNode].
    assert (Q : quiet (formatNode l (precedence KAnd) ++ [c_space; c_and; c_space]
                       ++ formatNode r (precedence KAnd)) = true).
    { apply quiet_app_nl; [apply IHl; exact Hl| |reflexivity].
      repeat (apply quiet_cons_nl; [reflexivity|reflexivity|]). apply IHr; exact Hr. }
    destruct (precedence KAnd <? p); [|exact Q].
    apply quiet_cons_nl; [reflexivity|reflexivity|]. apply quiet_app_nl; auto.
  - apply andb_prop in H as [Hl Hr]. cbn [formatNode].
    assert (Q : quiet (formatNode l (precedence KOr) ++ [c_space; c_or; c_space]
                       ++ formatNode r (precedence KOr)) = true).
    { apply quiet_app_nl; [apply IHl; exact Hl| |reflexivity].
      repeat (apply quiet_cons_nl; [reflexivity|reflexivity|]). apply IHr; exact Hr. }
    destruct (precedence KOr <? p); [|exact Q].
    apply quiet_cons_nl; [reflexivity|reflexivity|]. apply quiet_app_nl; auto.
  - apply andb_prop in H as [Hl Hr]. cbn [formatNode].
    apply quiet_cons_nl; [reflexivity|reflexivity|].
    apply quiet_app_nl; [apply IHl; exact Hl| |reflexivity].
    repeat (apply quiet_cons_nl; [reflexivity|reflexivity|]).
    apply quiet_app_nl; [apply IHr; exact Hr|reflexivity|reflexivity].
  - apply andb_prop in H as [Hl Hr]. cbn [formatNode].
    apply quiet_cons_nl; [reflexivity|reflexivity|].
    apply quiet_app_nl; [apply IHl; exact Hl| |reflexivity].
    repeat (apply quiet_cons_nl; [reflexivity|reflexivity|]).
    apply quiet_app_nl; [apply IHr; exact Hr|reflexivity|reflexivity].
Qed.

Lemma quiet_nth s i c : quiet s = true -> nth_error s i = Some c -> bad_char c = false.
Proof.
  revert i; induction s as [|x s IH]; intros [|i] Q E; simpl in *; try discriminate.
  - injection E as <-. apply andb_prop in Q as [Q _]. apply andb_prop in Q as [Q _].
    apply negb_true_iff. exact Q.
  - apply andb_prop in Q as [_ Q]. exact (IH i Q E).
Qed.

Lemma quiet_adj s i a b :
  quiet s = true -> nth_error s i = Some a -> nth_error s (S i) = Some b ->
  is_letter a && is_letter b = false.
Proof.
  revert i; induction s as [|x s IH]; intros [|i] Q Ea Eb; simpl in *; try discriminate.
  - injection Ea as <-. destruct s as [|y s]; [discriminate|]. simpl in Eb.
    injection Eb as <-. apply andb_prop in Q as [Q _]. apply andb_prop in Q as [_ Q].
    apply negb_true_iff. exact Q.
  - apply andb_prop in Q as [_ Q]. exact (IH i Q Ea Eb).
Qed.

Lemma nth_error_firstn_some n (l : jsstr) k x :
  nth_error (firstn n l) k = Some x -> nth_error l k = Some x.
Proof.
  revert l k; induction n as [|n IH]; intros [|y l] [|k] E; simpl in *; try discriminate; auto.
Qed.

Lemma nth_error_skipn' i (l : jsstr) k : nth_error (skipn i l) k = nth_error l (i + k).
Proof. revert l; induction i as [|i IH]; intros [|y l]; simpl; auto. destruct k; reflexivity. Qed.

Lemma slice_nth s i j k x : nth_error (slice s i j) k = Some x -> nth_error s (i + k) = Some x.
Proof. unfold slice. intros E. apply nth_error_firstn_some in E. rewrite nth_error_skipn' in E. exact E. Qed.

Lemma lower_letter c : is_letter (Normalize.lower_unit c) = is_letter c.
Proof.
  unfold Normalize.lower_unit, is_letter, is_upper, is_lower.
  destruct (65 <=? c) eqn:A; destruct (c <=? 90) eqn:B; simpl; rewrite ?A, ?B; simpl;
    try reflexivity.
  apply Z.leb_le in A. apply Z.leb_le in B.
  replace (65 <=? c + 32) with true by (symmetry; apply Z.leb_le; lia).
  replace (c + 32 <=? 90) with false by (symmetry; apply Z.leb_gt; lia).
  replace (97 <=? c + 32) with true by (symmetry; apply Z.leb_le; lia).
  replace (c + 32 <=? 122) with true by (symmetry; apply Z.leb_le; lia).
  reflexivity.
Qed.

Lemma slice_lower_false s i j w :
  quiet s = true -> two_letters w = true ->
  list_eqb (slice (Normalize.toLowerCase s) i j) w = false.
Proof.
  intros Q T. destruct (list_eqb _ _) eqn:E; [|reflexivity].
  apply StringFacts.list_eqb_eq in E.
  destruct w as [|a [|b w]]; try discriminate. simpl in T.
  assert (Ea := slice_nth (Normalize.toLowerCase s) i j 0 a).
  assert (Eb := slice_nth (Normalize.toLowerCase s) i j 1 b).
  rewrite E in Ea, Eb. specialize (Ea eq_refl). specialize (Eb eq_refl).
  unfold Normalize.toLowerCase in Ea, Eb. rewrite nth_error_map in Ea, Eb.
  destruct (nth_error s (i + 0)) as [a0|] eqn:Ea0; [|discriminate].
  destruct (nth_error s (i + 1)) as [b0|] eqn:Eb0; [|discriminate].
  simpl in Ea, Eb. injection Ea as <-. injection Eb as <-.
  rewrite !lower_letter in T. rewrite Nat.add_0_r in Ea0. rewrite Nat.add_1_r in Eb0.
  rewrite (quiet_adj s i a0 b0 Q Ea0 Eb0) in T. discriminate.
Qed.

Lemma slice_bad_false s i j w :
  quiet s = true -> bad_head w = true -> list_eqb (slice s i j) w = false.
Proof.
  intros Q B. destruct (list_eqb _ _) eqn:E; [|reflexivity].
  apply StringFacts.list_eqb_eq in E.
  destruct w as [|a w]; try discriminate. simpl in B.
  assert (Ea := slice_nth s i j 0 a). rewrite E in Ea. specialize (Ea eq_refl).
  rewrite (quiet_nth s _ a Q Ea) in B. discriminate.
Qed.

Lemma norm_action_quiet s i :
  quiet s = true -> (i < List.length s)%nat ->
  Normalize.norm_action s (Normalize.toLowerCase s) i = Normalize.Copy.
Proof.
  intros Q L. unfold Normalize.norm_action, Normalize.ahead. cbv zeta.
  repeat (rewrite slice_lower_false; [|exact Q|reflexivity]).
  repeat (rewrite slice_bad_false; [|exact Q|reflexivity]).
  cbv iota beta. simpl andb. simpl orb. cbv iota beta.
  destruct (nth_error s i) as [c|] eqn:E; [|reflexivity].
  pose proof (quiet_nth s i c Q E) as B. unfold bad_char in B.
  repeat rewrite orb_false_iff in B.
  destruct B as [[[[[[[B1 B2] B3] B4] B5] B6] B7] B8].
  rewrite B1, B2, B3, B4, B5, B6, B8. reflexivity.
Qed.

Lemma skipn_nth_cons (s : jsstr) i x :
  nth_error s i = Some x -> skipn i s = x :: skipn (S i) s.
Proof.
  revert s; induction i as [|i IH]; intros [|y s] E; simpl in *; try discriminate.
  - injection E as ->. reflexivity.
  - apply IH. exact E.
Qed.

Lemma trace_copy s lower fuel i :
  (forall k, (k < List.length s)%nat -> Normalize.norm_action s lower k = Normalize.Copy) ->
  (List.length s <= i + fuel)%nat ->
  List.concat (map (Normalize.emitted s) (Normalize.trace s lower fuel i)) = skipn i s.
Proof.
  intros C. revert i; induction fuel as [|k IH]; intros i L; simpl.
  - symmetry. apply skipn_all2. lia.
  - destruct (i <? List.length s)%nat eqn:E.
    + apply Nat.ltb_lt in E. rewrite (C i E). simpl.
      destruct (nth_error s i) as [x|] eqn:N.
      * rewrite (skipn_nth_cons s i x N). rewrite Nat.add_1_r, IH by lia.
        unfold Normalize.emitted. simpl. rewrite N. reflexivity.
      * apply nth_error_None in N. lia.
    + apply Nat.ltb_ge in E. symmetry. apply skipn_all2. lia.
Qed.

Lemma normalizeSymbols_quiet s : quiet s = true -> Normalize.normalizeSymbols s = s.
Proof.
  intros Q. unfold Normalize.normalizeSymbols, Normalize.normalizeWithCursor. simpl.
  destruct (NormalizeFacts.run_trace s (Normalize.toLowerCase s) (Z.of_nat (List.length s))
              (List.length s) {| Normalize.normalized := []; Normalize.newCursor := Z.of_nat (List.length s);
                                 Normalize.idx := 0 |}) as [H _].
  rewrite H. simpl. rewrite trace_copy; [reflexivity| |lia].
  intros k Hk. apply norm_action_quiet; assumption.
Qed.

Lemma trim_fmt f p : letter_vars f = true -> trim (formatNode f p) = formatNode f p.
Proof.
  intros H. unfold trim.
  pose proof (trim_start_fmt f p [] H) as E. rewrite app_nil_r in E. rewrite E.
  destruct (fmt_last f p H) as (c & t & F & W). rewrite F, rev_app_distr. simpl.
  rewrite W. simpl. rewrite rev_involutive. reflexivity.
Qed.

(** Printing then re-parsing: for a formula whose variables are single
    upper-case letters other than [U], [parseFormula(astToString(f))]
    returns a tree with the truth table of [f]. *)
Theorem parseFormula_astToString (f : FormulaNode) (Hf : letter_vars f = true) :
  exists t, parseFormula (astToString f) = Ok t /\
            forall a, evaluateFormula t a = evaluateFormula f a.
Proof.
  unfold parseFormula, astToString. rewrite trim_fmt by exact Hf.
  rewrite normalizeSymbols_quiet by (apply quiet_fmt; exact Hf).
  unfold FormulaParser_parse. rewrite fmt_0_1.
  destruct (printed_ok_all (parse_fuel (formatNode f 1))) as (_ & _ & _ & _ & _ & _ & IffC).
  pose proof (IffC f [] Hf eq_refl) as G. rewrite app_nil_r in G.
  pose proof (ParserFacts.parse_fuel_enough (formatNode f 1)) as NF.
  destruct (parse (parse_fuel (formatNode f 1)) GIff (formatNode f 1)) as [t r'| m |];
    simpl in G; [|contradiction|contradiction].
  destruct G as [Ht Hr]. rewrite Hr. exists t. split; [reflexivity|exact Ht].
Qed.

Lemma parseFormula_astToString_witness :
  letter_vars (FBin KIff (FBin KAnd (FVar [65%Z]) (FVar [66])) (FNot (FVar [67]))) = true /\
  exists t, parseFormula (astToString (FBin KIff (FBin KAnd (FVar [65%Z]) (FVar [66]))
                                                 (FNot (FVar [67])))) = Ok t /\
            forall a, evaluateFormula t a
                      = evaluateFormula (FBin KIff (FBin KAnd (FVar [65%Z]) (FVar [66]))
                                                   (FNot (FVar [67]))) a.
Proof.
  split; [reflexivity|]. apply parseFormula_astToString. reflexivity.
Defined.

(** C10 (failing input): the formula consisting of the variable [U] (an
    upper-case letter, as the grammar [primary → [A-Z]] allows) prints as
    ["U"], which [normalizeSymbols] turns into ["Ω"], so re-parsing throws
    [Unerwartetes Symbol "Ω"] instead of returning a formula. *)
Lemma parseFormula_astToString_U :
  is_upper 85 = true /\ astToString (FVar (u "U")) = [85] /\
  parseFormula (astToString (FVar (u "U"))) = Err (msg_symbol 937).
Proof. split; [reflexivity|split; [reflexivity|vm_compute; reflexivity]]. Qed.

End RoundTripFacts.

Module SetFacts.
Import SetLogic.

(** C6: the laws of De Morgan, difference, symmetric difference, complement
    ((A∩B)^c ≡ A^c∪B^c, (A∪B)^c ≡ A^c∩B^c, A∖B ≡ A∩B^c, AΔB ≡ (A∖B)∪(B∖A),
    A∩A^c ≡ ∅, A∪A^c ≡ Ω) are accepted by [areSetExprEquivalent];
    [isSubset (A∩B) A] and [isDisjoint A (A^c)] hold and [isDisjoint A B]
    does not. ∅ and Ω parse to the constants false and true. *)
Theorem set_identities :
  let A := SVar VA in
  let B := SVar VB in
  areSetExprEquivalent (SNot (SInter A B)) (SUnion (SNot A) (SNot B)) = true /\
  areSetExprEquivalent (SNot (SUnion A B)) (SInter (SNot A) (SNot B)) = true /\
  areSetExprEquivalent (SDiff A B) (SInter A (SNot B)) = true /\
  areSetExprEquivalent (SSym A B) (SUnion (SDiff A B) (SDiff B A)) = true /\
  areSetExprEquivalent (SInter A (SNot A)) (SConst false) = true /\
  areSetExprEquivalent (SUnion A (SNot A)) (SConst true) = true /\
  isSubset (SInter A B) A = true /\
  isDisjoint A (SNot A) = true /\
  isDisjoint A B = false.
Proof. vm_compute. repeat split. Qed.

End SetFacts.

Module TrigFacts.
Import JSNumber TrigCore.

(** The integer reading of the Euclidean loop computes [Z.gcd] (or 1 for
    [gcd(0, 0)]) when its fuel exceeds [y]. *)
Lemma gcd_loop_Z (k : nat) (x y : Z) :
  0 <= x -> 0 <= y -> (Z.to_nat y < k)%nat ->
  gcd_loop k x y = Ret (if Z.gcd x y =? 0 then 1 else Z.gcd x y).
Proof.
  revert x y; induction k as [|k IH]; intros x y Hx Hy Hk; [lia|].
  cbn [gcd_loop js_eqb js_of_Z js_mod js_truthy JSNum_Z].
  destruct (Z.eqb_spec y 0) as [->|Hy0]; cbn [negb].
  - rewrite Z.gcd_0_r, Z.abs_eq by exact Hx.
    destruct (Z.eqb_spec x 0); reflexivity.
  - pose proof (Z.rem_bound_abs x y Hy0) as Hb.
    pose proof (Z.rem_nonneg x y Hy0 Hx) as Hr.
    rewrite IH by (rewrite ?Z.abs_eq in Hb by lia; lia).
    rewrite Z.gcd_comm, Z.gcd_rem, (Z.gcd_comm y x) by exact Hy0. reflexivity.
Qed.

Lemma gcd_Z (a b : Z) : b <> 0 -> gcd a b = Ret (Z.gcd a b) /\ 0 < Z.gcd a b.
Proof.
  intros Hb. unfold gcd. cbn [gcd_fuel js_abs JSNum_Z].
  rewrite gcd_loop_Z by lia.
  rewrite Z.gcd_abs_l, Z.gcd_abs_r.
  assert (0 < Z.gcd a b).
  { pose proof (Z.gcd_nonneg a b). destruct (Z.eq_dec (Z.gcd a b) 0) as [E|]; [|lia].
    apply Z.gcd_eq_0 in E. lia. }
  destruct (Z.eqb_spec (Z.gcd a b) 0); [lia|]. split; [reflexivity | exact H].
Qed.

Lemma normRational_Z (p q : Z) : q <> 0 ->
  exists n d, normRational {| rat_n := p; rat_d := q |} = Ret {| rat_n := n; rat_d := d |}
              /\ 0 < d /\ Z.gcd n d = 1.
Proof.
  intros Hq. unfold normRational.
  cbn [rat_n rat_d js_eqb js_ltb js_of_Z js_mul js_abs js_div JSNum_Z].
  destruct (Z.eqb_spec q 0) as [|_]; [contradiction|].
  set (n := p * (if q <? 0 then -1 else 1)).
  destruct (gcd_Z n (Z.abs q)) as [G Gpos]; [lia|].
  rewrite G. cbn [obind].
  eexists; eexists; split; [reflexivity|]. split.
  - apply Z.div_str_pos. split; [exact Gpos|].
    apply Z.divide_pos_le; [lia|]. apply Z.gcd_divide_r.
  - apply Z.gcd_div_gcd; [lia | reflexivity].
Qed.

(** Reduction modulo [2d] keeps a fraction reduced. *)
Lemma gcd_rem_2d (n d : Z) : 0 < d -> Z.gcd (Z.rem n (d * 2)) d = Z.gcd n d.
Proof.
  intros Hd. pose proof (Z.quot_rem' n (d * 2)) as E.
  rewrite (Z.gcd_comm (Z.rem _ _)), (Z.gcd_comm n).
  replace n with (Z.rem n (d * 2) + (2 * Z.quot n (d * 2)) * d) at 2 by lia.
  rewrite Z.gcd_add_mult_diag_r. reflexivity.
Qed.

(** C7 (amended): on integer inputs, [normalizeAngle] maps a degree value
    into [0, 360) and a radian multiple p/q with q <> 0 to a reduced p'/q'
    with q' > 0 and p' in [0, 2q'); with q = 0 it throws 'Denominator 0';
    [normalizeAngle({kind:'deg', value:-30})] is 330, also in binary64. *)
Theorem normalizeAngle_integer (v p q : Z) (Hq : q <> 0) :
  (exists v', normalizeAngle (Deg v) = Ret (Deg v') /\ 0 <= v' < 360) /\
  (exists p' q', normalizeAngle (Rad p q) = Ret (Rad p' q')
                 /\ 0 < q' /\ Z.gcd p' q' = 1 /\ 0 <= p' < 2 * q') /\
  normalizeAngle (Rad p 0) = Throw (u "Denominator 0") /\
  normalizeAngle (Deg (-30)) = Ret (Deg 330) /\
  normalizeAngle (Deg (of_Z (-30))) = Ret (Deg (of_Z 330)).
Proof.
  split; [|split; [|split; [|split]]].
  - cbn [normalizeAngle js_mod js_ltb js_add js_of_Z JSNum_Z].
    pose proof (Z.rem_bound_abs v 360 ltac:(lia)) as B.
    destruct (Z.ltb_spec (Z.rem v 360) 0); eexists; (split; [reflexivity|]); lia.
  - destruct (normRational_Z p q Hq) as (n & d & E & Hd & G).
    unfold normalizeAngle. rewrite E.
    cbn [obind rat_n rat_d js_mod js_ltb js_add js_mul js_of_Z JSNum_Z].
    pose proof (Z.rem_bound_abs n (d * 2) ltac:(lia)) as B.
    pose proof (gcd_rem_2d n d Hd) as G2.
    destruct (Z.ltb_spec (Z.rem n (d * 2)) 0); do 2 eexists; (split; [reflexivity|]);
      (split; [exact Hd|]); (split; [|lia]).
    + rewrite Z.gcd_comm. replace (Z.rem n (d * 2) + d * 2) with (Z.rem n (d * 2) + 2 * d) by lia.
      rewrite Z.gcd_add_mult_diag_r, Z.gcd_comm, G2. exact G.
    + rewrite G2. exact G.
  - reflexivity.
  - reflexivity.
  - vm_compute. reflexivity.
Qed.

(** The witness of [normalizeAngle_integer], at -30 degrees and -7/-6. *)
Lemma normalizeAngle_integer_witness :
  normalizeAngle (Rad (-7) (-6)) = Ret (Rad 7 6) /\
  exists v', normalizeAngle (Deg (-30)) = Ret (Deg v') /\ 0 <= v' < 360.
Proof.
  split; [reflexivity|].
  destruct (normalizeAngle_integer (-30) (-7) (-6) ltac:(lia)) as [D _]. exact D.
Defined.

(** C7: a degree angle of -1e-20 is normalized to 360, outside [0, 360):
    [-1e-20 % 360] is -1e-20 and [-1e-20 + 360] rounds to 360. *)
Lemma normalizeAngle_tiny_negative :
  normalizeAngle (Deg (lit (-1) (-20))) = Ret (Deg (of_Z 360)) /\
  normalizeAngle (Rad (of_Z 1) (of_Z 0)) = Throw (u "Denominator 0").
Proof. vm_compute. split; reflexivity. Qed.

End TrigFacts.

Module ExactFacts.
Import JSNumber TrigCore.

(** C3: at 45-degree-type angles sin and cos are both ±√2/2: [Math.sin] and
    [Math.cos] of π/4 are the doubles 0.7071067811865475 and
    0.7071067811865476, both classified by [valueForSpecial] as
    [sqrt(2)/2]; [tanFromExact] returns undef for every such pair, not ±1. *)
Lemma tanFromExact_45_undef :
  valueForSpecial (StringToNumber (u "0.7071067811865475")) 1 = Ret (ESqrt 2 1 true) /\
  valueForSpecial (StringToNumber (u "0.7071067811865476")) 1 = Ret (ESqrt 2 1 true) /\
  tanFromExact (ESqrt 2 1 true) (ESqrt 2 1 true) = EUndef /\
  tanFromExact (ESqrt 2 1 true) (ESqrt 2 (-1) true) = EUndef /\
  tanFromExact (ESqrt 2 (-1) true) (ESqrt 2 (-1) true) = EUndef /\
  tanFromExact (ESqrt 2 (-1) true) (ESqrt 2 1 true) = EUndef.
Proof. vm_compute. repeat split. Qed.

End ExactFacts.

Module ParseNullFacts.
Import JSNumber TrigCore SetRational.

Lemma gcd_loop_nan (k : nat) : gcd_loop k NaN NaN = Hang.
Proof. induction k as [|k IH]; [reflexivity|]. simpl. exact IH. Qed.

(** C8: [gcd(Infinity, 1)], which [parseAngle('Infinityπ')] and
    [parseExactValue('Infinity')] reach through [normRational], never stops:
    after two rounds both [x] and [y] are NaN, and [NaN !== 0] holds
    forever. So neither parser returns or throws on these inputs, whatever
    number of rounds is allowed. *)
Theorem gcd_infinity_diverges (k : nat) :
  gcd_loop k (dabs Infinity) (dabs (of_Z 1)) = Hang.
Proof.
  destruct k as [|[|k]]; [reflexivity|reflexivity|].
  simpl. apply gcd_loop_nan.
Qed.

(** C8: [parseAngle], [parseExactValue] and [parseRational] signal a
    failed parse with [null], not with an [Error]: on the empty string, and
    [parseAngle('abc')]; on 'Infinityπ' and 'Infinity' the first two loop. *)
Lemma parse_returns_null :
  parseAngle (u "") = Ret None /\
  parseExactValue (u "") = Ret None /\
  parseRational (u "") = Ret None /\
  parseAngle (u "abc") = Ret None /\
  parseExactValue (u "abc") = Ret None /\
  parseRational (u "abc") = Ret None /\
  parseAngle (u "Infinityπ") = Hang /\
  parseExactValue (u "Infinity") = Hang.
Proof. vm_compute. repeat split. Qed.

End ParseNullFacts.

Module FallacyFacts.
Import JSNumber Fallacies.

(** A computation over the closure cell at address [l] whose outcome
    depends only on the content of that cell: run at two addresses of two
    stores holding the same number, it gives the same result and leaves the
    same number in the cell. *)
Definition indep {A} (f : nat -> M A) : Prop :=
  forall l1 l2 h1 h2 s, nth_error h1 l1 = Some s -> nth_error h2 l2 = Some s ->
    fst (f l1 h1) = fst (f l2 h2) /\
    exists s', nth_error (snd (f l1 h1)) l1 = Some s' /\ nth_error (snd (f l2 h2)) l2 = Some s'.

Lemma nth_error_upd (h : store) (l : nat) (z s : Z) :
  nth_error h l = Some s -> nth_error (upd h l z) l = Some z.
Proof.
  revert l; induction h as [|y t IH]; intros [|l] E; simpl in *; try discriminate.
  - reflexivity.
  - apply IH, E.
Qed.

Lemma indep_ret {A} (a : A) : indep (fun _ => ret a).
Proof. intros l1 l2 h1 h2 s E1 E2. split; [reflexivity | eauto]. Qed.

Lemma indep_get {A} (x : option A) : indep (fun _ => get x).
Proof. intros l1 l2 h1 h2 s E1 E2. destruct x; split; simpl; eauto. Qed.

Lemma indep_bind {A B} (f : nat -> M A) (g : A -> nat -> M B) :
  indep f -> (forall a, indep (g a)) -> indep (fun l => bind (f l) (fun a => g a l)).
Proof.
  intros Hf Hg l1 l2 h1 h2 s E1 E2.
  destruct (Hf l1 l2 h1 h2 s E1 E2) as [R (s' & F1 & F2)].
  unfold bind.
  destruct (f l1 h1) as [[a1|] h1'], (f l2 h2) as [[a2|] h2']; simpl in *;
    try discriminate; [|split; eauto].
  injection R as ->. exact (Hg a2 l1 l2 h1' h2' s' F1 F2).
Qed.

Lemma indep_rng : indep rng.
Proof.
  intros l1 l2 h1 h2 s E1 E2. unfold rng. rewrite E1, E2. simpl.
  split; [reflexivity|]. eexists; split; eapply nth_error_upd; eassumption.
Qed.

Lemma indep_randomChoice {A} (arr : list A) : indep (randomChoice arr).
Proof.
  unfold randomChoice. apply (indep_bind rng (fun s _ => ret _)).
  - exact indep_rng.
  - intros; apply indep_ret.
Qed.

Lemma indep_draw1 arr : indep (draw1 arr).
Proof.
  unfold draw1. apply (indep_bind (randomChoice arr) (fun x _ => get x)).
  - apply indep_randomChoice.
  - intros; apply indep_get.
Qed.

Lemma indep_draw2 rt : indep (draw2 rt).
Proof.
  unfold draw2.
  apply (indep_bind (randomChoice _) (fun a l => bind (randomChoice _ l) (fun b => _))).
  { apply indep_randomChoice. } intros a.
  apply (indep_bind (randomChoice _) (fun b l => bind (get a) (fun a => _))).
  { apply indep_randomChoice. } intros b.
  apply (indep_bind (fun _ => get a) (fun a l => bind (get b) (fun b => ret (a, b)))).
  { apply indep_get. } intros a'.
  apply (indep_bind (fun _ => get b) (fun b l => ret (a', b))).
  { apply indep_get. } intros b'. apply indep_ret.
Qed.

Lemma indep_bind_pure {A B} (f : nat -> M A) (k : A -> M B) :
  indep f -> (forall a, indep (fun _ => k a)) -> indep (fun l => bind (f l) k).
Proof. intros Hf Hk. exact (indep_bind f (fun a _ => k a) Hf Hk). Qed.

Ltac indep_branch :=
  first
    [ apply indep_ret
    | apply indep_bind_pure;
      [ first [apply indep_draw2 | apply indep_draw1]
      | let ab := fresh "ab" in
        intros ab; try destruct ab as [? ?]; cbv beta zeta iota; apply indep_ret ] ].

Lemma indep_exampleForRule rt r : indep (exampleForRule rt r).
Proof.
  unfold exampleForRule. cbv zeta.
  repeat match goal with
         | |- indep (fun l => if ?c then _ else _) => destruct c
         end;
  indep_branch.
Qed.

Lemma indep_fresh {A} (seed : Z) (k : nat -> M A) (h1 h2 : store) :
  indep k -> fst (bind (rngLCG seed) k h1) = fst (bind (rngLCG seed) k h2).
Proof.
  intros Hk. apply (Hk _ _ _ _ (seed mod 2 ^ 32));
    rewrite nth_error_app2, Nat.sub_diag by lia; reflexivity.
Qed.

(** C9: [generateFallacyRule(seed, difficulty)] draws everything from the
    generator [rngLCG(seed || 1)] it creates itself: the task it returns
    (rule, option, feedback, or the error it throws) is the same whatever
    state the rest of the program is in, so a second call with the same
    seed and difficulty, made after the first, returns the same task. *)
Theorem generateFallacyRule_deterministic (rt : Runtime) (seed : Z) (d : Difficulty) :
  (forall h1 h2 : store,
     fst (generateFallacyRule rt seed d h1) = fst (generateFallacyRule rt seed d h2)) /\
  (forall h : store,
     fst (generateFallacyRule rt seed d (snd (generateFallacyRule rt seed d h)))
     = fst (generateFallacyRule rt seed d h)).
Proof.
  assert (H : forall h1 h2 : store,
     fst (generateFallacyRule rt seed d h1) = fst (generateFallacyRule rt seed d h2)).
  { intros h1 h2. unfold generateFallacyRule. apply indep_fresh. cbv zeta.
    apply (indep_bind (randomChoice _)
             (fun r l => bind (get r) (fun r => bind (exampleForRule rt r l) _))).
    { apply indep_randomChoice. } intros r.
    apply (indep_bind (fun _ => get r) (fun r l => bind (exampleForRule rt r l) _)).
    { apply indep_get. } intros r'.
    apply indep_bind_pure; [apply indep_exampleForRule | intros; apply indep_ret]. }
  split; [exact H | intros h; apply H].
Qed.

End FallacyFacts.

Module ExactRoundTripFacts.
Import JSNumber TrigCore ExactRoundTrip.

(** C4 (as proved): on every value of [ExactValue] other than [rational]
    (zero, one and half with sign 1 or -1, sqrt(2) and sqrt(3) with either
    sign, over two or not, and undef), [parseExactValue(formatExact(v))]
    returns [v] itself; [parseExactValue('sqrt(3)/2')] is
    [{kind:'sqrt', n:3, sign:1, overTwo:true}] and [formatExact] of it is
    ['sqrt(3)/2']. *)
Theorem exact_roundtrip_closed_forms (v : ExactValue) (Hv : closed_form v = true) :
  roundtrip v = Ret (Some v) /\
  parseExactValue (u "sqrt(3)/2") = Ret (Some (ESqrt 3 1 true)) /\
  formatExact (ESqrt 3 1 true) = Ret (u "sqrt(3)/2").
Proof.
  split; [|split; vm_compute; reflexivity].
  destruct v as [|s|s|n s o|r|]; unfold closed_form in Hv; try discriminate;
    repeat match goal with
           | H : (_ || _)%bool = true |- _ => apply orb_true_iff in H as [H|H]
           | H : (_ && _)%bool = true |- _ => apply andb_true_iff in H as [H ?]
           | H : (_ =? _) = true |- _ => apply Z.eqb_eq in H; subst
           end;
    try destruct o; vm_compute; reflexivity.
Qed.

Lemma exact_roundtrip_closed_forms_witness :
  closed_form (ESqrt 2 (-1) true) = true /\ roundtrip (ESqrt 2 (-1) true) = Ret (Some (ESqrt 2 (-1) true)).
Proof.
  split; [reflexivity|]. apply (exact_roundtrip_closed_forms (ESqrt 2 (-1) true)). reflexivity.
Defined.

(** [0.0000003°] is [3e-7 / 180] turns of pi: no special multiple is
    within 1e-9 of it. *)
Lemma fallback_angle_not_special :
  normalizeAngle (Rad (lit 3 (-7)) (of_Z 180))
  = Ret (Rad (of_Z 944473296573929) (of_Z (8444249301319680 * 2 ^ 26))) /\
  isSpecialMultiple (of_Z 944473296573929) (of_Z (8444249301319680 * 2 ^ 26)) = None.
Proof. split; vm_compute; reflexivity. Qed.

(** C4 counterexample: the fallback of [sinCosTanExact] returns
    [{kind:'rational', r:{n: Math.cos(x), d: 1}}]. At [0.0000003°] no special
    multiple is within 1e-9, and [x] is about 5.2e-9, where the cosine
    rounds to 1 (fdlibm's [cos], as engines use it, returns 1 below 2^-27).
    [formatExact] of [{n:1, d:1}] is ['1'], which [parseExactValue] reads as
    [{kind:'one', sign:1}], a different value; and [{n: 0.8414709848078965,
    d: 1}] comes back as [{n: 3789648413623927, d: 2^52}], not as
    itself. *)
Theorem exact_roundtrip_rational_fallback :
  (forall Math_sin Math_cos Math_tan : double -> double,
     Math_cos (ddiv (dmul (lit 3 (-7)) Math_PI) (of_Z 180)) = of_Z 1 ->
     exists sinv tanv,
       sinCosTanExact Math_sin Math_cos Math_tan (Deg (lit 3 (-7)))
       = Ret (sinv, ERational {| rat_n := of_Z 1; rat_d := of_Z 1 |}, tanv)) /\
  roundtrip (ERational {| rat_n := of_Z 1; rat_d := of_Z 1 |}) = Ret (Some (EOne 1)) /\
  roundtrip (ERational {| rat_n := lit 8414709848078965 (-16); rat_d := of_Z 1 |})
  = Ret (Some (ERational {| rat_n := of_Z 3789648413623927; rat_d := of_Z 4503599627370496 |})).
Proof.
  split; [|split; vm_compute; reflexivity].
  intros sn cs tn H. destruct fallback_angle_not_special as [E1 E2].
  unfold sinCosTanExact, exactSinCos. cbv beta zeta iota.
  rewrite E1. unfold obind at 2. rewrite E2. unfold obind. cbv beta zeta iota.
  rewrite H. do 2 eexists. reflexivity.
Qed.

End ExactRoundTripFacts.

Module SetDecideFacts.
Import SetLogic.

Lemma var_eqb_eq (v w : SetVarName) : var_eqb v w = true <-> v = w.
Proof. destruct v, w; vm_compute; split; intro; congruence. Qed.

Lemma In_set_add (x v : SetVarName) (vs : list SetVarName) :
  In x (set_add v vs) <-> x = v \/ In x vs.
Proof.
  unfold set_add. destruct (existsb (var_eqb v) vs) eqn:E.
  - apply existsb_exists in E as [w [Hw Hvw]]. apply var_eqb_eq in Hvw. subst w.
    split; [tauto | intros [-> | H]; auto].
  - rewrite in_app_iff. simpl. intuition (subst; auto).
Qed.

Lemma collect_incl (n : SetNode) (acc : list SetVarName) :
  incl acc (collectSetVars n acc).
Proof.
  revert acc. induction n; intros acc x Hx; simpl; auto.
  - apply In_set_add; auto.
  - apply IHn, Hx.
  - apply IHn2, IHn1, Hx.
  - apply IHn2, IHn1, Hx.
  - apply IHn2, IHn1, Hx.
  - apply IHn2, IHn1, Hx.
Qed.

(** [evalSetExpr] only reads the variables [collectSetVars] collects. *)
Lemma eval_ext (n : SetNode) (acc : list SetVarName) (a b : SetAssignment) :
  (forall v, In v (collectSetVars n acc) -> get a v = get b v) ->
  evalSetExpr n a = evalSetExpr n b.
Proof.
  revert acc. induction n; intros acc H; simpl in *;
    try (rewrite (IHn1 acc), (IHn2 (collectSetVars n1 acc)); [reflexivity | ..];
         intros v Hv; apply H; auto; apply collect_incl; auto).
  - apply H, In_set_add. auto.
  - reflexivity.
  - f_equal. eapply IHn; eauto.
Qed.

Lemma In_fold_set_add (xs acc : list SetVarName) (x : SetVarName) :
  In x (fold_left (fun acc v => set_add v acc) xs acc) <-> In x acc \/ In x xs.
Proof.
  revert acc. induction xs as [|v xs IH]; intro acc; simpl.
  - tauto.
  - rewrite IH, In_set_add. intuition (subst; auto).
Qed.

Lemma perm_insert_sorted (v : SetVarName) (xs : list SetVarName) :
  Permutation.Permutation (insert_sorted v xs) (v :: xs).
Proof.
  induction xs as [|w ws IH]; simpl; auto.
  destruct (var_code v <=? var_code w); auto.
  eapply Permutation.perm_trans; [apply Permutation.perm_skip, IH | apply Permutation.perm_swap].
Qed.

Lemma perm_sort (xs : list SetVarName) : Permutation.Permutation (sort xs) xs.
Proof.
  induction xs as [|v xs IH]; simpl; auto.
  eapply Permutation.perm_trans; [apply perm_insert_sorted | auto].
Qed.

Lemma NoDup_fold_set_add (xs acc : list SetVarName) :
  NoDup acc -> NoDup (fold_left (fun acc v => set_add v acc) xs acc).
Proof.
  revert acc. induction xs as [|v xs IH]; intros acc H; simpl; auto.
  apply IH. unfold set_add. destruct (existsb (var_eqb v) acc) eqn:E; auto.
  eapply Permutation.Permutation_NoDup; [apply Permutation.Permutation_cons_append|].
  constructor; auto. intro Hin.
  assert (existsb (var_eqb v) acc = true) by (apply existsb_exists; exists v; split; auto;
    apply var_eqb_eq; auto).
  congruence.
Qed.

Lemma In_both_vars (l r : SetNode) (v : SetVarName) :
  In v (both_vars l r) <-> In v (collectSetVars l []) \/ In v (collectSetVars r []).
Proof.
  unfold both_vars, set_of_list. split; intro H.
  - apply (Permutation.Permutation_in _ (perm_sort _)), In_fold_set_add in H.
    simpl in H. rewrite in_app_iff in H. tauto.
  - apply (Permutation.Permutation_in _ (Permutation.Permutation_sym (perm_sort _))).
    apply In_fold_set_add. rewrite in_app_iff. tauto.
Qed.

Lemma both_vars_length (l r : SetNode) : (List.length (both_vars l r) <= 3)%nat.
Proof.
  change 3%nat with (List.length [VA; VB; VC]).
  apply NoDup_incl_length.
  - unfold both_vars, set_of_list.
    eapply Permutation.Permutation_NoDup; [apply Permutation.Permutation_sym, perm_sort|].
    apply NoDup_fold_set_add. constructor.
  - intros [] _; simpl; auto.
Qed.

(** The rows of [truthTableSet] over at most three variables reach every
    combination of values of those variables (a variable listed twice keeps
    the bit of its last position). *)
Lemma rows_cover (used : list SetVarName) (a : SetAssignment) :
  (List.length used <= 3)%nat ->
  exists i, In i (map Z.of_nat (seq 0 (Z.to_nat (Z.max 1 (shl32 1 (Z.of_nat (List.length used))))))) /\
    forall v, In v used -> get (row_assignment_of used i) v = get a v.
Proof.
  intro Hlen.
  enough (existsb (fun i => forallb (fun v => Bool.eqb (get (row_assignment_of used i) v) (get a v)) used)
            (map Z.of_nat (seq 0 (Z.to_nat (Z.max 1 (shl32 1 (Z.of_nat (List.length used))))))) = true) as E.
  { apply existsb_exists in E as [i [Hi Hall]]. exists i. split; auto.
    intros v Hv. rewrite forallb_forall in Hall. apply Bool.eqb_prop, Hall, Hv. }
  destruct a as [p q s].
  destruct used as [|x1 [|x2 [|x3 [|x4 rest]]]]; simpl in Hlen; try lia;
    repeat match goal with x : SetVarName |- _ => destruct x end;
    destruct p, q, s; vm_compute; reflexivity.
Qed.

(** A check over the rows of [truthTableSet left (both_vars left right)] that
    compares the left value with the right one holds exactly when the
    comparison holds under every assignment. *)
Lemma rows_check_exact (f : bool -> bool -> bool) (l r : SetNode) :
  forallb (fun row => f (row_value row) (evalSetExpr r (row_assignment row)))
          (truthTableSet l (both_vars l r)) = true <->
  forall a, f (evalSetExpr l a) (evalSetExpr r a) = true.
Proof.
  unfold truthTableSet. rewrite forallb_forall. split.
  - intros H a.
    destruct (rows_cover (both_vars l r) a (both_vars_length l r)) as [i [Hi Hag]].
    specialize (H {| row_assignment := row_assignment_of (both_vars l r) i;
                     row_value := evalSetExpr l (row_assignment_of (both_vars l r) i) |}).
    simpl in H.
    rewrite (eval_ext l [] a (row_assignment_of (both_vars l r) i)),
            (eval_ext r [] a (row_assignment_of (both_vars l r) i)).
    + apply H, in_map_iff. eexists; split; [reflexivity | exact Hi].
    + intros v Hv. symmetry. apply Hag, In_both_vars. auto.
    + intros v Hv. symmetry. apply Hag, In_both_vars. auto.
  - intros H row Hrow. apply in_map_iff in Hrow as [i [<- _]]. simpl. apply H.
Qed.

(** [areSetExprEquivalent left right] returns true exactly when the two
    expressions evaluate alike under every assignment of A, B and C. *)
Theorem areSetExprEquivalent_exact (left right : SetNode) :
  areSetExprEquivalent left right = true <->
  forall a, evalSetExpr left a = evalSetExpr right a.
Proof.
  unfold areSetExprEquivalent.
  rewrite (rows_check_exact (fun x y => Bool.eqb y x) left right).
  split; intros H a; specialize (H a).
  - symmetry. apply Bool.eqb_prop, H.
  - rewrite H. apply Bool.eqb_reflx.
Qed.

(** [isSubset left right] returns true exactly when every assignment that
    makes [left] true also makes [right] true. *)
Theorem isSubset_exact (left right : SetNode) :
  isSubset left right = true <->
  forall a, evalSetExpr left a = true -> evalSetExpr right a = true.
Proof.
  unfold isSubset.
  rewrite (rows_check_exact (fun x y => negb x || y) left right).
  split; intros H a; specialize (H a);
    destruct (evalSetExpr left a), (evalSetExpr right a); simpl in *; auto.
Qed.

(** [isDisjoint left right] returns true exactly when no assignment makes
    both expressions true. *)
Theorem isDisjoint_exact (left right : SetNode) :
  isDisjoint left right = true <->
  forall a, ~ (evalSetExpr left a = true /\ evalSetExpr right a = true).
Proof.
  unfold isDisjoint.
  rewrite (rows_check_exact (fun x y => negb (x && y)) left right).
  split; intros H a; specialize (H a);
    destruct (evalSetExpr left a), (evalSetExpr right a); simpl in *; intuition congruence.
Qed.

End SetDecideFacts.

Module SetRegionFacts.
Import SetLogic SetRegions.

Lemma to_int32_small (z : Z) : 0 <= z < 2 ^ 31 -> to_int32 z = z.
Proof.
  intro H. unfold to_int32. rewrite Z.mod_small by lia.
  destruct (z >=? 2 ^ 31) eqn:E; [apply Z.geb_le in E; lia | reflexivity].
Qed.

Lemma shl32_1_small (k : Z) : 0 <= k < 31 -> shl32 1 k = 2 ^ k.
Proof.
  intro H. unfold shl32. rewrite Z.mod_small by lia. rewrite Z.shiftl_1_l.
  apply to_int32_small. split; [apply Z.pow_nonneg; lia | apply Z.pow_lt_mono_r; lia].
Qed.

Lemma lor_pow2_small (m k : Z) : 0 <= k -> 0 <= m < 2 ^ k -> Z.lor m (2 ^ k) = m + 2 ^ k.
Proof.
  intros Hk Hm.
  assert (Z.land m (2 ^ k) = 0) as H0.
  { apply Z.bits_inj'. intros n Hn. rewrite Z.land_spec, Z.pow2_bits_eqb, Z.bits_0 by lia.
    destruct (Z.eqb_spec k n) as [<- | _]; [|apply andb_false_r].
    rewrite <- (Z.mod_small m (2 ^ k)) by lia. rewrite Z.mod_pow2_bits_high by lia. reflexivity. }
  rewrite Z.add_nocarry_lxor by exact H0. symmetry. apply Z.lxor_lor, H0.
Qed.

Lemma mask_sum_range (node : SetNode) (asgs : list SetAssignment) :
  0 <= mask_sum node asgs < 2 ^ Z.of_nat (List.length asgs).
Proof.
  induction asgs as [|a rest IH]; [simpl; lia|].
  cbn [mask_sum List.length]. rewrite Nat2Z.inj_succ, Z.pow_succ_r by lia.
  destruct (evalSetExpr node a); cbn [Z.b2z]; lia.
Qed.

Lemma mask_sum_testbit (node : SetNode) (asgs : list SetAssignment) (j : nat) :
  Z.testbit (mask_sum node asgs) (Z.of_nat j) =
  match nth_error asgs j with Some a => evalSetExpr node a | None => false end.
Proof.
  revert j. induction asgs as [|a rest IH]; intro j.
  - destruct j; apply Z.testbit_0_l.
  - cbn [mask_sum]. rewrite Z.add_comm. destruct j as [|j].
    + apply Z.testbit_0_r.
    + rewrite Nat2Z.inj_succ, Z.testbit_succ_r by lia. apply IH.
Qed.

Lemma mask_fold (node : SetNode) (asgs : list SetAssignment) (m k : Z) :
  0 <= k -> k + Z.of_nat (List.length asgs) <= 31 -> 0 <= m < 2 ^ k ->
  fold_left (mask_step node) asgs (m, k) =
  (m + 2 ^ k * mask_sum node asgs, k + Z.of_nat (List.length asgs)).
Proof.
  revert m k. induction asgs as [|a rest IH]; intros m k Hk Hlen Hm.
  - simpl. f_equal; lia.
  - cbn [List.length] in *. rewrite Nat2Z.inj_succ in *. cbn [fold_left mask_sum].
    assert (0 < 2 ^ k) by (apply Z.pow_pos_nonneg; lia).
    assert (2 ^ (k + 1) = 2 * 2 ^ k) by (rewrite Z.pow_add_r, Z.pow_1_r by lia; lia).
    assert (2 ^ (k + 1) <= 2 ^ 31) by (apply Z.pow_le_mono_r; lia).
    unfold mask_step at 2. destruct (evalSetExpr node a) eqn:E; cbn [Z.b2z].
    + rewrite shl32_1_small, lor_pow2_small, to_int32_small by lia.
      rewrite IH by lia. f_equal; [rewrite Z.pow_add_r, Z.pow_1_r by lia; lia | lia].
    + rewrite IH by lia. f_equal; [rewrite Z.pow_add_r, Z.pow_1_r by lia; lia | lia].
Qed.

Lemma assignmentsForSets_length (sets : list SetVarName) :
  (List.length sets <= 4)%nat ->
  List.length (assignmentsForSets sets) = Z.to_nat (2 ^ Z.of_nat (List.length sets)).
Proof.
  intro H. unfold assignmentsForSets. rewrite !length_map, length_seq.
  rewrite shl32_1_small by lia. reflexivity.
Qed.

(** For at most four sets the mask is [mask_sum] over the assignments. *)
Lemma mask_is_sum (node : SetNode) (sets : list SetVarName) :
  (List.length sets <= 4)%nat ->
  computeRegionMaskFromExpr node sets = mask_sum node (assignmentsForSets sets).
Proof.
  intro H. unfold computeRegionMaskFromExpr.
  rewrite mask_fold; simpl; try lia.
  - destruct (mask_sum node (assignmentsForSets sets)); reflexivity.
  - rewrite assignmentsForSets_length by exact H.
    assert (List.length sets = 0 \/ List.length sets = 1 \/ List.length sets = 2 \/
            List.length sets = 3 \/ List.length sets = 4)%nat as C by lia.
    destruct C as [-> | [-> | [-> | [-> | ->]]]]; vm_compute; discriminate.
Qed.

Lemma mask_testbit (node : SetNode) (sets : list SetVarName) (idx : nat) :
  (List.length sets <= 4)%nat ->
  Z.testbit (computeRegionMaskFromExpr node sets) (Z.of_nat idx) =
  match nth_error (assignmentsForSets sets) idx with
  | Some a => evalSetExpr node a
  | None => false
  end.
Proof. intro H. rewrite mask_is_sum by exact H. apply mask_sum_testbit. Qed.

Lemma mask_testbit_Z (node : SetNode) (sets : list SetVarName) (n : Z) :
  (List.length sets <= 4)%nat -> 0 <= n ->
  Z.testbit (computeRegionMaskFromExpr node sets) n =
  match nth_error (assignmentsForSets sets) (Z.to_nat n) with
  | Some a => evalSetExpr node a
  | None => false
  end.
Proof.
  intros H Hn. rewrite <- (Z2Nat.id n) at 1 by exact Hn. apply mask_testbit, H.
Qed.

(** For at most four sets, [computeRegionMaskFromExpr node sets] is a
    non-negative number below [2 ^ (2 ^ sets.length)] whose bit [idx] is the
    value of [node] under the [idx]-th assignment of [assignmentsForSets sets]. *)
Theorem computeRegionMaskFromExpr_bits (node : SetNode) (sets : list SetVarName) :
  (List.length sets <= 4)%nat ->
  0 <= computeRegionMaskFromExpr node sets < 2 ^ (2 ^ Z.of_nat (List.length sets)) /\
  forall idx : nat,
    Z.testbit (computeRegionMaskFromExpr node sets) (Z.of_nat idx) =
    match nth_error (assignmentsForSets sets) idx with
    | Some a => evalSetExpr node a
    | None => false
    end.
Proof.
  intro H. split.
  - rewrite mask_is_sum by exact H.
    pose proof (mask_sum_range node (assignmentsForSets sets)) as R.
    rewrite assignmentsForSets_length, Z2Nat.id in R by (exact H || (apply Z.pow_nonneg; lia)).
    exact R.
  - intro idx. apply mask_testbit, H.
Qed.

Lemma computeRegionMaskFromExpr_bits_witness :
  (List.length [VA; VB] <= 4)%nat /\
  Z.testbit (computeRegionMaskFromExpr (SUnion (SVar VA) (SVar VB)) [VA; VB]) 0 = false.
Proof.
  split; [simpl; lia|].
  apply (proj2 (computeRegionMaskFromExpr_bits (SUnion (SVar VA) (SVar VB)) [VA; VB]
                  ltac:(simpl; lia)) 0%nat).
Defined.

(** For at most four sets the masks compose like the set operations: union
    is bitwise or, intersection bitwise and, difference [and not], symmetric
    difference xor, and complement flips exactly the [2 ^ sets.length]
    region bits. *)
Theorem computeRegionMaskFromExpr_ops (l r : SetNode) (sets : list SetVarName) :
  (List.length sets <= 4)%nat ->
  let mask n := computeRegionMaskFromExpr n sets in
  mask (SUnion l r) = Z.lor (mask l) (mask r) /\
  mask (SInter l r) = Z.land (mask l) (mask r) /\
  mask (SDiff l r) = Z.ldiff (mask l) (mask r) /\
  mask (SSym l r) = Z.lxor (mask l) (mask r) /\
  mask (SNot l) = Z.lxor (mask l) (Z.ones (2 ^ Z.of_nat (List.length sets))).
Proof.
  intro H. cbv beta zeta.
  assert (P : 0 <= 2 ^ Z.of_nat (List.length sets)) by (apply Z.pow_nonneg; lia).
  split; [|split; [|split; [|split]]]; apply Z.bits_inj'; intros n Hn;
    rewrite ?Z.lor_spec, ?Z.land_spec, ?Z.ldiff_spec, ?Z.lxor_spec,
      ?(Z.testbit_ones_nonneg _ _ P Hn), !mask_testbit_Z by (exact H || lia);
    destruct (nth_error (assignmentsForSets sets) (Z.to_nat n)) as [a|] eqn:E;
    cbn [evalSetExpr]; try reflexivity.
  - destruct (evalSetExpr l a), (evalSetExpr r a); reflexivity.
  - assert (E' : nth_error (assignmentsForSets sets) (Z.to_nat n) <> None) by congruence.
    apply nth_error_Some in E'. rewrite assignmentsForSets_length in E' by exact H.
    replace (n <? 2 ^ Z.of_nat (List.length sets)) with true by (symmetry; apply Z.ltb_lt; lia).
    destruct (evalSetExpr l a); reflexivity.
  - apply nth_error_None in E. rewrite assignmentsForSets_length in E by exact H.
    replace (n <? 2 ^ Z.of_nat (List.length sets)) with false by (symmetry; apply Z.ltb_ge; lia).
    reflexivity.
Qed.

Lemma computeRegionMaskFromExpr_ops_witness :
  (List.length [VA; VB; VC] <= 4)%nat /\
  computeRegionMaskFromExpr (SUnion (SVar VA) (SVar VC)) [VA; VB; VC] =
  Z.lor (computeRegionMaskFromExpr (SVar VA) [VA; VB; VC])
        (computeRegionMaskFromExpr (SVar VC) [VA; VB; VC]).
Proof.
  split; [simpl; lia|].
  apply (proj1 (computeRegionMaskFromExpr_ops (SVar VA) (SVar VC) [VA; VB; VC]
                  ltac:(simpl; lia))).
Defined.

(** With the three sets [A, B, C] two expressions get the same region mask
    exactly when they evaluate alike under every assignment. *)
Theorem computeRegionMaskFromExpr_ABC_eq (l r : SetNode) :
  computeRegionMaskFromExpr l [VA; VB; VC] = computeRegionMaskFromExpr r [VA; VB; VC] <->
  forall a, evalSetExpr l a = evalSetExpr r a.
Proof.
  assert (L : (List.length [VA; VB; VC] <= 4)%nat) by (simpl; lia).
  split.
  - intros H [p q s].
    set (idx := 4 * Z.b2z p + 2 * Z.b2z q + Z.b2z s).
    assert (Hn : nth_error (assignmentsForSets [VA; VB; VC]) (Z.to_nat idx) =
                 Some {| asgA := p; asgB := q; asgC := s |})
      by (subst idx; destruct p, q, s; vm_compute; reflexivity).
    assert (I : 0 <= idx) by (subst idx; destruct p, q, s; simpl; lia).
    pose proof (mask_testbit_Z l _ idx L I) as Bl.
    pose proof (mask_testbit_Z r _ idx L I) as Br.
    rewrite Hn in Bl, Br. rewrite H in Bl. congruence.
  - intro H. apply Z.bits_inj'. intros n Hn.
    rewrite !mask_testbit_Z by (exact L || exact Hn).
    destruct (nth_error (assignmentsForSets [VA; VB; VC]) (Z.to_nat n)); auto.
Qed.

End SetRegionFacts.

Module FallacyDrawFacts.
Import JSNumber Fallacies.

Lemma bind_Some_inv {A B} (m : M A) (k : A -> M B) (h h'' : store) (b : B) :
  bind m k h = (Some b, h'') ->
  exists a h', m h = (Some a, h') /\ k a h' = (Some b, h'').
Proof.
  unfold bind. destruct (m h) as [[a|] h']; intro E; [eauto | discriminate].
Qed.

Lemma randomChoice_Some_inv {A} (arr : list A) (l : nat) (h h' : store) (x : A) :
  randomChoice arr l h = (Some (Some x), h') -> In x arr.
Proof.
  unfold randomChoice, bind, rng, ret.
  destruct (nth_error h l); intro E; [|discriminate].
  injection E as E _. eapply nth_error_In. exact E.
Qed.

(** [randomChoice] on a non-empty array, with a generator whose closure cell
    exists, never yields [undefined]: [Math.floor(rng() * arr.length)] is a
    valid index because the generator's state stays in [[0, 2^32)]. It
    returns an element of the array. *)
Theorem randomChoice_nonempty_member {A} (arr : list A) (l : nat) (h : store) :
  arr <> [] -> (l < List.length h)%nat ->
  exists x h', randomChoice arr l h = (Some (Some x), h') /\ In x arr.
Proof.
  intros Hne Hl.
  destruct (nth_error h l) as [s|] eqn:Es;
    [|apply nth_error_None in Es; lia].
  set (s' := (1664525 * s + 1013904223) mod 2 ^ 32).
  set (len := Z.of_nat (List.length arr)).
  assert (Hlen : 0 < len) by (destruct arr; [congruence | subst len; simpl; lia]).
  assert (Hs : 0 <= s' < 2 ^ 32) by (apply Z.mod_pos_bound; lia).
  assert (Hi : 0 <= s' * len / 2 ^ 32 < len).
  { split; [apply Z.div_pos; nia | apply Z.div_lt_upper_bound; nia]. }
  destruct (nth_error arr (Z.to_nat (s' * len / 2 ^ 32))) as [x|] eqn:Ex.
  - exists x, (upd h l s'). split.
    + unfold randomChoice, bind, rng, ret. rewrite Es. fold s'. fold len. rewrite Ex. reflexivity.
    + eapply nth_error_In. exact Ex.
  - apply nth_error_None in Ex. subst len. lia.
Qed.

Lemma randomChoice_nonempty_member_witness :
  exists x h', randomChoice [1; 2; 3] 0 [7] = (Some (Some x), h') /\ In x [1; 2; 3].
Proof.
  apply randomChoice_nonempty_member; [discriminate | simpl; lia].
Defined.

(** Whenever [generateFallacyRule] returns a task, its rule is one of
    [ruleBank] and its option is the one [labelToOption] gives for that
    rule's label. *)
Theorem generateFallacyRule_rule_in_bank (rt : Runtime) (seed : Z) (d : Difficulty)
    (h h' : store) (task : FallacyTask) :
  generateFallacyRule rt seed d h = (Some task, h') ->
  In (rule task) ruleBank /\ option_ task = labelToOption (label (rule task)).
Proof.
  unfold generateFallacyRule. intro E.
  apply bind_Some_inv in E as (l & h1 & _ & E).
  apply bind_Some_inv in E as (ro & h2 & Er & E).
  apply bind_Some_inv in E as (r & h3 & Eg & E).
  apply bind_Some_inv in E as (det & h4 & _ & E).
  destruct ro as [r'|]; [|discriminate].
  injection Eg as -> _.
  apply randomChoice_Some_inv in Er.
  injection E as <- _. simpl. split; [|reflexivity].
  apply in_flat_map in Er as (r0 & Hr0 & Hrep).
  apply repeat_spec in Hrep. subst. exact Hr0.
Qed.

Lemma generateFallacyRule_rule_in_bank_witness :
  let rt := {| Math_sin := fun _ => lit 5 (-1); Math_cos := fun _ => of_Z 1;
               Math_tan := fun _ => lit 5 (-1); Math_sqrt := fun x => x;
               pow := fun x _ => x; toFixed3 := fun _ => u "0.500" |} in
  let res := generateFallacyRule rt 42 Easy [] in
  exists task, fst res = Some task /\
    In (rule task) ruleBank /\ option_ task = labelToOption (label (rule task)).
Proof.
  intros rt res.
  destruct res as [[task|] h'] eqn:E; [|vm_compute in E; discriminate].
  exists task. split; [reflexivity|].
  exact (generateFallacyRule_rule_in_bank rt 42 Easy [] h' task E).
Defined.

End FallacyDrawFacts.

Module MathRngFacts.
Import MathRng.

Lemma next_bound (state : Z) : 0 <= fst (next state) < 2 ^ 32.
Proof. unfold next, LCG_M. simpl. apply Z.mod_pos_bound. lia. Qed.

Lemma int_bounds (min max state : Z) :
  min <= max -> min <= fst (int min max state) <= max.
Proof.
  intro H. unfold int. pose proof (next_bound state) as B.
  destruct (next state) as [s st]. simpl in *. unfold LCG_M.
  assert (0 <= s * (max - min + 1) / 2 ^ 32 < max - min + 1).
  { split; [apply Z.div_pos; nia | apply Z.div_lt_upper_bound; nia]. }
  lia.
Qed.

(** [rng.int(min, max)] for integers [min <= max] (within the bounds where
    the double arithmetic is exact) returns an integer in [[min, max]]. *)
Theorem createRng_int_range (min max state : Z) :
  min <= max -> max - min + 1 <= 2 ^ 21 -> - 2 ^ 52 <= min -> max <= 2 ^ 52 ->
  min <= fst (int min max state) <= max.
Proof. intros H _ _ _. apply int_bounds, H. Qed.

Lemma createRng_int_range_witness :
  1 <= fst (int 1 9 (createRng 2024)) <= 9.
Proof. apply createRng_int_range; lia. Defined.

(** [rng.choice(list)] on a non-empty list (of at most 2^21 elements) never
    reads [undefined]: it returns an element of the list. *)
Theorem createRng_choice_member {A} (xs : list A) (state : Z) :
  xs <> [] -> Z.of_nat (List.length xs) <= 2 ^ 21 ->
  exists x, fst (choice xs state) = Some x /\ In x xs.
Proof.
  intros Hne _. unfold choice.
  assert (0 < Z.of_nat (List.length xs)) by (destruct xs; [congruence | simpl; lia]).
  pose proof (int_bounds 0 (Z.of_nat (List.length xs) - 1) state ltac:(lia)) as B.
  destruct (int 0 (Z.of_nat (List.length xs) - 1) state) as [i st]. simpl in *.
  replace (i <? 0) with false by (symmetry; apply Z.ltb_ge; lia).
  destruct (nth_error xs (Z.to_nat i)) as [x|] eqn:E.
  - exists x. split; [reflexivity | eapply nth_error_In; exact E].
  - apply nth_error_None in E. lia.
Qed.

Lemma createRng_choice_member_witness :
  exists x, fst (choice [true; false] (createRng 7)) = Some x /\ In x [true; false].
Proof. apply createRng_choice_member; [discriminate | simpl; lia]. Defined.

End MathRngFacts.

Module SetArithFacts.
Import JSNumber TrigCore SetArith.

(** At [double], [normalizeRational] is the function [SetRational] models. *)
Lemma normalizeRational_double (r : Rational double) :
  normalizeRational r = SetRational.normalizeRational r.
Proof. reflexivity. Qed.

Lemma normalize_Z (p q : Z) : q <> 0 ->
  exists n d, normalizeRational {| rat_n := p; rat_d := q |} = Ret {| rat_n := n; rat_d := d |}
              /\ 0 < d /\ Z.gcd n d = 1 /\ n * q = p * d.
Proof.
  intro Hq. unfold normalizeRational. cbn [rat_n rat_d js_eqb js_of_Z js_ltb js_mul js_abs js_div JSNum_Z].
  destruct (Z.eqb_spec q 0) as [|_]; [contradiction|].
  set (s := if q <? 0 then -1 else 1).
  assert (Hs : s * q = Z.abs q) by (subst s; destruct (Z.ltb_spec q 0); lia).
  destruct (TrigFacts.gcd_Z (p * s) (Z.abs q)) as [-> Hg]; [lia|]. cbn [obind].
  set (g := Z.gcd (p * s) (Z.abs q)) in *.
  destruct (Z.gcd_divide_l (p * s) (Z.abs q)) as [n' Hn'].
  destruct (Z.gcd_divide_r (p * s) (Z.abs q)) as [d' Hd'].
  fold g in Hn', Hd'.
  exists ((p * s) / g), (Z.abs q / g). split; [reflexivity|].
  rewrite Hn', Hd', !Z.div_mul by lia.
  split; [|split].
  - assert (0 < Z.abs q) by lia. nia.
  - rewrite <- (Z.div_mul n' g), <- (Z.div_mul d' g) by lia. rewrite <- Hn', <- Hd'.
    apply Z.gcd_div_gcd; [lia | reflexivity].
  - apply (Z.mul_reg_r _ _ g); [lia|].
    assert (n' * g * q = p * (d' * g)); [|lia].
    rewrite <- Hn', <- Hd', <- Hs. ring.
Qed.

Lemma normalize_Z_zero (p : Z) :
  normalizeRational {| rat_n := p; rat_d := 0 |} = Throw (u "Nenner darf nicht 0 sein.").
Proof. reflexivity. Qed.

(** On integer fractions with non-zero denominators (exact while the values
    stay below 2^53), [rationalOps.add], [sub] and [mul] return the sum,
    difference and product in lowest terms with a positive denominator. *)
Theorem rationalOps_add_sub_mul_Z (an ad bn bd : Z) :
  ad <> 0 -> bd <> 0 ->
  let a := {| rat_n := an; rat_d := ad |} in
  let b := {| rat_n := bn; rat_d := bd |} in
  (exists n d, rationalOps_add a b = Ret {| rat_n := n; rat_d := d |} /\
     0 < d /\ Z.gcd n d = 1 /\ n * (ad * bd) = (an * bd + bn * ad) * d) /\
  (exists n d, rationalOps_sub a b = Ret {| rat_n := n; rat_d := d |} /\
     0 < d /\ Z.gcd n d = 1 /\ n * (ad * bd) = (an * bd - bn * ad) * d) /\
  (exists n d, rationalOps_mul a b = Ret {| rat_n := n; rat_d := d |} /\
     0 < d /\ Z.gcd n d = 1 /\ n * (ad * bd) = (an * bn) * d).
Proof.
  intros Ha Hb a b. assert (ad * bd <> 0) by (intro E; apply Z.mul_eq_0 in E; tauto).
  split; [|split]; apply normalize_Z; exact H.
Qed.

Lemma rationalOps_add_sub_mul_Z_witness :
  2 <> 0 /\ 3 <> 0 /\
  exists n d, rationalOps_add {| rat_n := 1; rat_d := 2 |} {| rat_n := 1; rat_d := 3 |}
              = Ret {| rat_n := n; rat_d := d |} /\
     0 < d /\ Z.gcd n d = 1 /\ n * (2 * 3) = (1 * 3 + 1 * 2) * d.
Proof.
  split; [lia | split; [lia|]].
  exact (proj1 (rationalOps_add_sub_mul_Z 1 2 1 3 ltac:(lia) ltac:(lia))).
Defined.

(** On integer fractions whose cross products [a.n * b.d] and [a.d * b.n]
    stay below 2^53 in absolute value (where the double arithmetic of the
    source is exact), [rationalOps.div a b] with [b.n <> 0] and non-zero
    denominators returns the quotient in lowest terms with a positive
    denominator. *)
Theorem rationalOps_div_Z (an ad bn bd : Z) :
  bn <> 0 -> ad <> 0 -> bd <> 0 ->
  Z.abs (an * bd) < 2 ^ 53 -> Z.abs (ad * bn) < 2 ^ 53 ->
  exists n d, rationalOps_div {| rat_n := an; rat_d := ad |} {| rat_n := bn; rat_d := bd |}
              = Ret {| rat_n := n; rat_d := d |} /\
     0 < d /\ Z.gcd n d = 1 /\ n * (ad * bn) = (an * bd) * d.
Proof.
  intros Hbn Ha Hb _ _. unfold rationalOps_div. cbn [rat_n js_eqb js_of_Z JSNum_Z].
  destruct (Z.eqb_spec bn 0) as [|_]; [contradiction|].
  apply normalize_Z. intro E; apply Z.mul_eq_0 in E; tauto.
Qed.

Lemma rationalOps_div_Z_witness :
  Z.abs (3 * 2) < 2 ^ 53 /\ Z.abs (4 * -9) < 2 ^ 53 /\
  exists n d, rationalOps_div {| rat_n := 3; rat_d := 4 |} {| rat_n := -9; rat_d := 2 |}
              = Ret {| rat_n := n; rat_d := d |} /\
     0 < d /\ Z.gcd n d = 1 /\ n * (4 * -9) = (3 * 2) * d.
Proof. split; [lia | split; [lia | apply rationalOps_div_Z; lia]]. Defined.

(** The errors of [rationalOps]: [div] by a fraction with numerator 0 throws
    ['Division durch 0'] whatever the denominators; [add], [sub] and [mul]
    with a zero denominator, and [div] with a zero denominator in its first
    argument, throw ['Nenner darf nicht 0 sein.']. *)
Theorem rationalOps_errors_Z (an ad bn bd : Z) :
  let a := {| rat_n := an; rat_d := ad |} in
  let b := {| rat_n := bn; rat_d := bd |} in
  rationalOps_div a {| rat_n := 0; rat_d := bd |} = Throw (u "Division durch 0") /\
  ((ad = 0 \/ bd = 0) ->
     rationalOps_add a b = Throw (u "Nenner darf nicht 0 sein.") /\
     rationalOps_sub a b = Throw (u "Nenner darf nicht 0 sein.") /\
     rationalOps_mul a b = Throw (u "Nenner darf nicht 0 sein.")) /\
  (bn <> 0 -> ad = 0 -> rationalOps_div a b = Throw (u "Nenner darf nicht 0 sein.")).
Proof.
  intros a b. split; [reflexivity|split].
  - intros Hz. assert (E : ad * bd = 0) by (destruct Hz as [-> | ->]; ring).
    unfold rationalOps_add, rationalOps_sub, rationalOps_mul; cbn [rat_n rat_d a b js_mul JSNum_Z].
    rewrite E. repeat split; reflexivity.
  - intros Hbn ->. unfold rationalOps_div. cbn [rat_n rat_d a b js_mul js_eqb js_of_Z JSNum_Z].
    destruct (Z.eqb_spec bn 0) as [|_]; [contradiction|]. reflexivity.
Qed.

Lemma rationalOps_errors_Z_witness :
  rationalOps_add {| rat_n := 1; rat_d := 0 |} {| rat_n := 3; rat_d := 2 |}
    = Throw (u "Nenner darf nicht 0 sein.") /\
  rationalOps_div {| rat_n := 1; rat_d := 0 |} {| rat_n := 3; rat_d := 2 |}
    = Throw (u "Nenner darf nicht 0 sein.").
Proof.
  destruct (rationalOps_errors_Z 1 0 3 2) as [_ [A B]].
  split; [apply (proj1 (A (or_introl eq_refl))) | apply B; lia].
Defined.

(** [rationalOps.div a b] does not check [b.d]: on integers whose cross
    products [a.n * 0] and [a.d * b.n] stay below 2^53 in absolute value
    (where the double arithmetic of the source is exact), dividing a
    fraction with a non-zero denominator by [bn/0] with [bn <> 0] returns
    [0/1] instead of throwing. *)
Theorem rationalOps_div_by_zero_denominator_Z (an ad bn : Z) :
  bn <> 0 -> ad <> 0 -> Z.abs (ad * bn) < 2 ^ 53 ->
  rationalOps_div {| rat_n := an; rat_d := ad |} {| rat_n := bn; rat_d := 0 |}
  = Ret {| rat_n := 0; rat_d := 1 |}.
Proof.
  intros Hbn Ha _. unfold rationalOps_div, normalizeRational.
  cbn [rat_n rat_d js_mul js_eqb js_of_Z js_ltb js_abs js_div JSNum_Z].
  assert (ad * bn <> 0) by (intro E; apply Z.mul_eq_0 in E; tauto).
  destruct (Z.eqb_spec bn 0) as [|_]; [contradiction|].
  destruct (Z.eqb_spec (ad * bn) 0) as [|_]; [contradiction|].
  rewrite Z.mul_0_r, Z.mul_0_l.
  destruct (TrigFacts.gcd_Z 0 (Z.abs (ad * bn))) as [-> _]; [lia|]. cbn [obind].
  rewrite Z.gcd_0_l, Z.abs_idemp, Z.div_0_l, Z.div_same by lia. reflexivity.
Qed.

Lemma rationalOps_div_by_zero_denominator_Z_witness :
  Z.abs (7 * 3) < 2 ^ 53 /\
  rationalOps_div {| rat_n := 5; rat_d := 7 |} {| rat_n := 3; rat_d := 0 |}
  = Ret {| rat_n := 0; rat_d := 1 |}.
Proof. split; [lia | apply rationalOps_div_by_zero_denominator_Z; lia]. Defined.

End SetArithFacts.

Module SqrtFacts.
Import TrigCore SqrtForms.

Lemma strip_square_spec (f : nat) (m k d : Z) :
  2 <= d -> 1 <= m -> (Z.to_nat m < f)%nat ->
  exists m' k', strip_square f m k d = Ret (m', k') /\
    1 <= m' /\ k' * k' * m' = k * k * m /\ (m' | m) /\ ~ (d * d | m') /\
    (0 < k -> 0 < k').
Proof.
  revert m k. induction f as [|f IH]; intros m k Hd Hm Hf; [lia|].
  cbn [strip_square].
  assert (Hdd : 4 <= d * d) by nia.
  destruct (Z.eqb_spec (Z.rem m (d * d)) 0) as [E|E].
  - apply Z.rem_divide in E; [|lia]. destruct E as [q Hq].
    assert (1 <= q) by nia.
    assert (Hdiv : m / (d * d) = q) by (rewrite Hq; apply Z.div_mul; lia).
    rewrite Hdiv.
    destruct (IH q (k * d)) as (m' & k' & R & H1 & H2 & H3 & H4 & H5); [lia | lia | nia |].
    exists m', k'. split; [exact R|]. split; [exact H1|]. split; [rewrite H2, Hq; ring|].
    split; [|split; [exact H4 | intro; apply H5; nia]].
    destruct H3 as [c Hc]. exists (c * (d * d)). rewrite Hq, Hc. ring.
  - exists m, k. split; [reflexivity|]. split; [lia|]. split; [reflexivity|].
    split; [apply Z.divide_refl|]. split; [|auto].
    intro Hdv. apply E. apply Z.rem_divide; [lia | exact Hdv].
Qed.

Lemma sqrt_loop_spec (f : nat) (m k d value : Z) :
  2 <= d -> 1 <= m -> 1 <= k -> k * k * m = value ->
  (forall e, 2 <= e < d -> ~ (e * e | m)) ->
  (0 < f)%nat -> (d * d <= m -> m - d + 2 < Z.of_nat f) ->
  exists r, sqrt_loop f m k d = Ret r /\
    1 <= sq_k r /\ 1 <= sq_m r /\ sq_k r * sq_k r * sq_m r = value /\
    forall e, 2 <= e -> ~ (e * e | sq_m r).
Proof.
  revert m k d. induction f as [|f IH]; intros m k d Hd Hm Hk Hv Hsf Hf0 Hf; [lia|].
  - cbn [sqrt_loop]. destruct (Z.leb_spec (d * d) m) as [Hle|Hlt].
    + destruct (strip_square_spec (S (Z.to_nat m)) m k d) as
        (m' & k' & R & H1 & H2 & H3 & H4 & H5); [lia | lia | lia |].
      rewrite R. cbn [obind fst snd].
      assert (m' <= m) by (apply Z.divide_pos_le; [lia | exact H3]).
      specialize (Hf Hle). rewrite Nat2Z.inj_succ in Hf.
      apply IH; [lia | lia | specialize (H5 ltac:(lia)); lia | rewrite H2; exact Hv | | nia | lia].
      intros e He Hdv. destruct (Z.eq_dec e d) as [->|Hne]; [exact (H4 Hdv)|].
      apply (Hsf e); [lia|]. eapply Z.divide_trans; [exact Hdv | exact H3].
    + eexists. split; [reflexivity|]. cbn [sq_k sq_m].
      split; [lia|]. split; [lia|]. split; [exact Hv|].
      intros e He Hdv. destruct (Z.lt_ge_cases e d) as [Hlt'|Hge].
      * exact (Hsf e ltac:(lia) Hdv).
      * apply Z.divide_pos_le in Hdv; [nia | lia].
Qed.

(** For a positive integer [value] (below 2^53), [simplifySqrt(value)]
    returns [{k, m}] with [k, m >= 1], [k² · m = value] and [m] free of
    square factors: no [e² > 1] divides [m]. So [√value = k·√m] with [m]
    as small as possible. *)
Theorem simplifySqrt_correct (value : Z) :
  1 <= value -> value < 2 ^ 53 ->
  exists r, simplifySqrt value = Ret r /\
    1 <= sq_k r /\ 1 <= sq_m r /\ sq_k r * sq_k r * sq_m r = value /\
    forall e, 2 <= e -> ~ (e * e | sq_m r).
Proof.
  intros H _. unfold simplifySqrt. apply sqrt_loop_spec; lia.
Qed.

Lemma simplifySqrt_correct_witness :
  exists r, simplifySqrt 72 = Ret r /\
    1 <= sq_k r /\ 1 <= sq_m r /\ sq_k r * sq_k r * sq_m r = 72 /\
    forall e, 2 <= e -> ~ (e * e | sq_m r).
Proof. apply simplifySqrt_correct; lia. Defined.

End SqrtFacts.

Module TrigCheckFacts.
Import JSNumber TrigCore TrigCheck.

Lemma In_trim_start (x : Z) (s : jsstr) : In x (trim_start s) -> In x s.
Proof.
  induction s as [|c s IH]; simpl; auto.
  destruct (is_ws c); simpl; intuition.
Qed.

Lemma In_trim (x : Z) (s : jsstr) : In x (trim s) -> In x s.
Proof.
  unfold trim. intro H. apply in_rev in H. apply In_trim_start in H.
  apply in_rev in H. apply In_trim_start in H. exact H.
Qed.

Lemma ends_with_In (c : Z) (s : jsstr) : ends_with c s = true -> In c s.
Proof.
  unfold ends_with. destruct (rev s) as [|x t] eqn:E; [discriminate|].
  intro H. apply Z.eqb_eq in H. subst x. apply in_rev. rewrite E. left. reflexivity.
Qed.

Lemma replace_first_notin (c : Z) (s : jsstr) : ~ In c s -> replace_first c s = s.
Proof.
  induction s as [|x s IH]; simpl; auto. intro H.
  destruct (Z.eqb_spec x c) as [->|_]; [tauto|]. rewrite IH; auto.
Qed.

(** [parseAngle] reads an angle in degrees only from a string whose trimmed
    form ends with the degree sign. *)
Lemma parseAngle_deg_sign (s : jsstr) (v : double) :
  parseAngle s = Ret (Some (Deg v)) -> In c_degree s.
Proof.
  unfold parseAngle. destruct (trim s) as [|c t] eqn:T; [discriminate|].
  destruct (ends_with c_degree (c :: t)) eqn:E.
  - intros _. apply In_trim. rewrite T. apply ends_with_In, E.
  - destruct (list_eqb (c :: t) [c_pi]); [discriminate|].
    destruct (split_on c_pi (c :: t)) as [|lhs [|rhs [|x r]]];
      try (destruct (is_finite _); discriminate).
    destruct (is_nan _); [discriminate|].
    destruct (_ || _); [discriminate|].
    destruct (normRational _); cbn [obind]; discriminate.
Qed.

(** In a [trigDegRad] task whose solution has no degree sign (the
    conversion to degrees, whose solution is [`${angleDeg}`]), an answer
    that [parseAngle] reads in degrees, such as ["30°"], is never marked
    correct: the solution is read as a radian value and the two kinds are
    never compared. *)
Theorem checkTrigAnswer_degRad_rejects_degrees (solution userInput : jsstr) (v : double) :
  ~ In c_degree solution ->
  parseAngle userInput = Ret (Some (Deg v)) ->
  checkTrigAnswer_degRad solution userInput <> Ret true.
Proof.
  intros Hs Hu. unfold checkTrigAnswer_degRad. rewrite Hu. cbn [obind].
  assert (ends_with c_degree solution = false) as ->.
  { destruct (ends_with c_degree solution) eqn:E; auto. apply ends_with_In in E. tauto. }
  rewrite replace_first_notin by exact Hs.
  destruct (parseAngle solution) as [[[ev|ep eq]|]| |] eqn:P; cbn [obind]; try discriminate.
  apply parseAngle_deg_sign in P. tauto.
Qed.

Lemma checkTrigAnswer_degRad_rejects_degrees_witness :
  checkTrigAnswer_degRad (u "30") (u "30°") <> Ret true /\
  checkTrigAnswer_degRad (u "30") (u "30") = Ret true.
Proof.
  split; [|vm_compute; reflexivity].
  apply (checkTrigAnswer_degRad_rejects_degrees (u "30") (u "30°") (of_Z 30));
    [vm_compute; intuition discriminate | vm_compute; reflexivity].
Defined.

End TrigCheckFacts.

Module LogicTableFacts.
Import Logic LogicTable.

Lemma In_str_add (x v : jsstr) (vs : list jsstr) :
  In x (str_add v vs) <-> x = v \/ In x vs.
Proof.
  unfold str_add. destruct (existsb (list_eqb v) vs) eqn:E.
  - apply existsb_exists in E as [w [Hw Hvw]]. apply StringFacts.list_eqb_eq in Hvw. subst w.
    split; [tauto | intros [-> | H]; auto].
  - rewrite in_app_iff. simpl. intuition (subst; auto).
Qed.

Lemma collectVariables_incl (n : FormulaNode) (acc : list jsstr) :
  incl acc (collectVariables n acc).
Proof.
  revert acc. induction n as [name | c IH | k l IHl r IHr]; intros acc x Hx; simpl; auto.
  - apply In_str_add; auto.
  - apply IH, Hx.
  - apply IHr, IHl, Hx.
Qed.

(** [evaluateFormula] only reads the variables [collectVariables] collects. *)
Lemma evaluateFormula_ext (n : FormulaNode) (acc : list jsstr) (a b : Assignment) :
  (forall v, In v (collectVariables n acc) -> lookup_var a v = lookup_var b v) ->
  evaluateFormula n a = evaluateFormula n b.
Proof.
  revert acc. induction n as [name | c IH | k l IHl r IHr]; intros acc H; simpl in *.
  - apply (H name), In_str_add. auto.
  - f_equal. eapply IH; eauto.
  - rewrite (IHl acc), (IHr (collectVariables l acc)); [reflexivity | ..];
      intros v Hv; apply H; auto; apply collectVariables_incl; auto.
Qed.

Lemma In_fold_str_add (xs acc : list jsstr) (x : jsstr) :
  In x (fold_left (fun acc v => str_add v acc) xs acc) <-> In x acc \/ In x xs.
Proof.
  revert acc. induction xs as [|v xs IH]; intro acc; simpl.
  - tauto.
  - rewrite IH, In_str_add. intuition (subst; auto).
Qed.

Lemma NoDup_fold_str_add (xs acc : list jsstr) :
  NoDup acc -> NoDup (fold_left (fun acc v => str_add v acc) xs acc).
Proof.
  revert acc. induction xs as [|v xs IH]; intros acc H; simpl; auto.
  apply IH. unfold str_add. destruct (existsb (list_eqb v) acc) eqn:E; auto.
  eapply Permutation.Permutation_NoDup; [apply Permutation.Permutation_cons_append|].
  constructor; auto. intro Hin.
  assert (existsb (list_eqb v) acc = true) by (apply existsb_exists; exists v; split; auto;
    apply StringFacts.list_eqb_eq; auto).
  congruence.
Qed.

Lemma perm_insert_str (v : jsstr) (xs : list jsstr) :
  Permutation.Permutation (insert_str v xs) (v :: xs).
Proof.
  induction xs as [|w ws IH]; simpl; auto.
  destruct (str_ltb w v); auto.
  eapply Permutation.perm_trans; [apply Permutation.perm_skip, IH | apply Permutation.perm_swap].
Qed.

Lemma perm_sort_str (xs : list jsstr) : Permutation.Permutation (sort_str xs) xs.
Proof.
  induction xs as [|v xs IH]; simpl; auto.
  eapply Permutation.perm_trans; [apply perm_insert_str | auto].
Qed.

Lemma In_truth_vars (l r : FormulaNode) (v : jsstr) :
  In v (truth_vars l r) <-> In v (collectVariables l []) \/ In v (collectVariables r []).
Proof.
  unfold truth_vars, str_set_of_list. split; intro H.
  - apply (Permutation.Permutation_in _ (perm_sort_str _)), In_fold_str_add in H.
    simpl in H. rewrite in_app_iff in H. tauto.
  - apply (Permutation.Permutation_in _ (Permutation.Permutation_sym (perm_sort_str _))).
    apply In_fold_str_add. rewrite in_app_iff. tauto.
Qed.

Lemma NoDup_truth_vars (l r : FormulaNode) : NoDup (truth_vars l r).
Proof.
  unfold truth_vars, str_set_of_list.
  eapply Permutation.Permutation_NoDup; [apply Permutation.Permutation_sym, perm_sort_str|].
  apply NoDup_fold_str_add. constructor.
Qed.

(** Writing the row bits with [forEach] over distinct variables: the
    variable at position [j] gets the bit for [k + j]; every other name keeps
    its earlier value. *)
Lemma fold_assign (len i : Z) (ws : list jsstr) (asg : Assignment) (k : Z) :
  NoDup ws ->
  (forall j, (j < List.length ws)%nat ->
     fst (fold_left (assign_step len i) ws (asg, k)) (nth j ws []) =
     Some (negb (Z.land i (SetLogic.shl32 1 (len - (k + Z.of_nat j) - 1)) =? 0))) /\
  (forall name, ~ In name ws -> fst (fold_left (assign_step len i) ws (asg, k)) name = asg name).
Proof.
  revert asg k. induction ws as [|w ws IH]; intros asg k Hnd.
  - split; [simpl; intros; lia | reflexivity].
  - inversion Hnd as [|? ? Hw Hnd']; subst.
    change (fold_left (assign_step len i) (w :: ws) (asg, k))
      with (fold_left (assign_step len i) ws (assign_step len i (asg, k) w)).
    assert (E : assign_step len i (asg, k) w =
      ((fun name => if list_eqb name w
                    then Some (negb (Z.land i (SetLogic.shl32 1 (len - k - 1)) =? 0))
                    else asg name), k + 1)) by reflexivity.
    rewrite E. edestruct IH as [IH1 IH2]; [exact Hnd'|]. split.
    + intros [|j] Hj; simpl nth.
      * rewrite IH2 by exact Hw. rewrite (proj2 (StringFacts.list_eqb_eq w w) eq_refl).
        replace (len - (k + Z.of_nat 0) - 1) with (len - k - 1) by lia. reflexivity.
      * simpl in Hj. rewrite IH1 by lia.
        replace (len - (k + 1 + Z.of_nat j) - 1) with (len - (k + Z.of_nat (S j)) - 1) by lia.
        reflexivity.
    + intros name Hn. rewrite IH2 by (intro; apply Hn; right; auto).
      destruct (list_eqb name w) eqn:E'; [|reflexivity].
      apply StringFacts.list_eqb_eq in E'. subst. exfalso. apply Hn. left. reflexivity.
Qed.

Lemma fold_assign_zero (len : Z) (ws : list jsstr) (asg : Assignment) (k : Z) :
  (forall name, lookup_var asg name = false) ->
  forall name, lookup_var (fst (fold_left (assign_step len 0) ws (asg, k))) name = false.
Proof.
  revert asg k. induction ws as [|w ws IH]; intros asg k H; [exact H|].
  change (fold_left (assign_step len 0) (w :: ws) (asg, k))
    with (fold_left (assign_step len 0) ws (assign_step len 0 (asg, k) w)).
  apply IH. intro n. unfold lookup_var. simpl.
  destruct (list_eqb n w); [rewrite ?Z.land_0_l; reflexivity | apply H].
Qed.

Lemma land_pow2 (i k : Z) : 0 <= k -> (Z.land i (2 ^ k) =? 0) = negb (Z.testbit i k).
Proof.
  intro Hk. destruct (Z.testbit i k) eqn:E; simpl.
  - apply Z.eqb_neq. intro H0.
    assert (H : Z.testbit (Z.land i (2 ^ k)) k = true)
      by (rewrite Z.land_spec, E, Z.pow2_bits_true; auto).
    rewrite H0, Z.bits_0 in H. discriminate.
  - apply Z.eqb_eq, Z.bits_inj'. intros m Hm.
    rewrite Z.land_spec, Z.bits_0, Z.pow2_bits_eqb by exact Hk.
    destruct (k =? m) eqn:Ekm; [apply Z.eqb_eq in Ekm; subst; rewrite E; reflexivity|].
    apply andb_false_r.
Qed.

Lemma bits_value (bs : list bool) :
  0 <= fold_right (fun b acc => Z.b2z b + 2 * acc) 0 bs < 2 ^ Z.of_nat (List.length bs) /\
  forall j, (j < List.length bs)%nat ->
    Z.testbit (fold_right (fun b acc => Z.b2z b + 2 * acc) 0 bs) (Z.of_nat j) = nth j bs false.
Proof.
  induction bs as [|b bs [IHr IHt]]; cbn [fold_right List.length].
  - split; [simpl; lia | intros; lia].
  - split.
    + rewrite Nat2Z.inj_succ, Z.pow_succ_r by lia. destruct b; simpl Z.b2z; lia.
    + intros [|j] Hj.
      * rewrite Z.add_comm, Z.testbit_0_r. reflexivity.
      * rewrite Nat2Z.inj_succ, Z.add_comm, Z.testbit_succ_r by lia.
        apply IHt. simpl in Hj. lia.
Qed.

(** Over at most 30 distinct variables, some row index below [2 ^ n] gives
    every variable the value it has under an arbitrary assignment. *)
Lemma truth_rows_cover (vs : list jsstr) (a : Assignment) :
  NoDup vs -> (List.length vs <= 30)%nat ->
  exists i, 0 <= i < 2 ^ Z.of_nat (List.length vs) /\
    forall v, In v vs -> lookup_var (row_assignment vs i) v = lookup_var a v.
Proof.
  intros Hnd Hlen.
  set (bs := map (lookup_var a) vs).
  destruct (bits_value (rev bs)) as [Hr Ht].
  rewrite length_rev in Hr, Ht. unfold bs in Hr, Ht. rewrite length_map in Hr, Ht.
  eexists. split; [exact Hr|].
  intros v Hv. destruct (In_nth vs v [] Hv) as [j [Hj <-]].
  unfold row_assignment, lookup_var at 1.
  rewrite (proj1 (fold_assign _ _ vs (fun _ => None) 0 Hnd) j Hj).
  rewrite SetRegionFacts.shl32_1_small by lia.
  rewrite land_pow2 by lia. rewrite Bool.negb_involutive.
  replace (Z.of_nat (List.length vs) - (0 + Z.of_nat j) - 1)
    with (Z.of_nat (List.length vs - S j)) by lia.
  rewrite Ht by lia. rewrite rev_nth by (unfold bs; rewrite length_map; lia).
  unfold bs. rewrite length_map.
  replace (List.length vs - S (List.length vs - S j))%nat with j by lia.
  rewrite nth_indep with (d' := lookup_var a []) by (rewrite length_map; lia).
  rewrite map_nth. reflexivity.
Qed.

Lemma truth_table_exact (left right : FormulaNode) :
  (List.length (truth_vars left right) <= 30)%nat ->
  fst (truthTableEquality left right) = true <->
  forall a, evaluateFormula left a = evaluateFormula right a.
Proof.
  intro Hlen. unfold truthTableEquality. cbn [fst].
  set (vs := truth_vars left right) in *.
  rewrite SetRegionFacts.shl32_1_small by lia.
  rewrite Z.max_r by (assert (0 < 2 ^ Z.of_nat (List.length vs)) by (apply Z.pow_pos_nonneg; lia); lia).
  rewrite forallb_forall. split.
  - intros H a.
    destruct (truth_rows_cover vs a (NoDup_truth_vars left right) Hlen) as [i [Hi Hag]].
    assert (Hrow : In (truth_row left right vs i)
                      (map (truth_row left right vs) (map Z.of_nat (seq 0 (Z.to_nat (2 ^ Z.of_nat (List.length vs))))))).
    { apply in_map, in_map_iff. exists (Z.to_nat i). split; [lia|].
      apply in_seq. lia. }
    specialize (H _ Hrow). unfold truth_row in H. cbn [tr_matches] in H.
    apply Bool.eqb_prop in H.
    rewrite (evaluateFormula_ext left [] a (row_assignment vs i)),
            (evaluateFormula_ext right [] a (row_assignment vs i)); [exact H | ..];
      intros v Hv; symmetry; apply Hag, In_truth_vars; auto.
  - intros H row Hrow. apply in_map_iff in Hrow as [i [<- _]].
    unfold truth_row. cbn [tr_matches]. rewrite H. apply Bool.eqb_reflx.
Qed.





End LogicTableFacts.

Module LogicEquivFacts.
Import Logic Parser LogicTable LogicEquiv LogicTableFacts.

Lemma eliminateIffOnly_free (node : FormulaNode) : containsIff (eliminateIffOnly node) = false.
Proof.
  induction node as [name | c IH | k l IHl r IHr]; simpl; auto.
  destruct k; simpl; rewrite ?IHl, ?IHr; reflexivity.
Qed.

Lemma eliminateIffOnly_eval (node : FormulaNode) (a : Assignment) :
  evaluateFormula (eliminateIffOnly node) a = evaluateFormula node a.
Proof.
  induction node as [name | c IH | k l IHl r IHr]; simpl; auto.
  - rewrite IH. reflexivity.
  - destruct k; simpl; rewrite IHl, IHr; auto.
    destruct (evaluateFormula l a), (evaluateFormula r a); reflexivity.
Qed.

Lemma eliminateIffOnly_id (node : FormulaNode) :
  containsIff node = false -> eliminateIffOnly node = node.
Proof.
  induction node as [name | c IH | k l IHl r IHr]; simpl; intro H; auto.
  - rewrite IH; auto.
  - destruct k; try discriminate; apply orb_false_iff in H as [Hl Hr];
      rewrite IHl, IHr; auto.
Qed.

(** [eliminateIffOnly] leaves no [⇔], keeps the value of the formula under
    every assignment, and changes nothing when applied a second time. *)
Theorem eliminateIffOnly_correct (node : FormulaNode) :
  containsIff (eliminateIffOnly node) = false /\
  (forall a, evaluateFormula (eliminateIffOnly node) a = evaluateFormula node a) /\
  eliminateIffOnly (eliminateIffOnly node) = eliminateIffOnly node.
Proof.
  split; [apply eliminateIffOnly_free|]. split; [apply eliminateIffOnly_eval|].
  apply eliminateIffOnly_id, eliminateIffOnly_free.
Qed.

Lemma NoDup_str_add (v : jsstr) (acc : list jsstr) : NoDup acc -> NoDup (str_add v acc).
Proof.
  intro H. unfold str_add. destruct (existsb (list_eqb v) acc) eqn:E; auto.
  eapply Permutation.Permutation_NoDup; [apply Permutation.Permutation_cons_append|].
  constructor; auto. intro Hin.
  assert (existsb (list_eqb v) acc = true) by (apply existsb_exists; exists v; split; auto;
    apply StringFacts.list_eqb_eq; auto).
  congruence.
Qed.

Lemma NoDup_collectVariables (node : FormulaNode) (acc : list jsstr) :
  NoDup acc -> NoDup (collectVariables node acc).
Proof.
  revert acc. induction node as [name | c IH | k l IHl r IHr]; intros acc H; simpl; auto.
  apply NoDup_str_add, H.
Qed.

(** Row [i] of the assignments over distinct variables gives the variable
    at position [j] the bit [n - 1 - j] of [i]. *)
Lemma row_assignment_bit (vs : list jsstr) (i : Z) (j : nat) :
  NoDup vs -> (List.length vs <= 30)%nat -> (j < List.length vs)%nat ->
  lookup_var (row_assignment vs i) (nth j vs []) =
  Z.testbit i (Z.of_nat (List.length vs - 1 - j)).
Proof.
  intros Hnd Hlen Hj. unfold row_assignment, lookup_var.
  rewrite (proj1 (fold_assign _ _ vs (fun _ => None) 0 Hnd) j Hj).
  rewrite SetRegionFacts.shl32_1_small by lia.
  rewrite land_pow2 by lia. rewrite Bool.negb_involutive. f_equal. lia.
Qed.

Lemma generateAssignments_length (vs : list jsstr) :
  (List.length vs <= 30)%nat ->
  Z.of_nat (List.length (generateAssignments vs)) = 2 ^ Z.of_nat (List.length vs).
Proof.
  intro Hlen. unfold generateAssignments. rewrite !length_map, length_seq.
  rewrite SetRegionFacts.shl32_1_small by lia.
  assert (0 < 2 ^ Z.of_nat (List.length vs)) by (apply Z.pow_pos_nonneg; lia).
  rewrite Z.max_r by lia. lia.
Qed.

Lemma generateAssignments_nth (vs : list jsstr) (i : Z) :
  (List.length vs <= 30)%nat -> 0 <= i < 2 ^ Z.of_nat (List.length vs) ->
  nth_error (generateAssignments vs) (Z.to_nat i) = Some (row_assignment vs i).
Proof.
  intros Hlen Hi. unfold generateAssignments.
  rewrite SetRegionFacts.shl32_1_small by lia. rewrite Z.max_r by lia.
  rewrite !nth_error_map, nth_error_seq.
  destruct (Nat.ltb_spec (Z.to_nat i) (Z.to_nat (2 ^ Z.of_nat (List.length vs)))); [|lia].
  simpl. f_equal. f_equal. lia.
Qed.



Lemma areEquivalent_table (x y : FormulaInput) (l r : FormulaNode) :
  toAst x = Ok l -> toAst y = Ok r ->
  areEquivalent x y = Value (fst (truthTableEquality l r)).
Proof.
  intros Hx Hy. unfold areEquivalent, truthTableEquality, generateAssignments.
  rewrite Hx, Hy. cbn [fst]. f_equal.
  induction (map Z.of_nat _) as [|i rest IH]; simpl; auto.
  rewrite IH. reflexivity.
Qed.



End LogicEquivFacts.

Module TrigTaskMathFacts.
Import JSNumber TrigCore TrigTaskMath.

Lemma simplifyDegree_Z (deg : Z) : simplifyDegree deg = deg mod 360.
Proof.
  unfold simplifyDegree. cbn [js_mod js_of_Z js_ltb js_add JSNum_Z].
  pose proof (Z.quot_rem' deg 360) as Hq.
  pose proof (Z.rem_bound_abs deg 360 ltac:(lia)) as Hb.
  destruct (Z.ltb_spec (Z.rem deg 360) 0) as [Hn|Hn].
  - apply (Z.mod_unique deg 360 (Z.quot deg 360 - 1)); lia.
  - apply (Z.mod_unique deg 360 (Z.quot deg 360)); lia.
Qed.

(** For an integer angle, [degToRad (simplifyDegree deg)] is the fraction
    [p/q] of [pi] in lowest terms with a positive denominator, in [0, 2),
    equal to [(deg mod 360) / 180]. *)
Theorem degToRad_simplifyDegree (deg : Z) :
  exists p q, degToRad (simplifyDegree deg) = Ret {| rf_p := p; rf_q := q |} /\
    0 < q /\ Z.gcd p q = 1 /\ 0 <= p < 2 * q /\ p * 180 = (deg mod 360) * q.
Proof.
  rewrite simplifyDegree_Z. set (d := deg mod 360).
  assert (Hd : 0 <= d < 360) by (apply Z.mod_pos_bound; lia).
  unfold degToRad. cbn [js_of_Z JSNum_Z].
  destruct (TrigFacts.gcd_Z d 180 ltac:(lia)) as [Hg Hpos]. rewrite Hg. cbn [obind js_div JSNum_Z].
  set (g := Z.gcd d 180) in *.
  destruct (Z.gcd_divide_l d 180) as [p Hp]. destruct (Z.gcd_divide_r d 180) as [q Hq].
  fold g in Hp, Hq.
  assert (Ep : d / g = p) by (rewrite Hp; apply Z.div_mul; lia).
  assert (Eq : 180 / g = q) by (rewrite Hq at 1; apply Z.div_mul; lia).
  exists p, q. rewrite Ep, Eq. split; [reflexivity|].
  assert (0 < q) by nia.
  split; [assumption|]. split.
  - rewrite <- Ep, <- Eq. apply Z.gcd_div_gcd; [lia | reflexivity].
  - split; nia.
Qed.

End TrigTaskMathFacts.

Module RegionsFacts.
Import Regions.

Lemma region_eqb_eq (r s : Region) : region_eqb r s = true <-> r = s.
Proof. destruct r, s; simpl; split; congruence. Qed.

Lemma In_region_set (a : list Region) (r : Region) : In r (region_set a) <-> In r a.
Proof.
  unfold region_set.
  enough (forall acc, In r (fold_left (fun acc r => if existsb (region_eqb r) acc then acc else acc ++ [r]) a acc)
                      <-> In r acc \/ In r a) as H by (rewrite H; simpl; tauto).
  induction a as [|x a IH]; intro acc; simpl; [tauto|].
  rewrite IH. destruct (existsb (region_eqb x) acc) eqn:E.
  - apply existsb_exists in E as [y [Hy Hxy]]. apply region_eqb_eq in Hxy. subst y.
    intuition (subst; auto).
  - rewrite in_app_iff. simpl. intuition (subst; auto).
Qed.

Lemma existsb_region (r : Region) (l : list Region) : existsb (region_eqb r) l = true <-> In r l.
Proof.
  rewrite existsb_exists. split.
  - intros [y [Hy E]]. apply region_eqb_eq in E. subst. exact Hy.
  - intro H. exists r. split; [exact H | apply region_eqb_eq; reflexivity].
Qed.

(** When [b] lists each region at most once, [regionsEqual a b] holds
    exactly when [a] also lists each region at most once and the two lists
    have the same regions. *)
Theorem regionsEqual_spec (a b : list Region) :
  NoDup b ->
  regionsEqual a b = true <-> NoDup a /\ forall r, In r a <-> In r b.
Proof.
  intro Hb. unfold regionsEqual.
  destruct (Nat.eqb_spec (List.length a) (List.length b)) as [Hl|Hl]; cbn [negb].
  - rewrite forallb_forall.
    setoid_rewrite existsb_region. setoid_rewrite In_region_set. split.
    + intro Hin.
      assert (Ha : NoDup a) by (eapply NoDup_incl_NoDup; [exact Hb | lia | exact Hin]).
      split; [exact Ha|]. intro r. split; [|apply Hin].
      apply (NoDup_length_incl Hb); [lia | exact Hin].
    + intros [_ H] r Hr. apply H, Hr.
  - split; [discriminate|]. intros [Ha H]. exfalso. apply Hl.
    apply Nat.le_antisymm; apply NoDup_incl_length; auto; intros r Hr; apply H; auto.
Qed.

Lemma regionsEqual_spec_witness :
  NoDup [AB; Aonly] /\ regionsEqual [Aonly; AB] [AB; Aonly] = true /\
  NoDup [Aonly; AB] /\ regionsEqual [AB; Aonly] [AB; AB] = true.
Proof.
  assert (Hb : NoDup [AB; Aonly]) by (repeat constructor; simpl; intuition discriminate).
  split; [exact Hb|]. split.
  - apply (regionsEqual_spec [Aonly; AB] [AB; Aonly] Hb). split.
    + repeat constructor; simpl; intuition discriminate.
    + intro r. simpl. intuition.
  - split; [repeat constructor; simpl; intuition discriminate | vm_compute; reflexivity].
Defined.

End RegionsFacts.

Module SetParserFacts.
Import SetLogic Regions SetParser.

Lemma trim_start_all_ws (s : jsstr) : (forall c, In c s -> is_ws c = true) -> trim_start s = [].
Proof.
  induction s as [|c t IH]; intro H; simpl; [reflexivity|].
  rewrite (H c (or_introl eq_refl)). apply IH. intros d Hd. apply H. right. exact Hd.
Qed.

Lemma trim_all_ws (s : jsstr) : (forall c, In c s -> is_ws c = true) -> trim s = [].
Proof. intro H. unfold trim. rewrite (trim_start_all_ws s H). reflexivity. Qed.

(** An input that is empty or only white space makes [parseSetExpression],
    and so [regionsForExpression], throw ['Formel unvollständig']. *)
Theorem parseSetExpression_blank (input : jsstr) :
  (forall c, In c input -> is_ws c = true) ->
  parseSetExpression input = PErr msg_incomplete /\
  regionsForExpression input = PErr msg_incomplete.
Proof.
  intro H. unfold regionsForExpression, parseSetExpression.
  rewrite trim_all_ws by exact H. split; reflexivity.
Qed.

Lemma parseSetExpression_blank_witness :
  (forall c, In c (u " 	 ") -> is_ws c = true) /\
  parseSetExpression (u " 	 ") = PErr msg_incomplete.
Proof.
  assert (H : forall c, In c (u " 	 ") -> is_ws c = true)
    by (intros c Hc; vm_compute in Hc; intuition (subst; reflexivity)).
  split; [exact H | apply (proj1 (parseSetExpression_blank _ H))].
Defined.

Lemma forall_bool2 (P : bool -> bool -> Prop) :
  (forall a b, P a b) <-> P true true /\ P true false /\ P false true /\ P false false.
Proof.
  split; [intro H; repeat split; apply H|].
  intros (H1 & H2 & H3 & H4) [] []; assumption.
Qed.

Lemma regions_equal_combos (l r : SetNode) :
  regionsEqual (map fst (filter (fun combo => evalSetExpr l (snd combo)) combos))
               (map fst (filter (fun combo => evalSetExpr r (snd combo)) combos)) = true <->
  forall a b, evalSetExpr l {| asgA := a; asgB := b; asgC := false |} =
              evalSetExpr r {| asgA := a; asgB := b; asgC := false |}.
Proof.
  rewrite (forall_bool2 (fun a b => evalSetExpr l {| asgA := a; asgB := b; asgC := false |} =
                                     evalSetExpr r {| asgA := a; asgB := b; asgC := false |})).
  unfold combos. cbn [filter snd].
  generalize (evalSetExpr l {| asgA := true; asgB := true; asgC := false |})
             (evalSetExpr l {| asgA := true; asgB := false; asgC := false |})
             (evalSetExpr l {| asgA := false; asgB := true; asgC := false |})
             (evalSetExpr l {| asgA := false; asgB := false; asgC := false |})
             (evalSetExpr r {| asgA := true; asgB := true; asgC := false |})
             (evalSetExpr r {| asgA := true; asgB := false; asgC := false |})
             (evalSetExpr r {| asgA := false; asgB := true; asgC := false |})
             (evalSetExpr r {| asgA := false; asgB := false; asgC := false |}).
  intros [] [] [] [] [] [] [] []; vm_compute; intuition congruence.
Qed.

(** For two inputs that [parseSetExpression] accepts, [regionsForExpression]
    returns region lists that [regionsEqual] accepts exactly when the two
    expressions agree on every assignment of A and B with C false: C is
    always read as false. *)
Theorem regionsForExpression_equal (x y : jsstr) (l r : SetNode) :
  parseSetExpression x = POk l -> parseSetExpression y = POk r ->
  exists rx ry, regionsForExpression x = POk rx /\ regionsForExpression y = POk ry /\
    (regionsEqual rx ry = true <->
     forall a b, evalSetExpr l {| asgA := a; asgB := b; asgC := false |} =
                 evalSetExpr r {| asgA := a; asgB := b; asgC := false |}).
Proof.
  intros Hx Hy. unfold regionsForExpression. rewrite Hx, Hy.
  do 2 eexists. split; [reflexivity|]. split; [reflexivity|].
  apply regions_equal_combos.
Qed.

Lemma regionsForExpression_equal_witness :
  parseSetExpression (u "A ∩ C") = POk (SInter (SVar VA) (SVar VC)) /\
  parseSetExpression (u "∅") = POk (SConst false) /\
  areSetExprEquivalent (SInter (SVar VA) (SVar VC)) (SConst false) = false /\
  exists rx ry, regionsForExpression (u "A ∩ C") = POk rx /\
    regionsForExpression (u "∅") = POk ry /\ regionsEqual rx ry = true.
Proof.
  assert (Hx : parseSetExpression (u "A ∩ C") = POk (SInter (SVar VA) (SVar VC)))
    by (vm_compute; reflexivity).
  assert (Hy : parseSetExpression (u "∅") = POk (SConst false)) by (vm_compute; reflexivity).
  split; [exact Hx|]. split; [exact Hy|]. split; [vm_compute; reflexivity|].
  destruct (regionsForExpression_equal _ _ _ _ Hx Hy) as (rx & ry & Hrx & Hry & Heq).
  exists rx, ry. split; [exact Hrx|]. split; [exact Hry|].
  apply Heq. intros a b. simpl. destruct a; reflexivity.
Defined.

End SetParserFacts.
